(** * A cyclic, abortable barrier for goroutines (package [barrier])

    Shallow embedding of [barrier.go] as an interleaving semantics: the
    shared [Barrier] object, the heap of channels it points into, and a pool
    of goroutines, each of them inside one call of [Await] or [Abort] at a
    program point of the source.  One [Run] event is one atomic action of one
    goroutine (a mutex operation, one access of a field of the barrier under
    the mutex, one channel operation, the callback); the scheduler is
    arbitrary, so every statement quantified over event lists holds for
    every interleaving.  Goroutines are started by [GoAwait] and [GoAbort]
    events at any time and in any number.  A panic stops the goroutine it
    happens in ([PPanic]); the crash of the whole program is the executions
    in which nothing runs afterwards.  [b.count] is an [int64] and wraps
    around. *)

From Stdlib Require Import ZArith Lia String.
From stdpp Require Import base decidable option list strings.

Local Open Scope Z_scope.

(** ** Data *)

(** [int64] arithmetic of Go wraps around. *)
Definition MinInt64 : Z := - 2 ^ 63.
Definition MaxInt64 : Z := 2 ^ 63 - 1.
Definition wrap64 (z : Z) : Z := (z + 2 ^ 63) mod 2 ^ 64 - 2 ^ 63.

(** Values of Go's [error] that [Await] can return; [None] is [nil].
    [ErrCallback] stands for the errors made by user callbacks. *)
Inductive error :=
| ErrBarrierAborted
| ErrBarrierMisused
| ErrCallback (msg : string).

Definition goerror := option error.

(** [type Callback func() error]: [None] is the nil func, [Some r] a func
    returning [r].  What else the callback does is not the barrier's; that it
    ran is recorded in [calls]. *)
Definition Callback := option goerror.

(** Channels are handles into a heap; the barrier's channels are never sent
    on, so a channel is its closed flag. *)
Abbreviation chan := nat (only parsing).
Abbreviation heap := (list bool) (only parsing).

Definition closed (h : heap) (c : chan) : bool := default false (h !! c).

(** [close(c)] panics on a closed channel (and on a nil one). *)
Definition close (h : heap) (c : chan) : option heap :=
  match h !! c with
  | Some false => Some (<[c := true]> h)
  | _ => None
  end.

(** [make(chan bool)] *)
Definition make (h : heap) : chan * heap := (length h, h ++ [false]).

(** [type Barrier struct]; [mu] is the embedded [sync.Mutex]. *)
Record Barrier := mkBarrier {
  mu : bool;
  n : Z;
  count : Z;
  done : chan;
  abort : chan
}.

(** Program points of a goroutine: inside [Await] (with [wait] and [reset]
    inlined where [Await] calls them) or inside [Abort]. *)
Inductive pc :=
| PAwait        (* if b.aborted() { return ErrBarrierAborted } *)
| PLock         (* b.Lock() *)
| PDec          (* b.count-- *)
| PCopy         (* count := b.count; done := b.done *)
| PUnlock       (* b.Unlock() *)
| PDispatch     (* if count < 0 ... if count > 0 ... *)
| PMisuse       (* b.Abort(); return ErrBarrierMisused *)
| PWait         (* wait: select { case <-done: ; case <-b.abort: } *)
| PRecheck      (* wait: if b.aborted() after <-done *)
| PCallback     (* if cb != nil { err = cb() } *)
| PResetLock    (* reset: b.Lock() *)
| PResetClose   (* reset: close(b.done) *)
| PResetMake    (* reset: b.done = make(chan bool) *)
| PResetCount   (* reset: b.count = b.n *)
| PResetUnlock  (* reset: b.Unlock(); return err *)
| PReturn (e : goerror)   (* Await has returned e *)
| PAbort        (* Abort: close(b.abort) *)
| PAbortReturn  (* Abort has returned *)
| PPanic.       (* the goroutine panicked *)

(** A goroutine: its program point and the locals of [Await]. *)
Record Goroutine := mkGoroutine {
  at_pc : pc;
  cb : Callback;
  loc_count : Z;
  loc_done : chan;
  err : goerror
}.

Record State := mkState {
  bar : Barrier;
  chans : heap;
  gs : list Goroutine;
  calls : list nat   (* goroutines that ran their callback, latest first *)
}.

(** The ready case a [select] takes when both are ready. *)
Inductive case := CaseDone | CaseAbort.

Inductive event :=
| GoAwait (f : Callback)      (* go b.Await(f) *)
| GoAbort                     (* go b.Abort() *)
| Run (g : nat) (c : case).   (* goroutine g does its next action *)

Global Instance error_eq_dec : EqDecision error.
Proof. solve_decision. Defined.
Global Instance pc_eq_dec : EqDecision pc.
Proof. solve_decision. Defined.

(** ** Operations *)

(** [func New(n int) *Barrier] *)
Definition New (k : Z) : State :=
  {| bar := {| mu := false; n := wrap64 k; count := wrap64 k;
               done := 0%nat; abort := 1%nat |};
     chans := [false; false];
     gs := [];
     calls := [] |}.

(** [func (b *Barrier) aborted() bool] *)
Definition aborted (s : State) : bool := closed (chans s) (abort (bar s)).

Definition goto (p : pc) (th : Goroutine) : Goroutine :=
  {| at_pc := p; cb := cb th; loc_count := loc_count th;
     loc_done := loc_done th; err := err th |}.

Definition set_g (g : nat) (th : Goroutine) (s : State) : State :=
  {| bar := bar s; chans := chans s; gs := <[g := th]> (gs s);
     calls := calls s |}.

Definition set_bar (b : Barrier) (s : State) : State :=
  {| bar := b; chans := chans s; gs := gs s; calls := calls s |}.

Definition set_chans (h : heap) (s : State) : State :=
  {| bar := bar s; chans := h; gs := gs s; calls := calls s |}.

Definition set_mu (m : bool) (b : Barrier) : Barrier :=
  {| mu := m; n := n b; count := count b; done := done b; abort := abort b |}.

Definition set_count (c : Z) (b : Barrier) : Barrier :=
  {| mu := mu b; n := n b; count := c; done := done b; abort := abort b |}.

Definition set_done (d : chan) (b : Barrier) : Barrier :=
  {| mu := mu b; n := n b; count := count b; done := d; abort := abort b |}.

(** [func (b *Barrier) Abort()]: [close(b.abort)], by goroutine [g] which
    goes on at [p] afterwards. *)
Definition Abort (g : nat) (th : Goroutine) (p : pc) (s : State) : State :=
  match close (chans s) (abort (bar s)) with
  | Some h => set_g g (goto p th) (set_chans h s)
  | None => set_g g (goto PPanic th) s
  end.

(** [func (b *Barrier) wait(done chan bool) error] *)
Definition wait (g : nat) (c : case) (th : Goroutine) (s : State)
  : option State :=
  match at_pc th with
  | PWait =>
      let aborting := set_g g (goto (PReturn (Some ErrBarrierAborted)) th) s in
      let rechecking := set_g g (goto PRecheck th) s in
      match closed (chans s) (loc_done th), aborted s with
      | false, false => None
      | true, false => Some rechecking
      | false, true => Some aborting
      | true, true =>
          match c with
          | CaseDone => Some rechecking
          | CaseAbort => Some aborting
          end
      end
  | PRecheck =>
      if aborted s
      then Some (set_g g (goto (PReturn (Some ErrBarrierAborted)) th) s)
      else Some (set_g g (goto (PReturn None) th) s)
  | _ => None
  end.

(** [func (b *Barrier) reset()] *)
Definition reset (g : nat) (th : Goroutine) (s : State) : option State :=
  match at_pc th with
  | PResetLock =>
      if mu (bar s) then None
      else Some (set_g g (goto PResetClose th) (set_bar (set_mu true (bar s)) s))
  | PResetClose =>
      match close (chans s) (done (bar s)) with
      | Some h => Some (set_g g (goto PResetMake th) (set_chans h s))
      | None => Some (set_g g (goto PPanic th) s)
      end
  | PResetMake =>
      let (d, h) := make (chans s) in
      Some (set_g g (goto PResetCount th)
              (set_bar (set_done d (bar s)) (set_chans h s)))
  | PResetCount =>
      Some (set_g g (goto PResetUnlock th)
              (set_bar (set_count (n (bar s)) (bar s)) s))
  | PResetUnlock =>
      if mu (bar s)
      then Some (set_g g (goto (PReturn (err th)) th)
                   (set_bar (set_mu false (bar s)) s))
      else Some (set_g g (goto PPanic th) s)
  | _ => None
  end.

(** [func (b *Barrier) Await(cb Callback) error] *)
Definition Await (g : nat) (c : case) (th : Goroutine) (s : State)
  : option State :=
  match at_pc th with
  | PAwait =>
      if aborted s
      then Some (set_g g (goto (PReturn (Some ErrBarrierAborted)) th) s)
      else Some (set_g g (goto PLock th) s)
  | PLock =>
      if mu (bar s) then None
      else Some (set_g g (goto PDec th) (set_bar (set_mu true (bar s)) s))
  | PDec =>
      Some (set_g g (goto PCopy th)
              (set_bar (set_count (wrap64 (count (bar s) - 1)) (bar s)) s))
  | PCopy =>
      Some (set_g g {| at_pc := PUnlock; cb := cb th;
                       loc_count := count (bar s);
                       loc_done := done (bar s); err := err th |} s)
  | PUnlock =>
      if mu (bar s)
      then Some (set_g g (goto PDispatch th) (set_bar (set_mu false (bar s)) s))
      else Some (set_g g (goto PPanic th) s)
  | PDispatch =>
      if loc_count th <? 0 then Some (set_g g (goto PMisuse th) s)
      else if 0 <? loc_count th then Some (set_g g (goto PWait th) s)
      else Some (set_g g (goto PCallback th) s)
  | PMisuse => Some (Abort g th (PReturn (Some ErrBarrierMisused)) s)
  | PWait | PRecheck => wait g c th s
  | PCallback =>
      match cb th with
      | None => Some (set_g g (goto PResetLock th) s)
      | Some r =>
          Some {| bar := bar s; chans := chans s;
                  gs := <[g := {| at_pc := PResetLock; cb := cb th;
                                  loc_count := loc_count th;
                                  loc_done := loc_done th; err := r |}]> (gs s);
                  calls := g :: calls s |}
      end
  | PResetLock | PResetClose | PResetMake | PResetCount | PResetUnlock =>
      reset g th s
  | PAbort => Some (Abort g th PAbortReturn s)
  | PReturn _ | PAbortReturn | PPanic => None
  end.

Definition spawn (p : pc) (f : Callback) (s : State) : State :=
  {| bar := bar s; chans := chans s;
     gs := gs s ++ [ {| at_pc := p; cb := f; loc_count := 0;
                        loc_done := 0%nat; err := None |} ];
     calls := calls s |}.

(** One event; [None] when the goroutine is blocked, finished or absent. *)
Definition step (ev : event) (s : State) : option State :=
  match ev with
  | GoAwait f => Some (spawn PAwait f s)
  | GoAbort => Some (spawn PAbort None s)
  | Run g c =>
      match gs s !! g with
      | Some th => Await g c th s
      | None => None
      end
  end.

Fixpoint exec (evs : list event) (s : State) : option State :=
  match evs with
  | [] => Some s
  | ev :: evs' =>
      match step ev s with
      | Some s' => exec evs' s'
      | None => None
      end
  end.

(** The states of a barrier made by [New(k)]. *)
Definition reachable (k : Z) (s : State) : Prop :=
  ∃ evs, exec evs (New k) = Some s.

(** Program point of goroutine [g]. *)
Definition pc_of (s : State) (g : nat) : option pc := at_pc <$> gs s !! g.

(** [g] alone for [k] actions. *)
Definition solo (g : nat) (k : nat) : list event := replicate k (Run g CaseDone).

(** ** Invariants and measures *)

(** Program points between [b.Lock()] and [b.Unlock()]. *)
Definition in_cs (p : pc) : bool :=
  match p with
  | PDec | PCopy | PUnlock
  | PResetClose | PResetMake | PResetCount | PResetUnlock => true
  | _ => false
  end.

(** Program points of [Await] up to the callback, and those of [Abort]. *)
Definition before_cb (p : pc) : bool :=
  match p with
  | PAwait | PLock | PDec | PCopy | PUnlock | PDispatch | PMisuse
  | PWait | PRecheck | PCallback | PAbort | PAbortReturn => true
  | _ => false
  end.

(** How often goroutine [g] ran its callback. *)
Definition runs (s : State) (g : nat) : nat := count_occ Nat.eq_dec (calls s) g.

(** The local copy of the counter decides where [Await] goes. *)
Definition branch_ok (th : Goroutine) : Prop :=
  match at_pc th with
  | PMisuse => loc_count th < 0
  | PWait | PRecheck => 0 < loc_count th
  | PCallback | PResetLock | PResetClose | PResetMake | PResetCount
  | PResetUnlock => loc_count th = 0
  | _ => True
  end.

(** A returned waiter got [nil], or [ErrBarrierAborted] after an abort. *)
Definition ret_ok (s : State) (th : Goroutine) : Prop :=
  ∀ e, at_pc th = PReturn e → 0 < loc_count th →
       e = None ∨ (e = Some ErrBarrierAborted ∧ aborted s = true).

Record wf (s : State) : Prop := {
  wf_abort : abort (bar s) = 1%nat;
  wf_done : done (bar s) ≠ 1%nat ∧ (done (bar s) < length (chans s))%nat;
  wf_heap : (2 ≤ length (chans s))%nat;
  (* the mutex: held exactly while one goroutine is between Lock and Unlock *)
  wf_locked : ∀ g th,
    gs s !! g = Some th → in_cs (at_pc th) = true → mu (bar s) = true;
  wf_mutex : ∀ g1 g2 th1 th2,
    gs s !! g1 = Some th1 → gs s !! g2 = Some th2 →
    in_cs (at_pc th1) = true → in_cs (at_pc th2) = true → g1 = g2;
  wf_holder : mu (bar s) = true →
    ∃ g th, gs s !! g = Some th ∧ in_cs (at_pc th) = true;
  (* b.done is open, except inside reset between close and make *)
  wf_open : closed (chans s) (done (bar s)) = true →
    ∃ g th, gs s !! g = Some th ∧ at_pc th = PResetMake;
  (* before its callback a goroutine has err == nil and ran no callback *)
  wf_err : ∀ g th,
    gs s !! g = Some th → before_cb (at_pc th) = true →
    err th = None ∧ runs s g = 0%nat;
  wf_calls : ∀ g, (length (gs s) ≤ g)%nat → runs s g = 0%nat;
  wf_branch : ∀ g th, gs s !! g = Some th → branch_ok th;
  wf_ret : ∀ g th, gs s !! g = Some th → ret_ok s th
}.

(** The program points at which goroutine [g] acted during [evs]. *)
Fixpoint trace (g : nat) (evs : list event) (s : State) : list pc :=
  match evs with
  | [] => []
  | ev :: evs' =>
      match step ev s with
      | Some s' =>
          match ev, pc_of s g with
          | Run g' _, Some p =>
              if decide (g' = g) then p :: trace g evs' s'
              else trace g evs' s'
          | _, _ => trace g evs' s'
          end
      | None => []
      end
  end.

(** What is left to do for the last arriver at each program point. *)
Definition last_rest (p : pc) : list pc :=
  match p with
  | PCopy => [PCopy; PUnlock; PDispatch; PCallback; PResetLock; PResetClose;
              PResetMake; PResetCount; PResetUnlock]
  | PUnlock => [PUnlock; PDispatch; PCallback; PResetLock; PResetClose;
                PResetMake; PResetCount; PResetUnlock]
  | PDispatch => [PDispatch; PCallback; PResetLock; PResetClose;
                  PResetMake; PResetCount; PResetUnlock]
  | PCallback => [PCallback; PResetLock; PResetClose;
                  PResetMake; PResetCount; PResetUnlock]
  | PResetLock => [PResetLock; PResetClose; PResetMake; PResetCount;
                   PResetUnlock]
  | PResetClose => [PResetClose; PResetMake; PResetCount; PResetUnlock]
  | PResetMake => [PResetMake; PResetCount; PResetUnlock]
  | PResetCount => [PResetCount; PResetUnlock]
  | PResetUnlock => [PResetUnlock]
  | _ => []
  end.

(** The result and the number of callback runs [Await(f)] ends with when it
    is the last arriver. *)
Definition cb_result (f : Callback) : goerror := default None f.
Definition cb_runs (f : Callback) : nat :=
  match f with Some _ => 1%nat | None => 0%nat end.

Definition last_inv (f : Callback) (g : nat) (s : State) (th : Goroutine)
  : Prop :=
  cb th = f ∧
  match at_pc th with
  | PCopy => count (bar s) = 0
  | PUnlock | PDispatch => loc_count th = 0
  | PCallback => True
  | PResetLock | PResetClose | PResetMake | PResetCount | PResetUnlock =>
      err th = cb_result f ∧ runs s g = cb_runs f
  | PReturn e => e = cb_result f ∧ runs s g = cb_runs f
  | _ => False
  end.

Definition cs_left (p : pc) : nat :=
  match p with
  | PResetClose => 4
  | PDec | PResetMake => 3
  | PCopy | PResetCount => 2
  | PUnlock | PResetUnlock => 1
  | _ => 0
  end.

(** Where a goroutine is whose decrement left the counter positive, with
    [d] the round signal it captured. *)
Definition wait_inv (d : chan) (s : State) (th : Goroutine) : Prop :=
  match at_pc th with
  | PCopy => 0 < count (bar s) ∧ done (bar s) = d
  | PUnlock | PDispatch | PWait => 0 < loc_count th ∧ loc_done th = d
  | PRecheck => 0 < loc_count th ∧ loc_done th = d ∧ closed (chans s) d = true
  | PReturn e =>
      0 < loc_count th ∧ loc_done th = d ∧
      ((e = None ∧ closed (chans s) d = true) ∨
       (e = Some ErrBarrierAborted ∧ aborted s = true))
  | _ => False
  end.

(** After an abort, a waiter that returns gets [ErrBarrierAborted]. *)
Definition doomed (s : State) (th : Goroutine) : Prop :=
  aborted s = true ∧
  ∀ e, at_pc th = PReturn e → 0 < loc_count th → e = Some ErrBarrierAborted.

(** Where the goroutine inside reset is, for a reset that began with round
    signal [d] and [len] channels on the heap. *)
Definition reset_inv (d : chan) (len : nat) (s : State) (th : Goroutine)
  : Prop :=
  match at_pc th with
  | PResetClose =>
      done (bar s) = d ∧ length (chans s) = len ∧ closed (chans s) d = false
  | PResetMake =>
      done (bar s) = d ∧ length (chans s) = len ∧ closed (chans s) d = true
  | PResetCount =>
      done (bar s) = len ∧ length (chans s) = S len ∧
      closed (chans s) d = true ∧ closed (chans s) len = false
  | PResetUnlock =>
      done (bar s) = len ∧ length (chans s) = S len ∧
      closed (chans s) d = true ∧ closed (chans s) len = false ∧
      count (bar s) = n (bar s)
  | PReturn e => closed (chans s) d = true ∧ e = err th
  | _ => False
  end.

(** Goroutines that may have decremented the counter. *)
Definition arrived (p : pc) : Z :=
  match p with
  | PAwait | PLock | PDec | PAbort => 0
  | _ => 1
  end.

Definition total (l : list Goroutine) : Z :=
  foldr (λ th acc, arrived (at_pc th) + acc) 0 l.

(** With at most [2^63] calls in all, the counter of a barrier of
    non-negative party size never wraps around and never exceeds [b.n]. *)
Definition count_le (s : State) : Prop :=
  Z.of_nat (length (gs s)) ≤ 2 ^ 63 →
  n (bar s) - total (gs s) ≤ count (bar s) ≤ n (bar s).

(** A call of [Await] that arrived when the party was complete: it has
    decremented the counter and has not yet called [Abort]. *)
Definition over_arriving (th : Goroutine) : Prop :=
  at_pc th = PCopy ∨
  (loc_count th < 0 ∧
   (at_pc th = PUnlock ∨ at_pc th = PDispatch ∨ at_pc th = PMisuse)).

Definition count_ge (s : State) : Prop :=
  aborted s = true ∨ 0 ≤ count (bar s) ∨
  ∃ g th, gs s !! g = Some th ∧ over_arriving th.

(** Where a goroutine can be while every decrement has given a negative
    value. *)
Definition stuck_ok (s : State) (th : Goroutine) : Prop :=
  match at_pc th with
  | PCopy => count (bar s) < 0
  | PUnlock | PDispatch => loc_count th < 0
  | PWait | PRecheck | PCallback | PResetLock | PResetClose | PResetMake
  | PResetCount | PResetUnlock => False
  | PReturn e => e ≠ None
  | _ => True
  end.

(** No round was completed: no call got further than the misuse path, no
    callback ran, and [b.done] is still the unopened first round signal. *)
Definition no_round (s : State) : Prop :=
  (∀ g th, gs s !! g = Some th → stuck_ok s th) ∧
  calls s = [] ∧ done (bar s) = 0%nat ∧ closed (chans s) 0 = false.

Definition never_round (s : State) : Prop :=
  Z.of_nat (length (gs s)) ≤ n (bar s) + 2 ^ 63 →
  n (bar s) - total (gs s) ≤ count (bar s) ≤ n (bar s) ∧ no_round s.

(** ** The claims that fail, as they are stated *)

(** C8 as it is stated: two waiters of one round (they hold the same round
    signal) that have returned, returned the same. *)
Definition consistent_verdict (s : State) : Prop :=
  ∀ g1 g2 th1 th2 e1 e2,
    gs s !! g1 = Some th1 → gs s !! g2 = Some th2 →
    0 < loc_count th1 → 0 < loc_count th2 →
    loc_done th1 = loc_done th2 →
    at_pc th1 = PReturn e1 → at_pc th2 = PReturn e2 →
    e1 = e2.

(** C7 as it is stated. *)
Definition count_in_range (s : State) : Prop :=
  aborted s = false → 0 ≤ count (bar s) ≤ n (bar s).

(** C10 as it is stated, for the first call run alone: it ends with
    [ErrBarrierMisused] and the barrier aborted. *)
Definition first_await_misused (k : Z) : Prop :=
  ∃ s, exec (GoAwait None :: solo 0 7) (New k) = Some s ∧
       pc_of s 0 = Some (PReturn (Some ErrBarrierMisused)) ∧
       aborted s = true.

(** ** Example runs *)

Definition last_arriver_trace : list event :=
  [GoAwait (Some (Some (ErrCallback "some error")));
   Run 0 CaseDone; Run 0 CaseDone; Run 0 CaseDone].

Definition last_arriver_state : State :=
  default (New 1) (exec last_arriver_trace (New 1)).

Definition last_arriver_goroutine : Goroutine :=
  {| at_pc := PCopy; cb := Some (Some (ErrCallback "some error"));
     loc_count := 0; loc_done := 0%nat; err := None |}.

Definition after_abort_state : State :=
  default (New 2) (exec [GoAbort; Run 0 CaseDone] (New 2)).

Definition waiter_state : State :=
  default (New 2) (exec (GoAwait None :: solo 0 3) (New 2)).

(** Three parties and an abort: goroutines 0 and 1 wait, goroutine 2
    completes the round, goroutine 0 wakes up and returns, then the barrier
    is aborted, then goroutine 1 wakes up. *)
Definition split_schedule : list event :=
  [GoAwait None; GoAwait None; GoAwait None; GoAbort]
  ++ solo 0 6 ++ solo 1 6 ++ solo 2 12 ++ solo 0 2 ++ solo 3 1 ++ solo 1 2.

Definition round_schedule : list event :=
  [GoAwait None; GoAwait None; GoAwait None]
  ++ solo 0 6 ++ solo 1 6 ++ solo 2 12 ++ solo 0 2 ++ solo 1 2.

Definition round_state : State :=
  default (New 3) (exec round_schedule (New 3)).

(** Two parties too many: of three concurrent calls on a barrier of one
    party, goroutine 0 is the last arriver, goroutines 1 and 2 both find the
    counter negative. *)
Definition misuse_schedule : list event :=
  [GoAwait None; GoAwait None; GoAwait None]
  ++ [Run 0 CaseDone; Run 1 CaseDone; Run 2 CaseDone]  (* b.aborted() *)
  ++ solo 0 4 ++ solo 1 4 ++ solo 2 4                   (* decrements *)
  ++ solo 1 2 ++ solo 2 2.                              (* misuse paths *)

Definition reset_state : State :=
  default (New 1) (exec (GoAwait None :: solo 0 7) (New 1)).

Definition reset_locked_state : State :=
  default (New 1) (exec (GoAwait None :: solo 0 8) (New 1)).

(** Two concurrent calls on a barrier of one party, up to the decrement of
    the second. *)
Definition over_schedule : list event :=
  [GoAwait None; GoAwait None; Run 0 CaseDone; Run 1 CaseDone]
  ++ solo 0 4 ++ solo 1 2.

Definition over_state : State :=
  default (New 1) (exec over_schedule (New 1)).

(** ** Further invariants *)

(** What a call of [Await] has to show for its program point: no copy of
    the counter before the copy, the callback's result in [err] after the
    callback, and at the return one of the four ways out of [Await]. *)
Definition tax (s : State) (g : nat) (th : Goroutine) : Prop :=
  match at_pc th with
  | PAwait | PLock | PDec | PCopy => loc_count th = 0
  | PResetLock | PResetClose | PResetMake | PResetCount | PResetUnlock =>
      err th = cb_result (cb th) ∧ runs s g = cb_runs (cb th)
  | PReturn e =>
      (loc_count th < 0 ∧ e = Some ErrBarrierMisused ∧
       aborted s = true ∧ runs s g = 0%nat) ∨
      (0 < loc_count th ∧
       (e = None ∨ (e = Some ErrBarrierAborted ∧ aborted s = true)) ∧
       runs s g = 0%nat) ∨
      (loc_count th = 0 ∧
       ((e = Some ErrBarrierAborted ∧ aborted s = true ∧ runs s g = 0%nat) ∨
        (e = cb_result (cb th) ∧ runs s g = cb_runs (cb th))))
  | PPanic => runs s g = 0%nat
  | _ => True
  end.

(** The round signal a goroutine holds after its copy is the current one or
    an opened one; inside reset, between close and make, the current one is
    opened. *)
Definition sig_ok (s : State) (th : Goroutine) : Prop :=
  match at_pc th with
  | PUnlock | PDispatch | PWait | PRecheck =>
      loc_done th = done (bar s) ∨ closed (chans s) (loc_done th) = true
  | PResetMake => closed (chans s) (done (bar s)) = true
  | _ => True
  end.

(** A barrier of one party after one call with a callback. *)
Definition called_state : State :=
  default (New 1)
    (exec (GoAwait (Some (Some (ErrCallback "some error"))) :: solo 0 12)
       (New 1)).

(** A barrier of two parties with the first of them waiting. *)
Definition waiter_wait_state : State :=
  default (New 2) (exec (GoAwait None :: solo 0 6) (New 2)).

(** After an abort a call that is in [wait] is at the [select], at the
    re-check, or has returned [ErrBarrierAborted]. *)
Definition released (s : State) (th : Goroutine) : Prop :=
  aborted s = true ∧
  match at_pc th with
  | PWait | PRecheck => True
  | PReturn e => e = Some ErrBarrierAborted
  | _ => False
  end.
(** A barrier of two parties: one call waits, one call of [Abort] is about
    to close the abort channel. *)
Definition abort_pending_state : State :=
  default (New 2) (exec ([GoAwait None] ++ solo 0 6 ++ [GoAbort]) (New 2)).

(** ** The barrier used as its package comment asks *)

(** The sum of a weight over the goroutines. *)
Definition sumw (w : Goroutine → Z) (l : list Goroutine) : Z :=
  foldr (λ th acc, w th + acc) 0 l.

(** Calls that have not returned. *)
Definition in_flight (th : Goroutine) : Z :=
  match at_pc th with
  | PReturn _ | PAbortReturn => 0
  | _ => 1
  end.

Definition flying (s : State) : Z := sumw in_flight (gs s).

(** The use the tests make of the barrier: [Abort] is not called, and no
    call of [Await] is started while [b.n] calls have not returned. *)
Definition allowed (s : State) (ev : event) : bool :=
  match ev with
  | GoAbort => false
  | GoAwait _ => flying s <? n (bar s)
  | Run _ _ => true
  end.

Fixpoint proper (evs : list event) (s : State) : bool :=
  match evs with
  | [] => true
  | ev :: evs' =>
      allowed s ev &&
      match step ev s with
      | Some s' => proper evs' s'
      | None => false
      end
  end.

(** Calls that have decremented the counter in the round of signal [d]. *)
Definition cur (d : chan) (th : Goroutine) : Z :=
  match at_pc th with
  | PCopy | PCallback | PResetLock | PResetClose => 1
  | PUnlock | PDispatch | PWait | PRecheck =>
      if decide (loc_done th = d) then 1 else 0
  | _ => 0
  end.

Definition arrivals (s : State) : Z := sumw (cur (done (bar s))) (gs s).

(** Inside reset after [close(b.done)]. *)
Definition resetting (p : pc) : bool :=
  match p with
  | PResetMake | PResetCount | PResetUnlock => true
  | _ => false
  end.

Definition good (s : State) (th : Goroutine) : Prop :=
  match at_pc th with
  | PUnlock | PDispatch => 0 ≤ loc_count th
  | PRecheck => closed (chans s) (loc_done th) = true
  | PResetUnlock => count (bar s) = n (bar s)
  | PMisuse | PAbort | PAbortReturn | PPanic => False
  | _ => True
  end.

Record proper_inv (s : State) : Prop := {
  pi_open : aborted s = false;
  pi_flying : flying s ≤ n (bar s);
  pi_count : 0 ≤ count (bar s) ≤ n (bar s);
  pi_arrivals :
    (∀ g th, gs s !! g = Some th → resetting (at_pc th) = false) →
    n (bar s) - arrivals s ≤ count (bar s);
  pi_good : ∀ g th, gs s !! g = Some th → good s th
}.

(** The call that found the counter at zero, from its copy to the moment
    it has set the counter again ([zero0]) or has unlocked ([zero1]). *)
Definition zero0 (th : Goroutine) : bool :=
  match at_pc th with
  | PUnlock | PDispatch => loc_count th =? 0
  | PCallback | PResetLock | PResetClose | PResetMake | PResetCount => true
  | _ => false
  end.

Definition zero1 (th : Goroutine) : bool :=
  zero0 th || bool_decide (at_pc th = PResetUnlock).

Record iso_inv (s : State) : Prop := {
  iso_count : ∀ g th,
    gs s !! g = Some th → zero0 th = true → count (bar s) = 0;
  iso_unique : ∀ g1 g2 th1 th2,
    gs s !! g1 = Some th1 → gs s !! g2 = Some th2 →
    zero1 th1 = true → zero1 th2 = true → g1 = g2;
  iso_copy : ∀ g1 g2 th1 th2,
    gs s !! g1 = Some th1 → gs s !! g2 = Some th2 →
    zero1 th1 = true → at_pc th2 ≠ PCopy
}.
(** A barrier of two parties: one call waits, the other is at its
    callback. *)
Definition isolated_schedule : list event :=
  [GoAwait None; GoAwait (Some None)] ++ solo 0 6 ++ solo 1 6.

Definition isolated_state : State :=
  default (New 2) (exec isolated_schedule (New 2)).

(** ** Rounds *)

(** The schedule of one round of [length fs + 1] calls, the first by
    goroutine [g]: the calls with the callbacks [fs] arrive one after the
    other and wait, the call with callback [f] arrives last, runs it and
    resets the barrier, then the waiters wake up in turn. *)
Fixpoint arrive_all (g : nat) (fs : list Callback) : list event :=
  match fs with
  | [] => []
  | f :: fs' => (GoAwait f :: solo g 6) ++ arrive_all (S g) fs'
  end.

Fixpoint wake_all (g : nat) (m : nat) : list event :=
  match m with
  | O => []
  | S m' => solo g 2 ++ wake_all (S g) m'
  end.

Definition round (g : nat) (fs : list Callback) (f : Callback) : list event :=
  arrive_all g fs ++ (GoAwait f :: solo (g + length fs) 12)
  ++ wake_all g (length fs).

(** The calls with callbacks [fs] that came to a counter of [c] and round
    signal [d], each at program point [p]. *)
Fixpoint waiters (p : pc) (c : Z) (d : chan) (fs : list Callback)
  : list Goroutine :=
  match fs with
  | [] => []
  | f :: fs' =>
      {| at_pc := p; cb := f; loc_count := c - 1; loc_done := d; err := None |}
      :: waiters p (c - 1) d fs'
  end.

(** The barrier between two rounds. *)
Definition quiet (s : State) : Prop :=
  mu (bar s) = false ∧ aborted s = false ∧ count (bar s) = n (bar s) ∧
  closed (chans s) (done (bar s)) = false ∧
  (done (bar s) < length (chans s))%nat ∧
  (abort (bar s) < length (chans s))%nat ∧
  done (bar s) ≠ abort (bar s).
(** [m] rounds of [w + 1] calls of [Await(f)] each, the first call by
    goroutine [g]. *)
Fixpoint rounds (w : nat) (f : Callback) (m : nat) (g : nat) : list event :=
  match m with
  | O => []
  | S m' => round g (replicate w f) f ++ rounds w f m' (g + S w)
  end.

(** The call has returned [nil] or the result of callback [f]. *)
Definition returned (f : Callback) (th : Goroutine) : Prop :=
  at_pc th = PReturn None ∨ at_pc th = PReturn (cb_result f).

(** ** One call too many *)

(** [Abort] is not called from outside: the only calls are calls of
    [Await]. *)
Definition await_only (ev : event) : bool :=
  match ev with
  | GoAbort => false
  | _ => true
  end.

(** Program points of a call of [Await] that has not panicked. *)
Definition calling (p : pc) : bool :=
  match p with
  | PAbort | PAbortReturn | PPanic => false
  | _ => true
  end.

(** Program points after the copy of the counter. *)
Definition past_copy (p : pc) : bool :=
  match p with
  | PAwait | PLock | PDec | PCopy | PAbort => false
  | _ => true
  end.

(** With at most [b.n + 1] calls of [Await] and no other call of [Abort]:
    a call that found the counter negative found -1, every call had arrived
    by then, it is the only such call, and only this call sets the abort
    signal. *)
Record over_inv (s : State) : Prop := {
  ov_pc : ∀ g th, gs s !! g = Some th → calling (at_pc th) = true;
  ov_count : n (bar s) - total (gs s) ≤ count (bar s) ≤ n (bar s);
  ov_low : ∀ g th, gs s !! g = Some th → -1 ≤ loc_count th;
  ov_neg : ∀ g th, gs s !! g = Some th → loc_count th < 0 →
    Z.of_nat (length (gs s)) = n (bar s) + 1 ∧
    ∀ g' th', gs s !! g' = Some th' → past_copy (at_pc th') = true;
  ov_one : ∀ g1 g2 th1 th2,
    gs s !! g1 = Some th1 → gs s !! g2 = Some th2 →
    loc_count th1 < 0 → loc_count th2 < 0 → g1 = g2;
  ov_abort : aborted s = true →
    ∃ g th, gs s !! g = Some th ∧ loc_count th < 0 ∧
            at_pc th = PReturn (Some ErrBarrierMisused)
}.

(** [TestBarrier_toomany] with one party: goroutine 0 is in its callback when
    goroutine 1 calls [Await] and returns; then the callback returns. *)
Definition toomany_schedule : list event :=
  (GoAwait (Some (Some (ErrCallback "some error"))) :: solo 0 6)
  ++ (GoAwait None :: solo 1 7) ++ solo 0 6.

Definition toomany_state : State :=
  default (New 1) (exec toomany_schedule (New 1)).

(** ** The ways through [Await] *)

(** What reset does for the call whose decrement left zero when [b.done]
    was [d] and the heap had [len] channels: [b.done] is [d] until a reset
    replaces it, and then [d] is opened and [b.done] is a channel made
    since; after its own reset this has happened, the new signal is
    unopened and the counter is [b.n] again. *)
Definition renewed (d : chan) (len : nat) (s : State) (th : Goroutine)
  : Prop :=
  (d ≤ done (bar s))%nat ∧ (len ≤ length (chans s))%nat ∧
  ((d < done (bar s))%nat →
   closed (chans s) d = true ∧ (len ≤ done (bar s))%nat) ∧
  match at_pc th with
  | PCopy | PUnlock | PDispatch | PCallback | PResetLock | PResetClose => True
  | PResetMake => closed (chans s) d = true
  | PResetCount =>
      (d < done (bar s))%nat ∧ closed (chans s) (done (bar s)) = false
  | PResetUnlock =>
      (d < done (bar s))%nat ∧ closed (chans s) (done (bar s)) = false ∧
      count (bar s) = n (bar s)
  | PReturn _ => (d < done (bar s))%nat
  | _ => False
  end.

(** The actions of a call of [Await] up to its dispatch on the counter. *)
Definition arriving : list pc :=
  [PAwait; PLock; PDec; PCopy; PUnlock; PDispatch].

(** The action of goroutine [g] in event [ev], if it is one of its own. *)
Definition own (g : nat) (ev : event) (s : State) : list pc :=
  match ev, pc_of s g with
  | Run g' _, Some p => if decide (g' = g) then [p] else []
  | _, _ => []
  end.

(** The actions [tr] a call has made when it is at its program point, and
    for a call that has returned what it returned on each of the ways
    through [Await]: from the entry check; by the misuse path; from the
    [select] by the abort signal; from the re-check after the round signal;
    from reset, after the callback. *)
Definition way (s : State) (g : nat) (tr : list pc) (th : Goroutine) : Prop :=
  match at_pc th with
  | PAwait | PAbort => tr = []
  | PLock => tr = [PAwait]
  | PDec => tr = [PAwait; PLock]
  | PCopy => tr = [PAwait; PLock; PDec]
  | PUnlock => tr = [PAwait; PLock; PDec; PCopy]
  | PDispatch => tr = [PAwait; PLock; PDec; PCopy; PUnlock]
  | PMisuse | PWait | PCallback => tr = arriving
  | PRecheck =>
      tr = arriving ++ [PWait] ∧ closed (chans s) (loc_done th) = true
  | PResetLock => tr = arriving ++ [PCallback]
  | PResetClose => tr = arriving ++ [PCallback; PResetLock]
  | PResetMake => tr = arriving ++ [PCallback; PResetLock; PResetClose]
  | PResetCount =>
      tr = arriving ++ [PCallback; PResetLock; PResetClose; PResetMake]
  | PResetUnlock =>
      tr = arriving ++ [PCallback; PResetLock; PResetClose; PResetMake;
                        PResetCount]
  | PReturn e =>
      (tr = [PAwait] ∧ e = Some ErrBarrierAborted ∧ aborted s = true ∧
       runs s g = 0%nat) ∨
      (tr = arriving ++ [PMisuse] ∧ loc_count th < 0 ∧
       e = Some ErrBarrierMisused ∧ aborted s = true ∧ runs s g = 0%nat) ∨
      (tr = arriving ++ [PWait] ∧ 0 < loc_count th ∧
       e = Some ErrBarrierAborted ∧ aborted s = true ∧ runs s g = 0%nat) ∨
      (tr = arriving ++ [PWait; PRecheck] ∧ 0 < loc_count th ∧
       closed (chans s) (loc_done th) = true ∧
       (e = None ∨ (e = Some ErrBarrierAborted ∧ aborted s = true)) ∧
       runs s g = 0%nat) ∨
      (tr = arriving ++ [PCallback; PResetLock; PResetClose; PResetMake;
                         PResetCount; PResetUnlock] ∧
       loc_count th = 0 ∧ e = cb_result (cb th) ∧
       runs s g = cb_runs (cb th))
  | PAbortReturn => tr = [PAbort]
  | PPanic => True
  end.

(** Only goroutine [g] acts: other calls may be started, none of them takes
    a step. *)
Definition only (g : nat) (ev : event) : bool :=
  match ev with
  | Run g' _ => bool_decide (g' = g)
  | _ => true
  end.

(** The first call on a barrier of party size [k ≤ 0] while no other call
    acts. *)
Definition first_inv (k : Z) (s : State) (th : Goroutine) : Prop :=
  match at_pc th with
  | PAwait | PLock =>
      aborted s = false ∧ mu (bar s) = false ∧ count (bar s) = k
  | PDec => aborted s = false ∧ count (bar s) = k
  | PCopy => aborted s = false ∧ count (bar s) = k - 1
  | PUnlock | PDispatch | PMisuse => aborted s = false ∧ loc_count th = k - 1
  | PReturn e =>
      e = Some ErrBarrierMisused ∧ loc_count th = k - 1 ∧ aborted s = true
  | _ => False
  end.

(** Two concurrent calls on a barrier of party size 0: both pass the entry
    check, goroutine 0 decrements first, goroutine 1 decrements and goes
    through the misuse path, then goroutine 0 does. *)
Definition overtaken_schedule : list event :=
  [GoAwait None; GoAwait None; Run 0 CaseDone; Run 1 CaseDone]
  ++ solo 0 4 ++ solo 1 6 ++ solo 0 2.

(** ** Missing parties *)

(** The calls of the round with signal [d]: they have decremented the
    counter and hold [d], or are about to copy it. *)
Definition member (d : chan) (th : Goroutine) : Z :=
  match at_pc th with
  | PCopy => 1
  | PUnlock | PDispatch | PWait | PRecheck | PCallback | PResetLock
  | PResetClose =>
      if decide (loc_done th = d) then 1 else 0
  | _ => 0
  end.

Definition members (s : State) : Z := sumw (member (done (bar s))) (gs s).

(** Inside reset while [b.done] or [b.count] is that of the round before. *)
Definition renewing (p : pc) : bool :=
  match p with
  | PResetMake | PResetCount => true
  | _ => false
  end.

(** In a proper use the counter is the number of parties the round still
    misses. *)
Record round_inv (s : State) : Prop := {
  ri_heap : ∀ g th, gs s !! g = Some th → (loc_done th < length (chans s))%nat;
  ri_count :
    (∀ g th, gs s !! g = Some th → renewing (at_pc th) = false) →
    count (bar s) + members s = n (bar s);
  ri_fresh : ∀ g th, gs s !! g = Some th → at_pc th = PResetCount →
    ∀ g' th', gs s !! g' = Some th' → member (done (bar s)) th' = 0;
  ri_zero : count (bar s) = 0 → 0 < n (bar s) →
    ∃ g th, gs s !! g = Some th ∧ (at_pc th = PCopy ∨ zero0 th = true)
}.

(** ** Basic facts about the semantics *)

Lemma wrap64_small z : MinInt64 ≤ z ≤ MaxInt64 → wrap64 z = z.
Proof.
  unfold wrap64, MinInt64, MaxInt64. intros H.
  rewrite Z.mod_small by lia. lia.
Qed.

Lemma exec_app evs1 evs2 s :
  exec (evs1 ++ evs2) s = exec evs1 s ≫= exec evs2.
Proof.
  revert s. induction evs1 as [|ev evs1 IH]; intros s; simpl; [done|].
  destruct (step ev s); simpl; auto.
Qed.

(** A property kept by every event holds along every execution. *)
Lemma exec_preserves (P : State → Prop) :
  (∀ ev s s', P s → step ev s = Some s' → P s') →
  ∀ evs s s', P s → exec evs s = Some s' → P s'.
Proof.
  intros Hstep. induction evs as [|ev evs IH]; intros s s' HP He; simpl in He.
  - by simplify_eq.
  - destruct (step ev s) as [s1|] eqn:Hs; [|done]. eauto.
Qed.

Lemma reachable_New k : reachable k (New k).
Proof. by exists []. Qed.

Lemma reachable_exec k s evs s' :
  reachable k s → exec evs s = Some s' → reachable k s'.
Proof.
  intros [evs0 H0] He. exists (evs0 ++ evs). rewrite exec_app, H0. done.
Qed.

Lemma reachable_preserves (P : State → Prop) k :
  P (New k) →
  (∀ ev s s', P s → step ev s = Some s' → P s') →
  ∀ s, reachable k s → P s.
Proof. intros H0 Hs s [evs He]. eapply exec_preserves; eauto. Qed.

(** Case analysis of one step: the event, the program point of the
    goroutine, and every test the source makes there. *)
Ltac run_inv H s g :=
  let th := fresh "th" in
  let Hg := fresh "Hg" in
  let Hpc := fresh "Hpc" in
  destruct (gs s !! g) as [th|] eqn:Hg; [|discriminate H];
  unfold Await, wait, reset, Abort, make in H;
  destruct (at_pc th) eqn:Hpc;
  repeat case_match; simplify_eq.

Ltac step_inv H :=
  match type of H with
  | step (Run ?g ?c) ?s = Some ?s' => unfold step in H; run_inv H s g
  | step ?ev ?s = Some ?s' =>
      unfold step in H;
      destruct ev as [?f| |?g ?c];
      [ injection H as <- | injection H as <-
      | lazymatch type of H with
        | context [gs _ !! ?g0] => run_inv H s g0
        end ]
  end.

Lemma lookup_insert_inv {A} (l : list A) g g' x y :
  <[g := x]> l !! g' = Some y →
  (g' = g ∧ y = x) ∨ (g' ≠ g ∧ l !! g' = Some y).
Proof.
  destruct (decide (g' = g)) as [->|Hne].
  - intros H. left. split; [done|].
    assert (g < length l)%nat.
    { apply lookup_lt_Some in H. by rewrite length_insert in H. }
    rewrite list_lookup_insert_eq in H by done. congruence.
  - rewrite list_lookup_insert_ne by done. auto.
Qed.

Lemma lookup_snoc_inv {A} (l : list A) g x y :
  (l ++ [x]) !! g = Some y →
  (g = length l ∧ y = x) ∨ ((g < length l)%nat ∧ l !! g = Some y).
Proof.
  intros H. destruct (decide (g < length l)%nat) as [Hlt|Hge].
  - right. by rewrite lookup_app_l in H.
  - left. rewrite lookup_app_r in H by lia.
    destruct (g - length l)%nat eqn:E; simpl in H; [|done].
    split; [lia|congruence].
Qed.

(** *** The heap only grows, and closed channels stay closed *)

Lemma closed_insert h c c' :
  closed h c = true → closed (<[c' := true]> h) c = true.
Proof.
  unfold closed. intros H.
  destruct (h !! c) as [x|] eqn:E; simpl in H; [subst|done].
  destruct (decide (c = c')) as [->|Hne].
  - rewrite list_lookup_insert_eq; [done|]. by eapply lookup_lt_Some.
  - rewrite list_lookup_insert_ne by done. by rewrite E.
Qed.

Lemma closed_close h c h' c' :
  close h c' = Some h' → closed h c = true → closed h' c = true.
Proof.
  unfold close. intros H. repeat case_match; simplify_eq.
  apply closed_insert.
Qed.

Lemma closed_close_eq h c h' : close h c = Some h' → closed h' c = true.
Proof.
  unfold close, closed. intros H. repeat case_match; simplify_eq.
  rewrite list_lookup_insert_eq; [done|]. by eapply lookup_lt_Some.
Qed.

Lemma closed_close_ne h c h' c' :
  close h c' = Some h' → c ≠ c' → closed h' c = closed h c.
Proof.
  unfold close, closed. intros H Hne. repeat case_match; simplify_eq.
  by rewrite list_lookup_insert_ne.
Qed.

Lemma close_length h c h' : close h c = Some h' → length h' = length h.
Proof.
  unfold close. intros H. repeat case_match; simplify_eq.
  apply length_insert.
Qed.

Lemma close_open h c :
  (c < length h)%nat → closed h c = false → is_Some (close h c).
Proof.
  unfold close, closed. intros Hlt Hc.
  destruct (lookup_lt_is_Some_2 h c Hlt) as [x Hx]. rewrite Hx in *.
  simpl in Hc. subst. eauto.
Qed.

Lemma close_closed h c : closed h c = true → close h c = None.
Proof.
  unfold close, closed. intros Hc.
  destruct (h !! c) as [[]|]; simpl in *; done.
Qed.

Lemma closed_snoc h c x :
  (c < length h)%nat → closed (h ++ [x]) c = closed h c.
Proof. unfold closed. intros H. by rewrite lookup_app_l. Qed.

Lemma closed_snoc_mono h c x :
  closed h c = true → closed (h ++ [x]) c = true.
Proof.
  intros H. rewrite closed_snoc; [done|].
  unfold closed in H. destruct (h !! c) eqn:E; [|done].
  by eapply lookup_lt_Some.
Qed.

Lemma closed_fresh h : closed (h ++ [false]) (length h) = false.
Proof.
  unfold closed. rewrite lookup_app_r by lia.
  by rewrite Nat.sub_diag.
Qed.

Lemma closed_lt h c : closed h c = true → (c < length h)%nat.
Proof.
  unfold closed. destruct (h !! c) eqn:E; [|done].
  intros _. by eapply lookup_lt_Some.
Qed.

Lemma step_closed_mono ev s s' c :
  step ev s = Some s' → closed (chans s) c = true → closed (chans s') c = true.
Proof.
  intros H Hc. step_inv H; simpl; eauto using closed_close, closed_snoc_mono.
Qed.

Lemma step_abort ev s s' : step ev s = Some s' → abort (bar s') = abort (bar s).
Proof. intros H. step_inv H; done. Qed.

Lemma step_n ev s s' : step ev s = Some s' → n (bar s') = n (bar s).
Proof. intros H. step_inv H; done. Qed.

Lemma step_aborted ev s s' :
  step ev s = Some s' → aborted s = true → aborted s' = true.
Proof.
  unfold aborted. intros H Ha. rewrite (step_abort _ _ _ H).
  eauto using step_closed_mono.
Qed.

Lemma exec_aborted evs s s' :
  exec evs s = Some s' → aborted s = true → aborted s' = true.
Proof.
  intros He Ha. revert He.
  apply (exec_preserves (λ s, aborted s = true)); [|done].
  eauto using step_aborted.
Qed.

(** A step of one goroutine leaves the others alone; goroutines are
    never removed. *)
Lemma step_other g c s s' g' :
  step (Run g c) s = Some s' → g' ≠ g → gs s' !! g' = gs s !! g'.
Proof.
  intros H Hne. step_inv H; simpl; by rewrite ?list_lookup_insert_ne.
Qed.

Lemma step_spawn ev s s' g th :
  (∀ g' c, ev ≠ Run g' c) → step ev s = Some s' →
  gs s !! g = Some th → gs s' !! g = Some th.
Proof.
  intros Hev H Hg. destruct ev; simpl in H; simplify_eq; simpl.
  - by apply lookup_app_l_Some.
  - by apply lookup_app_l_Some.
  - by destruct (Hev g0 c).
Qed.

(** ** Invariants of the barrier *)

Ltac lk :=
  repeat match goal with
  | H : <[_ := _]> _ !! _ = Some _ |- _ =>
      apply lookup_insert_inv in H as [[-> ->]|[? H]]
  | H : (_ ++ [_]) !! _ = Some _ |- _ =>
      apply lookup_snoc_inv in H as [[-> ->]|[? H]]
  end.

Lemma wf_New k : wf (New k).
Proof.
  split; simpl; try done; try lia.
Qed.

Lemma ret_ok_mono s s' th :
  (aborted s = true → aborted s' = true) → ret_ok s th → ret_ok s' th.
Proof.
  intros Hm H e Hpc Hc. destruct (H e Hpc Hc) as [?|[? ?]]; auto.
Qed.

(** After [step_inv]: split the lookups in the new pool, and note whether
    the goroutine that moved was inside the critical section. *)
Ltac moved :=
  simpl in *; lk;
  try match goal with
  | Hpc : at_pc ?th = _ |- _ =>
      let Hcs := fresh "Hcs" in
      let Hbc := fresh "Hbc" in
      pose proof (f_equal in_cs Hpc) as Hcs;
      pose proof (f_equal before_cb Hpc) as Hbc;
      simpl in Hcs, Hbc
  end;
  simpl in *.

Lemma exists_insert (P : Goroutine → Prop) (l : list Goroutine) g th th' :
  l !! g = Some th → (P th → P th') →
  (∃ h x, l !! h = Some x ∧ P x) →
  ∃ h x, <[g := th']> l !! h = Some x ∧ P x.
Proof.
  intros Hg HP (h & x & Hh & Hx). destruct (decide (h = g)) as [->|Hne].
  - exists g, th'. split; [|apply HP; congruence].
    apply list_lookup_insert_eq. by eapply lookup_lt_Some.
  - exists h, x. by rewrite list_lookup_insert_ne.
Qed.

Lemma exists_here (P : Goroutine → Prop) (l : list Goroutine) g th th' :
  l !! g = Some th → P th' →
  ∃ h x, <[g := th']> l !! h = Some x ∧ P x.
Proof.
  intros Hg HP. exists g, th'. split; [|done].
  apply list_lookup_insert_eq. by eapply lookup_lt_Some.
Qed.

Lemma exists_snoc (P : Goroutine → Prop) (l : list Goroutine) th' :
  (∃ h x, l !! h = Some x ∧ P x) →
  ∃ h x, (l ++ [th']) !! h = Some x ∧ P x.
Proof.
  intros (h & x & Hh & Hx). exists h, x. split; [|done].
  by apply lookup_app_l_Some.
Qed.

Lemma close_None h c :
  close h c = None → (c < length h)%nat → closed h c = true.
Proof.
  unfold close, closed. intros H Hlt.
  destruct (lookup_lt_is_Some_2 h c Hlt) as [x Hx]. rewrite Hx in *.
  by destruct x.
Qed.

Lemma wf_step ev s s' : wf s → step ev s = Some s' → wf s'.
Proof.
  intros [Hab [Hd1 Hd2] Hh Hl Hm Hho Ho He Hc Hbr Hret] H.
  assert (Hex : ∀ g g' th th', g' ≠ g →
    gs s !! g = Some th → gs s !! g' = Some th' →
    in_cs (at_pc th) = true → in_cs (at_pc th') = true → False).
  { intros g g' th th' Hne ? ? ? ?. apply Hne. eapply Hm; eauto. }
  split.
  - by rewrite (step_abort _ _ _ H).
  - step_inv H; simpl; rewrite ?length_app; simpl;
      repeat match goal with
      | H : close _ _ = Some _ |- _ => apply close_length in H as ->
      end; split; (done || lia).
  - step_inv H; simpl; rewrite ?length_app; simpl;
      repeat match goal with
      | H : close _ _ = Some _ |- _ => apply close_length in H as ->
      end; lia.
  - intros g' th' Hg' Hcs'. step_inv H; moved; try done; eauto.
    all: exfalso; eauto.
  - intros g1 g2 th1 th2 Hg1 Hg2 Hcs1 Hcs2. step_inv H; moved; try done; eauto.
  - intros Hmu. step_inv H; moved; try done.
    all: try (apply exists_snoc; auto; fail).
    all: try (eapply exists_here; [eassumption|done]).
    all: try (eapply exists_insert; [eassumption| |auto]; simpl;
              congruence).
    exfalso. destruct Ho as (g2 & th2 & Hg2 & Hpc2).
    { by apply close_None. }
    destruct (decide (g2 = g)) as [->|Hne]; [congruence|].
    eapply (Hex g g2); eauto. by rewrite Hpc2.
  - intros Hcl. step_inv H; moved; try done.
    all: try match goal with
         | Hc : close _ (abort _) = Some _ |- _ =>
             rewrite (closed_close_ne _ _ _ _ Hc) in Hcl by congruence
         end.
    all: try (rewrite closed_fresh in Hcl; discriminate Hcl).
    all: try (apply exists_snoc; auto; fail).
    all: try (eapply exists_here; [eassumption|done]).
    all: try (eapply exists_insert; [eassumption| |auto]; simpl;
              congruence).
  - intros g' th' Hg' Hb. step_inv H; moved; try done; eauto.
    unfold runs in *. simpl. destruct (Nat.eq_dec g g'); [congruence|eauto].
  - intros g' Hg'. unfold runs in *.
    step_inv H; simpl in *; rewrite ?length_insert, ?length_app in Hg';
      simpl in Hg'; try (apply Hc; lia).
    apply lookup_lt_Some in Hg.
    destruct (Nat.eq_dec g g'); [lia|]. apply Hc; lia.
  - intros g' th' Hg'.
    step_inv H; moved; try done; try (eapply Hbr; eauto; fail).
    all: specialize (Hbr _ _ Hg); unfold branch_ok in *;
      rewrite Hpc in Hbr; simpl in *; try done; try lia.
  - intros g' th' Hg'. assert (Hmono := step_aborted _ _ _ H).
    step_inv H; moved; try (eapply ret_ok_mono; [|eapply Hret]; eauto; fail).
    all: intros e Hpe Hco; simpl in *; simplify_eq.
    all: try (specialize (Hbr _ _ Hg); unfold branch_ok in Hbr;
              rewrite Hpc in Hbr; simpl in Hbr; lia).
    all: try (by left).
    all: right; split; [done|]; unfold aborted in *; simpl; done.
Qed.

Lemma wf_exec evs s s' : wf s → exec evs s = Some s' → wf s'.
Proof. apply exec_preserves. intros; eauto using wf_step. Qed.

Lemma wf_reachable k s : reachable k s → wf s.
Proof. intros [evs He]. eapply wf_exec; eauto using wf_New. Qed.

(** *** What the other goroutines cannot do *)

(** While [g] is between Lock and Unlock, no event of another goroutine
    touches [b.count], [b.done], the mutex or the state of [b.done], and no
    channel is made. *)
Lemma step_outside_cs ev s s' g th :
  wf s → gs s !! g = Some th → in_cs (at_pc th) = true →
  step ev s = Some s' → (∀ c, ev ≠ Run g c) →
  count (bar s') = count (bar s) ∧ done (bar s') = done (bar s) ∧
  mu (bar s') = mu (bar s) ∧ length (chans s') = length (chans s) ∧
  closed (chans s') (done (bar s)) = closed (chans s) (done (bar s)).
Proof.
  intros Hwf Hg Hcs H Hev.
  assert (Hmu := wf_locked _ Hwf _ _ Hg Hcs).
  assert (Hex : ∀ g' th', gs s !! g' = Some th' →
    in_cs (at_pc th') = true → g' = g).
  { intros. eapply (wf_mutex _ Hwf); eauto. }
  destruct Hwf as [Hab [Hd1 Hd2] _ _ _ _ _ _ _ _ _].
  step_inv H; simpl; try done.
  all: try match goal with
       | Hpc : at_pc ?th0 = _, Hg0 : gs _ !! ?g0 = Some ?th0 |- _ =>
           exfalso; eapply Hev; f_equal; apply (Hex g0 th0 Hg0);
           by rewrite Hpc
       end.
  all: try congruence.
  all: match goal with
       | Hc : close _ (abort _) = Some _ |- _ =>
           rewrite (closed_close_ne _ _ _ _ Hc) by congruence;
           rewrite (close_length _ _ _ Hc); done
       end.
Qed.

Lemma step_runs_other ev s s' g :
  step ev s = Some s' → (∀ c, ev ≠ Run g c) → runs s' g = runs s g.
Proof.
  intros H Hev. unfold runs. step_inv H; simpl; try done.
  destruct (Nat.eq_dec g0 g) as [->|]; [|done]. by destruct (Hev c).
Qed.

Lemma step_same ev s s' g th :
  step ev s = Some s' → (∀ c, ev ≠ Run g c) →
  gs s !! g = Some th → gs s' !! g = Some th.
Proof.
  intros H Hev Hg. destruct ev as [f| |g0 c].
  - eapply step_spawn; [|exact H|exact Hg]; done.
  - eapply step_spawn; [|exact H|exact Hg]; done.
  - rewrite (step_other _ _ _ _ g H); [done|]. intros ->. by apply (Hev c).
Qed.

Lemma event_cases ev g : (∃ c, ev = Run g c) ∨ (∀ c, ev ≠ Run g c).
Proof.
  destruct ev as [f| |g0 c]; try (right; done).
  destruct (decide (g0 = g)) as [->|Hne]; [left; eauto|right; congruence].
Qed.

(** ** The goroutine whose decrement gave zero *)

(** [close(b.done)] in reset never panics. *)
Lemma reset_close_ok s g th :
  wf s → gs s !! g = Some th → at_pc th = PResetClose →
  is_Some (close (chans s) (done (bar s))).
Proof.
  intros Hwf Hg Hpc. apply close_open; [apply (wf_done _ Hwf)|].
  destruct (closed (chans s) (done (bar s))) eqn:Hc; [|done].
  destruct (wf_open _ Hwf Hc) as (g2 & th2 & Hg2 & Hpc2).
  assert (g2 = g) as ->.
  { eapply (wf_mutex _ Hwf); eauto; by rewrite ?Hpc, ?Hpc2. }
  congruence.
Qed.

Lemma last_inv_own f g c s s' th :
  wf s → gs s !! g = Some th → last_inv f g s th →
  step (Run g c) s = Some s' →
  ∃ th', gs s' !! g = Some th' ∧ last_inv f g s' th' ∧
         last_rest (at_pc th) = at_pc th :: last_rest (at_pc th').
Proof.
  intros Hwf Hg [Hcb Hinv] H.
  assert (Hlt := lookup_lt_Some _ _ _ Hg).
  assert (Hmu := wf_locked _ Hwf _ _ Hg).
  assert (Herr := wf_err _ Hwf _ _ Hg).
  assert (Hcl := reset_close_ok _ _ _ Hwf Hg).
  unfold step in H. rewrite Hg in H.
  unfold Await, wait, reset, Abort, make in H.
  destruct (at_pc th) eqn:Hpc; try done; repeat case_match; simplify_eq;
    (eexists; split; [apply list_lookup_insert_eq; done|]).
  all: unfold last_inv, runs, cb_result, cb_runs in *; simpl in *.
  all: try (destruct Hcl as [? ?]; done).
  all: try (specialize (Hmu eq_refl); congruence).
  all: try lia.
  all: try (destruct Herr as [He1 He2]; [done|]; rewrite ?He1, ?He2).
  all: try match goal with H : cb _ = _ |- _ => rewrite H in * end.
  all: try destruct (Nat.eq_dec g g); done.
Qed.

Lemma last_inv_other f g ev s s' th :
  wf s → gs s !! g = Some th → last_inv f g s th →
  step ev s = Some s' → (∀ c, ev ≠ Run g c) →
  last_inv f g s' th.
Proof.
  intros Hwf Hg [Hcb Hinv] H Hev. split; [done|].
  rewrite (step_runs_other _ _ _ _ H Hev).
  destruct (at_pc th) eqn:Hpc; try done.
  destruct (step_outside_cs ev s s' g th) as (-> & _); auto.
  by rewrite Hpc.
Qed.

Lemma trace_own g c evs s s' th :
  step (Run g c) s = Some s' → gs s !! g = Some th →
  trace g (Run g c :: evs) s = at_pc th :: trace g evs s'.
Proof.
  intros H Hg. cbn [trace]. rewrite H. unfold pc_of. rewrite Hg. simpl.
  by rewrite decide_True.
Qed.

Lemma trace_other g ev evs s s' :
  step ev s = Some s' → (∀ c, ev ≠ Run g c) →
  trace g (ev :: evs) s = trace g evs s'.
Proof.
  intros H Hev. cbn [trace]. rewrite H. destruct ev as [f| |g0 c]; try done.
  destruct (pc_of s g); [|done].
  rewrite decide_False; [done|]. intros ->. by apply (Hev c).
Qed.

(** Along every interleaving the last arriver stays on its path, and when
    it has returned its own actions were exactly the rest of the path. *)
Lemma last_inv_exec f g evs : ∀ s s' th,
  wf s → gs s !! g = Some th → last_inv f g s th →
  exec evs s = Some s' →
  ∃ th', gs s' !! g = Some th' ∧ last_inv f g s' th' ∧
    (∀ e, at_pc th' = PReturn e → trace g evs s = last_rest (at_pc th)).
Proof.
  induction evs as [|ev evs IH]; intros s s' th Hwf Hg Hinv He.
  - simpl in He. simplify_eq. exists th. split_and!; [done..|].
    intros e ->. done.
  - simpl in He. destruct (step ev s) as [s1|] eqn:Hs; [|done].
    assert (Hwf1 := wf_step _ _ _ Hwf Hs).
    destruct (event_cases ev g) as [[c ->]|Hev].
    + destruct (last_inv_own _ _ _ _ _ _ Hwf Hg Hinv Hs)
        as (th1 & Hg1 & Hinv1 & Hrest).
      destruct (IH _ _ _ Hwf1 Hg1 Hinv1 He) as (th' & Hg' & Hinv' & Htr).
      exists th'. split_and!; [done..|]. intros e Hpc.
      rewrite (trace_own _ _ _ _ _ _ Hs Hg), Hrest. f_equal. eauto.
    + assert (Hg1 := step_same _ _ _ _ _ Hs Hev Hg).
      assert (Hinv1 := last_inv_other _ _ _ _ _ _ Hwf Hg Hinv Hs Hev).
      destruct (IH _ _ _ Hwf1 Hg1 Hinv1 He) as (th' & Hg' & Hinv' & Htr).
      exists th'. split_and!; [done..|]. intros e Hpc.
      rewrite (trace_other _ _ _ _ _ Hs Hev). eauto.
Qed.

(** *** Progress: the mutex is always released *)

Lemma cs_step s h th :
  wf s → gs s !! h = Some th → in_cs (at_pc th) = true →
  ∃ s1 th1, step (Run h CaseDone) s = Some s1 ∧ gs s1 !! h = Some th1 ∧
    ((in_cs (at_pc th1) = true ∧ (cs_left (at_pc th1) < cs_left (at_pc th))%nat)
     ∨ mu (bar s1) = false).
Proof.
  intros Hwf Hg Hcs.
  assert (Hlt := lookup_lt_Some _ _ _ Hg).
  assert (Hmu := wf_locked _ Hwf _ _ Hg Hcs).
  assert (Hcl := reset_close_ok _ _ _ Hwf Hg).
  unfold step. rewrite Hg. unfold Await, reset, make.
  destruct (at_pc th) eqn:Hpc; try done; rewrite ?Hmu.
  all: try (destruct Hcl as [h' ->]; [done|]).
  all: eexists _, _; split; [done|]; simpl;
    (split; [apply list_lookup_insert_eq; done|]); simpl; auto.
Qed.

Lemma release_aux m : ∀ s h th,
  wf s → gs s !! h = Some th → in_cs (at_pc th) = true →
  (cs_left (at_pc th) ≤ m)%nat →
  ∃ evs s', exec evs s = Some s' ∧ mu (bar s') = false ∧
    ∀ g, g ≠ h → gs s' !! g = gs s !! g.
Proof.
  induction m as [|m IH]; intros s h th Hwf Hg Hcs Hm.
  { destruct (at_pc th); simpl in *; done || lia. }
  destruct (cs_step _ _ _ Hwf Hg Hcs) as (s1 & th1 & Hs & Hg1 & Hcase).
  assert (Hwf1 := wf_step _ _ _ Hwf Hs).
  destruct Hcase as [[Hcs1 Hlt]|Hmu].
  - destruct (IH s1 h th1) as (evs & s' & He & Hmu & Hfr); auto; [lia|].
    exists (Run h CaseDone :: evs), s'. cbn [exec]. rewrite Hs.
    split_and!; [done..|]. intros g Hne. rewrite Hfr by done.
    eapply step_other; eauto.
  - exists [Run h CaseDone], s1. cbn [exec]. rewrite Hs. split_and!; [done..|].
    intros g Hne. eapply step_other; eauto.
Qed.

(** From every state some schedule frees the mutex, moving only the
    goroutine that holds it. *)
Lemma release s :
  wf s →
  ∃ evs s', exec evs s = Some s' ∧ mu (bar s') = false ∧
    ∀ g th, gs s !! g = Some th → in_cs (at_pc th) = false →
            gs s' !! g = Some th.
Proof.
  intros Hwf. destruct (mu (bar s)) eqn:Hmu.
  - destruct (wf_holder _ Hwf Hmu) as (h & th & Hg & Hcs).
    destruct (release_aux _ s h th Hwf Hg Hcs (le_n _))
      as (evs & s' & He & Hmu' & Hfr).
    exists evs, s'. split_and!; [done..|]. intros g th' Hg' Hcs'.
    rewrite Hfr; [done|]. intros ->. congruence.
  - exists [], s. auto.
Qed.

Lemma last_enabled f g s th :
  wf s → gs s !! g = Some th → last_inv f g s th →
  in_cs (at_pc th) = true ∨ mu (bar s) = false →
  (∀ e, at_pc th ≠ PReturn e) →
  is_Some (step (Run g CaseDone) s).
Proof.
  intros Hwf Hg [Hcb Hinv] Hmu Hret.
  assert (Hcl := reset_close_ok _ _ _ Hwf Hg).
  assert (Hlk := wf_locked _ Hwf _ _ Hg).
  unfold step. rewrite Hg. unfold Await, reset, make.
  destruct (at_pc th) eqn:Hpc; try done; repeat case_match; eauto.
  all: try (destruct Hmu; simplify_eq; fail).
  all: try (destruct Hcl; simplify_eq; fail).
  all: by destruct (Hret e).
Qed.

Lemma last_progress f g m : ∀ s th,
  wf s → gs s !! g = Some th → last_inv f g s th →
  (length (last_rest (at_pc th)) ≤ m)%nat →
  ∃ evs s', exec evs s = Some s' ∧ pc_of s' g = Some (PReturn (cb_result f)).
Proof.
  induction m as [|m IH]; intros s th Hwf Hg Hinv Hm.
  - exists [], s. split; [done|]. unfold pc_of. rewrite Hg. simpl.
    destruct Hinv as [_ Hinv].
    destruct (at_pc th); simpl in *; try done; try lia.
    by destruct Hinv as [-> _].
  - assert ((∃ e, at_pc th = PReturn e) ∨ ∀ e, at_pc th ≠ PReturn e)
      as [[e Hpc]|Hnr] by (destruct (at_pc th); eauto).
    { exists [], s. split; [done|]. unfold pc_of. rewrite Hg. simpl.
      destruct Hinv as [_ Hinv]. rewrite Hpc in *. by destruct Hinv as [-> _]. }
    assert (∃ evs0 s0, exec evs0 s = Some s0 ∧ gs s0 !! g = Some th ∧
              (in_cs (at_pc th) = true ∨ mu (bar s0) = false))
      as (evs0 & s0 & He0 & Hg0 & Hmu0).
    { destruct (in_cs (at_pc th)) eqn:Hcs.
      - exists [], s. auto.
      - destruct (release s Hwf) as (evs0 & s0 & He0 & Hmu0 & Hfr).
        exists evs0, s0. auto. }
    assert (Hwf0 := wf_exec _ _ _ Hwf He0).
    destruct (last_inv_exec _ _ _ _ _ _ Hwf Hg Hinv He0)
      as (th0 & Hg0' & Hinv0 & _).
    assert (th0 = th) as -> by congruence.
    destruct (last_enabled _ _ _ _ Hwf0 Hg0 Hinv0 Hmu0) as [s1 Hs1].
    { done. }
    destruct (last_inv_own _ _ _ _ _ _ Hwf0 Hg0 Hinv0 Hs1)
      as (th1 & Hg1 & Hinv1 & Hrest).
    destruct (IH s1 th1) as (evs1 & s' & He1 & Hpc');
      eauto using wf_step.
    { rewrite Hrest in Hm. simpl in Hm. lia. }
    exists (evs0 ++ Run g CaseDone :: evs1), s'. split; [|done].
    rewrite exec_app, He0. cbn [mbind option_bind exec]. by rewrite Hs1.
Qed.

(** ** Waiters *)

(** An invariant of one goroutine that every event keeps, holds along
    every execution. *)
Lemma inv_exec (I : State → Goroutine → Prop) g :
  (∀ ev s s' th, wf s → gs s !! g = Some th → I s th →
     step ev s = Some s' → ∃ th', gs s' !! g = Some th' ∧ I s' th') →
  ∀ evs s s' th, wf s → gs s !! g = Some th → I s th →
    exec evs s = Some s' → ∃ th', gs s' !! g = Some th' ∧ I s' th'.
Proof.
  intros Hstep. induction evs as [|ev evs IH]; intros s s' th Hwf Hg HI He.
  - simpl in He. simplify_eq. eauto.
  - simpl in He. destruct (step ev s) as [s1|] eqn:Hs; [|done].
    destruct (Hstep _ _ _ _ Hwf Hg HI Hs) as (th1 & Hg1 & HI1).
    apply (IH s1 s' th1); eauto using wf_step.
Qed.

Lemma step_run g c s th : gs s !! g = Some th → step (Run g c) s = Await g c th s.
Proof. intros Hg. unfold step. by rewrite Hg. Qed.

Lemma wait_inv_step d g ev s s' th :
  wf s → gs s !! g = Some th → wait_inv d s th → step ev s = Some s' →
  ∃ th', gs s' !! g = Some th' ∧ wait_inv d s' th'.
Proof.
  intros Hwf Hg Hinv H. destruct (event_cases ev g) as [[c ->]|Hev].
  - assert (Hlt := lookup_lt_Some _ _ _ Hg).
    assert (Hmu := wf_locked _ Hwf _ _ Hg).
    rewrite (step_run _ _ _ _ Hg) in H. unfold wait_inv in *.
    unfold Await, wait in H.
    destruct (at_pc th) eqn:Hpc; try done; repeat case_match; simplify_eq;
      (eexists; split; [apply list_lookup_insert_eq; done|]); simpl.
    all: try (specialize (Hmu eq_refl); congruence).
    all: unfold aborted in *; simpl in *; try lia; destruct_and?; subst; auto.
  - exists th. split; [eapply step_same; eauto|].
    assert (Hcl := step_closed_mono _ _ _ d H).
    assert (Hab := step_aborted _ _ _ H).
    unfold wait_inv in *. destruct (at_pc th) eqn:Hpc; try done.
    + destruct (step_outside_cs ev s s' g th) as (-> & -> & _); auto.
      by rewrite Hpc.
    + destruct Hinv as (? & ? & ?); auto.
    + destruct Hinv as (? & ? & [[? ?]|[? ?]]); auto 8.
Qed.

Lemma doomed_step g ev s s' th :
  wf s → gs s !! g = Some th → doomed s th → step ev s = Some s' →
  ∃ th', gs s' !! g = Some th' ∧ doomed s' th'.
Proof.
  intros Hwf Hg [Hab Hinv] H. assert (Hab' := step_aborted _ _ _ H Hab).
  destruct (event_cases ev g) as [[c ->]|Hev].
  - assert (Hlt := lookup_lt_Some _ _ _ Hg).
    assert (Hbr := wf_branch _ Hwf _ _ Hg). unfold branch_ok in Hbr.
    rewrite (step_run _ _ _ _ Hg) in H.
    unfold Await, wait, reset, Abort, make in H.
    destruct (at_pc th) eqn:Hpc; try done; repeat case_match; simplify_eq;
      (eexists; split; [apply list_lookup_insert_eq; done|]);
      (split; [done|]); simpl; intros e' He' Hc'; simplify_eq; try done;
      try lia.
  - exists th. split; [eapply step_same; eauto|]. by split.
Qed.

(** ** After an abort *)

(** C3. Once the abort signal is set, it stays set, and every call of
    [Await] that is at its entry in any later state returns
    [ErrBarrierAborted] with its next action, whatever the scheduler picks:
    it is not blocked, and the barrier ([b.count], [b.done], the mutex), the
    channels, the callbacks run and the other goroutines are as before. *)
Theorem Await_after_abort s evs s1 g th c :
  aborted s = true → exec evs s = Some s1 →
  gs s1 !! g = Some th → at_pc th = PAwait →
  aborted s1 = true ∧
  ∃ s2, step (Run g c) s1 = Some s2 ∧
        pc_of s2 g = Some (PReturn (Some ErrBarrierAborted)) ∧
        bar s2 = bar s1 ∧ chans s2 = chans s1 ∧ calls s2 = calls s1 ∧
        ∀ g', g' ≠ g → gs s2 !! g' = gs s1 !! g'.
Proof.
  intros Hab He Hg Hpc. assert (Hab1 := exec_aborted _ _ _ He Hab).
  split; [done|]. rewrite (step_run _ _ _ _ Hg). unfold Await.
  rewrite Hpc, Hab1. eexists. split; [done|]. unfold pc_of. simpl.
  rewrite list_lookup_insert_eq by (by eapply lookup_lt_Some).
  split_and!; try done. intros g' Hne. by rewrite list_lookup_insert_ne.
Qed.

Lemma Await_after_abort_witness :
  aborted (spawn PAwait None after_abort_state) = true ∧
  ∃ s2, step (Run 1 CaseDone) (spawn PAwait None after_abort_state) = Some s2 ∧
        pc_of s2 1 = Some (PReturn (Some ErrBarrierAborted)) ∧
        bar s2 = bar (spawn PAwait None after_abort_state) ∧
        chans s2 = chans (spawn PAwait None after_abort_state) ∧
        calls s2 = calls (spawn PAwait None after_abort_state) ∧
        ∀ g', g' ≠ 1%nat →
          gs s2 !! g' = gs (spawn PAwait None after_abort_state) !! g'.
Proof.
  apply (Await_after_abort after_abort_state [GoAwait None] _ 1
           {| at_pc := PAwait; cb := None; loc_count := 0;
              loc_done := 0%nat; err := None |} CaseDone);
    reflexivity.
Defined.

Lemma doomed_exec g evs s s' th :
  wf s → gs s !! g = Some th → doomed s th → exec evs s = Some s' →
  ∃ th', gs s' !! g = Some th' ∧ doomed s' th'.
Proof. apply (inv_exec doomed). apply doomed_step. Qed.

(** A goroutine inside the critical section of [Await] gets out of it by
    three actions of its own at most. *)
Lemma waiter_arrives s g th :
  wf s → gs s !! g = Some th → at_pc th = PCopy →
  ∃ s', exec (solo g 3) s = Some s' ∧
        pc_of s' g = Some (if count (bar s) <? 0 then PMisuse
                           else if 0 <? count (bar s) then PWait
                           else PCallback).
Proof.
  intros Hwf Hg Hpc. assert (Hlt := lookup_lt_Some _ _ _ Hg).
  assert (Hmu : mu (bar s) = true).
  { apply (wf_locked _ Hwf _ _ Hg). by rewrite Hpc. }
  unfold solo. cbn [replicate exec].
  rewrite (step_run _ _ _ _ Hg). unfold Await at 1. rewrite Hpc.
  erewrite step_run by (simpl; apply list_lookup_insert_eq; done).
  unfold Await at 1. cbn [at_pc bar set_g]. rewrite Hmu.
  erewrite step_run by (simpl; apply list_lookup_insert_eq;
                        rewrite length_insert; done).
  unfold Await at 1. cbn [at_pc goto loc_count].
  unfold pc_of.
  repeat case_match; simplify_eq; (eexists; split; [done|]); simpl;
    rewrite list_lookup_insert_eq; rewrite ?length_insert; done.
Qed.

(** C5. A call of [Await] whose decrement left the counter positive (it is
    at [PCopy], under the mutex, and [b.count] is positive) gets to the
    [select] of [wait] by its own next three actions, and in every
    interleaving: it is at one of the program points of [wait_inv], holding
    the round signal [b.done] of the moment of the decrement; at the
    [select] it is blocked exactly while that signal and the abort signal
    are both unset, goes to the re-check when woken by the round signal and
    returns [ErrBarrierAborted] at once when woken by the abort signal; at
    the re-check it returns [ErrBarrierAborted] if the abort signal is set
    then and [nil] otherwise; and once the abort signal is set while it has
    not returned, it can only return [ErrBarrierAborted]. *)
Theorem Await_waiter k s g th :
  reachable k s → gs s !! g = Some th →
  at_pc th = PCopy → 0 < count (bar s) →
  (∃ s', exec (solo g 3) s = Some s' ∧ pc_of s' g = Some PWait) ∧
  ∀ evs s' th', exec evs s = Some s' → gs s' !! g = Some th' →
    wait_inv (done (bar s)) s' th' ∧
    (at_pc th' = PWait → ∀ c,
       step (Run g c) s' =
         match closed (chans s') (done (bar s)), aborted s', c with
         | false, false, _ => None
         | true, false, _ | true, true, CaseDone =>
             Some (set_g g (goto PRecheck th') s')
         | false, true, _ | true, true, CaseAbort =>
             Some (set_g g (goto (PReturn (Some ErrBarrierAborted)) th') s')
         end) ∧
    (at_pc th' = PRecheck → ∀ c,
       step (Run g c) s' =
         Some (set_g g (goto (PReturn (if aborted s'
                                       then Some ErrBarrierAborted
                                       else None)) th') s')) ∧
    (aborted s' = true → (∀ e, at_pc th' ≠ PReturn e) →
     ∀ evs2 s2 th2 e, exec evs2 s' = Some s2 → gs s2 !! g = Some th2 →
       at_pc th2 = PReturn e → e = Some ErrBarrierAborted).
Proof.
  intros Hr Hg Hpc Hc. assert (Hwf := wf_reachable _ _ Hr). split.
  { destruct (waiter_arrives _ _ _ Hwf Hg Hpc) as (s' & He & Hp).
    exists s'. split; [done|]. rewrite Hp.
    destruct (Z.ltb_spec (count (bar s)) 0); [lia|].
    destruct (Z.ltb_spec 0 (count (bar s))); [done|lia]. }
  intros evs s' th' He Hg'.
  assert (Hinv : wait_inv (done (bar s)) s th).
  { unfold wait_inv. by rewrite Hpc. }
  destruct (inv_exec _ _ (wait_inv_step (done (bar s)) g) _ _ _ _
              Hwf Hg Hinv He) as (th2 & Hg2 & Hinv').
  assert (th2 = th') as -> by congruence.
  assert (Hwf' := wf_exec _ _ _ Hwf He).
  split_and!; [done|..].
  - intros Hp c. rewrite (step_run _ _ _ _ Hg'). unfold Await, wait.
    unfold wait_inv in Hinv'. rewrite Hp in *. destruct Hinv' as [_ ->].
    by destruct (closed _ _), (aborted s'), c.
  - intros Hp c. rewrite (step_run _ _ _ _ Hg'). unfold Await, wait.
    rewrite Hp. by destruct (aborted s').
  - intros Hab Hnr evs2 s2 th2 e He2 Hg2' Hp2.
    assert (Hd : doomed s' th').
    { split; [done|]. intros e' He'. by destruct (Hnr e'). }
    destruct (doomed_exec _ _ _ _ _ Hwf' Hg' Hd He2) as (th3 & Hg3 & _ & Hd3).
    assert (th3 = th2) as -> by congruence.
    assert (He12 := exec_app evs evs2 s). rewrite He in He12. simpl in He12.
    rewrite He2 in He12.
    destruct (inv_exec _ _ (wait_inv_step (done (bar s)) g) _ _ _ _
                Hwf Hg Hinv He12) as (th4 & Hg4 & Hinv4).
    assert (th4 = th2) as -> by congruence.
    unfold wait_inv in Hinv4. rewrite Hp2 in Hinv4.
    apply (Hd3 e Hp2), Hinv4.
Qed.

Lemma Await_waiter_witness :
  ∃ s', exec (solo 0 3) waiter_state = Some s' ∧ pc_of s' 0 = Some PWait.
Proof.
  apply (Await_waiter 2 waiter_state 0
           {| at_pc := PCopy; cb := None; loc_count := 0;
              loc_done := 0%nat; err := None |}).
  - exists (GoAwait None :: solo 0 3). reflexivity.
  - reflexivity.
  - reflexivity.
  - reflexivity.
Defined.

(** *** Verdicts of the waiters of one round *)

Lemma split_schedule_runs :
  ∃ s, exec split_schedule (New 3) = Some s ∧
    gs s !! 0%nat = Some {| at_pc := PReturn None; cb := None; loc_count := 2;
                            loc_done := 0%nat; err := None |} ∧
    gs s !! 1%nat = Some {| at_pc := PReturn (Some ErrBarrierAborted);
                            cb := None; loc_count := 1;
                            loc_done := 0%nat; err := None |}.
Proof. eexists. split; [vm_compute; reflexivity|]. split; reflexivity. Qed.

(** C8, counterexample: in the round above goroutine 0 returns [nil] and
    its sibling goroutine 1 [ErrBarrierAborted]. *)
Lemma verdicts_differ : ¬ (∀ s, reachable 3 s → consistent_verdict s).
Proof.
  intros H. destruct split_schedule_runs as (s & He & H0 & H1).
  assert (Hr : reachable 3 s) by (by exists split_schedule).
  specialize (H s Hr 0%nat 1%nat _ _ None (Some ErrBarrierAborted) H0 H1).
  simpl in H. discriminate H; done.
Qed.

Lemma step_new ev s s' g th :
  step ev s = Some s' → gs s !! g = None → gs s' !! g = Some th →
  at_pc th = PAwait ∨ at_pc th = PAbort.
Proof.
  intros H Hn Hg. step_inv H; simpl in *; lk; simpl; auto; congruence.
Qed.

(** After an abort, every goroutine that has not returned yet, or is
    started later, is [doomed]. *)
Lemma doomed_later evs : ∀ s s' g th',
  wf s → aborted s = true →
  (∀ th e, gs s !! g = Some th → at_pc th ≠ PReturn e) →
  exec evs s = Some s' → gs s' !! g = Some th' → doomed s' th'.
Proof.
  induction evs as [|ev evs IH]; intros s s' g th' Hwf Hab Hnr He Hg'.
  - simpl in He. simplify_eq. split; [done|]. intros e Hp. by destruct (Hnr _ e Hg').
  - destruct (gs s !! g) as [th|] eqn:Hg.
    + assert (Hd : doomed s th).
      { split; [done|]. intros e Hp. by destruct (Hnr _ e eq_refl). }
      destruct (doomed_exec _ _ _ _ _ Hwf Hg Hd He) as (th2 & Hg2 & Hd2).
      congruence.
    + simpl in He. destruct (step ev s) as [s1|] eqn:Hs; [|done].
      apply (IH s1 s' g th'); eauto using wf_step, step_aborted.
      intros th1 e Hg1 Hp. destruct (step_new _ _ _ _ _ Hs Hg Hg1); congruence.
Qed.

(** C8, amended.  Two waiters of one round that have returned both got
    [nil] if the abort signal is not set by then; and both got
    [ErrBarrierAborted] if the abort signal was set in an earlier state in
    which neither of them had returned. *)
Theorem waiters_verdict k s0 evs s g1 g2 th1 th2 e1 e2 :
  reachable k s0 → exec evs s0 = Some s →
  gs s !! g1 = Some th1 → gs s !! g2 = Some th2 →
  0 < loc_count th1 → 0 < loc_count th2 →
  loc_done th1 = loc_done th2 →
  at_pc th1 = PReturn e1 → at_pc th2 = PReturn e2 →
  (aborted s = false → e1 = None ∧ e2 = None) ∧
  (aborted s0 = true →
   (∀ e, pc_of s0 g1 ≠ Some (PReturn e)) →
   (∀ e, pc_of s0 g2 ≠ Some (PReturn e)) →
   e1 = Some ErrBarrierAborted ∧ e2 = Some ErrBarrierAborted).
Proof.
  intros Hr He Hg1 Hg2 Hc1 Hc2 _ Hp1 Hp2.
  assert (Hwf0 := wf_reachable _ _ Hr). assert (Hwf := wf_exec _ _ _ Hwf0 He).
  split.
  - intros Hab.
    destruct (wf_ret _ Hwf _ _ Hg1 e1 Hp1 Hc1) as [->|[_ ?]]; [|congruence].
    destruct (wf_ret _ Hwf _ _ Hg2 e2 Hp2 Hc2) as [->|[_ ?]]; [|congruence].
    done.
  - intros Hab Hn1 Hn2. split.
    + eapply (doomed_later evs s0 s g1 th1); eauto.
      intros th e Hg Hp. apply (Hn1 e). unfold pc_of. rewrite Hg. simpl. by rewrite Hp.
    + eapply (doomed_later evs s0 s g2 th2); eauto.
      intros th e Hg Hp. apply (Hn2 e). unfold pc_of. rewrite Hg. simpl. by rewrite Hp.
Qed.

Lemma waiters_verdict_witness :
  (aborted round_state = false → @None error = None ∧ @None error = None) ∧
  (aborted (New 3) = true →
   (∀ e, pc_of (New 3) 0 ≠ Some (PReturn e)) →
   (∀ e, pc_of (New 3) 1 ≠ Some (PReturn e)) →
   @None error = Some ErrBarrierAborted ∧ @None error = Some ErrBarrierAborted).
Proof.
  apply (waiters_verdict 3 (New 3) round_schedule round_state 0 1
           {| at_pc := PReturn None; cb := None; loc_count := 2;
              loc_done := 0%nat; err := None |}
           {| at_pc := PReturn None; cb := None; loc_count := 1;
              loc_done := 0%nat; err := None |}).
  - apply reachable_New.
  - vm_compute. reflexivity.
  - reflexivity.
  - reflexivity.
  - reflexivity.
  - reflexivity.
  - reflexivity.
  - reflexivity.
  - reflexivity.
Defined.

(** *** Abort on an aborted barrier *)

(** [close(b.abort)] on the closed channel: the goroutine panics, be it in
    [Abort] or in the misuse path of [Await]. *)
Lemma Abort_aborted s g th c :
  gs s !! g = Some th → at_pc th = PAbort ∨ at_pc th = PMisuse →
  aborted s = true →
  step (Run g c) s = Some (set_g g (goto PPanic th) s).
Proof.
  intros Hg Hpc Hab. rewrite (step_run _ _ _ _ Hg). unfold Await, Abort.
  rewrite (close_closed _ _ Hab). by destruct Hpc as [-> | ->].
Qed.

(** On a barrier that is not aborted, [Abort] sets the abort signal, and
    the misuse path of [Await] sets it and returns [ErrBarrierMisused]. *)
Lemma Abort_fresh s g th c :
  wf s → gs s !! g = Some th → at_pc th = PAbort ∨ at_pc th = PMisuse →
  aborted s = false →
  ∃ s', step (Run g c) s = Some s' ∧ aborted s' = true ∧
        pc_of s' g = Some (if decide (at_pc th = PAbort) then PAbortReturn
                           else PReturn (Some ErrBarrierMisused)).
Proof.
  intros Hwf Hg Hpc Hab. assert (Hlt := lookup_lt_Some _ _ _ Hg).
  destruct (close_open (chans s) (abort (bar s))) as [h Hh]; [|done|].
  { rewrite (wf_abort _ Hwf). pose proof (wf_heap _ Hwf). lia. }
  rewrite (step_run _ _ _ _ Hg). unfold Await, Abort. rewrite Hh.
  destruct Hpc as [Hp | Hp]; rewrite Hp; simpl; (eexists; split; [done|]);
    unfold aborted, pc_of; simpl;
    rewrite (closed_close_eq _ _ _ Hh), list_lookup_insert_eq by done; done.
Qed.

(** C2, the code at the failing input: the decrement of goroutine 2 yields
    -2, it finds the abort signal set by goroutine 1 and panics in
    [close(b.abort)] instead of returning [ErrBarrierMisused]. *)
Theorem Await_misuse_panics :
  ∃ s, exec misuse_schedule (New 1) = Some s ∧
    gs s !! 1%nat = Some {| at_pc := PReturn (Some ErrBarrierMisused);
                            cb := None; loc_count := -1; loc_done := 0%nat;
                            err := None |} ∧
    gs s !! 2%nat = Some {| at_pc := PPanic; cb := None; loc_count := -2;
                            loc_done := 0%nat; err := None |}.
Proof. eexists. split; [vm_compute; reflexivity|]. split; reflexivity. Qed.

(** C4, the code at the failing input: the second of two calls of [Abort]
    panics. *)
Theorem Abort_twice_panics :
  ∃ s, exec [GoAbort; GoAbort; Run 0 CaseDone; Run 1 CaseDone] (New 1) = Some s ∧
    pc_of s 0 = Some PAbortReturn ∧ pc_of s 1 = Some PPanic.
Proof. eexists. split; [vm_compute; reflexivity|]. split; reflexivity. Qed.

(** *** The party size *)

Lemma n_reachable k s :
  MinInt64 ≤ k ≤ MaxInt64 → reachable k s → n (bar s) = k.
Proof.
  intros Hk [evs He]. rewrite <- (wrap64_small k Hk).
  change (wrap64 k) with (n (bar (New k))). revert He.
  apply (exec_preserves (λ s0, n (bar s0) = n (bar (New k)))); [|done].
  intros ev s0 s0' IH Hs. by rewrite (step_n _ _ _ Hs).
Qed.

(** C9. [b.n] is written by [New] only: no event changes it, so in every
    state of a barrier made by [New(k)], for [k] an [int64], it is [k], and
    it is the same in every later state. *)
Theorem party_size_fixed k s :
  MinInt64 ≤ k ≤ MaxInt64 → reachable k s →
  n (bar s) = k ∧ ∀ evs s', exec evs s = Some s' → n (bar s') = n (bar s).
Proof.
  intros Hk Hr. split.
  - revert s Hr. apply reachable_preserves.
    + simpl. unfold wrap64, MinInt64, MaxInt64 in *.
      rewrite Z.mod_small by lia. lia.
    + intros ev s s' IH Hs. unfold step in Hs.
      destruct ev as [f| |g c]; simplify_eq; try done.
      destruct (gs s !! g) as [th|]; [|done].
      unfold Await, wait, reset, Abort, make in Hs.
      repeat case_match; simplify_eq; done.
  - intros evs s'. apply (exec_preserves (λ s0, n (bar s0) = n (bar s))).
    + intros ev s0 s0' IH Hs. by rewrite (step_n _ _ _ Hs).
    + done.
Qed.

Lemma party_size_fixed_witness :
  n (bar round_state) = 3 ∧
  ∀ evs s', exec evs round_state = Some s' → n (bar s') = n (bar round_state).
Proof.
  apply (party_size_fixed 3 round_state).
  - unfold MinInt64, MaxInt64. lia.
  - exists round_schedule. vm_compute. reflexivity.
Defined.

(** ** reset *)

Lemma reset_inv_step d len g ev s s' th :
  wf s → gs s !! g = Some th → reset_inv d len s th → step ev s = Some s' →
  ∃ th', gs s' !! g = Some th' ∧ reset_inv d len s' th' ∧ err th' = err th.
Proof.
  intros Hwf Hg Hinv H. destruct (event_cases ev g) as [[c ->]|Hev].
  - assert (Hlt := lookup_lt_Some _ _ _ Hg).
    assert (Hmu := wf_locked _ Hwf _ _ Hg).
    assert (Hcl := reset_close_ok _ _ _ Hwf Hg).
    rewrite (step_run _ _ _ _ Hg) in H. unfold reset_inv in *.
    unfold Await, reset, make in H.
    destruct (at_pc th) eqn:Hpc; try done; repeat case_match; simplify_eq;
      (eexists; split; [apply list_lookup_insert_eq; done|]); simpl.
    all: try (specialize (Hmu eq_refl); congruence).
    all: try (destruct Hcl as [? ?]; [done|congruence]).
    all: destruct_and?; subst; rewrite ?length_app; simpl;
      split_and?; try done; try lia.
    + by erewrite close_length.
    + by eapply closed_close_eq.
    + by apply closed_snoc_mono.
    + apply closed_fresh.
  - exists th. split; [eapply step_same; eauto|]. split; [|done].
    assert (Hcl := step_closed_mono _ _ _ d H).
    assert (Hn := step_n _ _ _ H).
    unfold reset_inv in *. destruct (at_pc th) eqn:Hpc; try done.
    all: try (destruct Hinv; split; auto; fail).
    all: destruct (step_outside_cs ev s s' g th) as (Hc & Hd & _ & Hl & Hcd);
      try (by rewrite ?Hpc); destruct_and?;
      rewrite ?Hc, ?Hd, ?Hl, ?Hn; split_and?; auto; try congruence.
Qed.

Lemma reset_runs s g th :
  wf s → gs s !! g = Some th → at_pc th = PResetClose →
  ∃ s', exec (solo g 4) s = Some s' ∧ pc_of s' g = Some (PReturn (err th)).
Proof.
  intros Hwf Hg Hpc. assert (Hlt := lookup_lt_Some _ _ _ Hg).
  assert (Hmu : mu (bar s) = true).
  { apply (wf_locked _ Hwf _ _ Hg). by rewrite Hpc. }
  destruct (reset_close_ok _ _ _ Hwf Hg Hpc) as [h Hh].
  unfold solo. cbn [replicate exec].
  rewrite (step_run _ _ _ _ Hg). unfold Await at 1. rewrite Hpc.
  unfold reset at 1. rewrite Hpc, Hh.
  erewrite step_run by (simpl; apply list_lookup_insert_eq; done).
  unfold Await at 1. cbn [at_pc goto]. unfold reset at 1, make.
  cbn [at_pc goto].
  erewrite step_run by (simpl; apply list_lookup_insert_eq;
                        rewrite length_insert; done).
  unfold Await at 1. cbn [at_pc goto]. unfold reset at 1. cbn [at_pc goto].
  erewrite step_run by (simpl; apply list_lookup_insert_eq;
                        rewrite !length_insert; done).
  unfold Await at 1. cbn [at_pc goto]. unfold reset at 1.
  cbn [at_pc goto bar set_g set_bar set_count set_done set_chans mu].
  rewrite Hmu. eexists. split; [done|]. unfold pc_of. simpl.
  rewrite list_lookup_insert_eq by (rewrite !length_insert; done). done.
Qed.

(** C6. Once a goroutine has taken the mutex for reset, then in every
    interleaving, until it unlocks: no one else changes [b.done], [b.count]
    or makes a channel; it closes the round signal that was current, stores
    a channel that was not on the heap before and is open, and sets
    [b.count] to [b.n]; its unlock is enabled and leaves the barrier with the
    mutex free, [b.count = b.n], the old round signal closed and the new one
    open.  Its own four actions after the lock suffice, and none panics. *)
Theorem reset_atomic k s g th c s1 :
  reachable k s → gs s !! g = Some th → at_pc th = PResetLock →
  step (Run g c) s = Some s1 →
  (∃ s', exec (solo g 4) s1 = Some s' ∧ pc_of s' g = Some (PReturn (err th))) ∧
  ∀ evs s' th', exec evs s1 = Some s' → gs s' !! g = Some th' →
    reset_inv (done (bar s)) (length (chans s)) s' th' ∧
    (at_pc th' = PResetUnlock → ∀ c', ∃ s2,
       step (Run g c') s' = Some s2 ∧
       pc_of s2 g = Some (PReturn (err th)) ∧
       mu (bar s2) = false ∧ count (bar s2) = n (bar s) ∧
       done (bar s2) = length (chans s) ∧
       closed (chans s2) (done (bar s2)) = false ∧
       closed (chans s2) (done (bar s)) = true).
Proof.
  intros Hr Hg Hpc Hs. assert (Hwf := wf_reachable _ _ Hr).
  assert (Hwf1 := wf_step _ _ _ Hwf Hs).
  assert (Hlt := lookup_lt_Some _ _ _ Hg).
  assert (Hopen : closed (chans s) (done (bar s)) = false).
  { destruct (closed (chans s) (done (bar s))) eqn:Hc; [|done].
    destruct (wf_open _ Hwf Hc) as (g2 & th2 & Hg2 & Hpc2).
    assert (Hmu2 := wf_locked _ Hwf _ _ Hg2). rewrite Hpc2 in Hmu2.
    rewrite (step_run _ _ _ _ Hg) in Hs. unfold Await, reset in Hs.
    rewrite Hpc, Hmu2 in Hs; done. }
  rewrite (step_run _ _ _ _ Hg) in Hs. unfold Await, reset in Hs.
  rewrite Hpc in Hs. destruct (mu (bar s)) eqn:Hmu; [done|]. simplify_eq.
  set (s1 := set_g g (goto PResetClose th) (set_bar (set_mu true (bar s)) s))
    in *.
  assert (Hg1 : gs s1 !! g = Some (goto PResetClose th)).
  { simpl. by apply list_lookup_insert_eq. }
  split; [by apply (reset_runs s1 g (goto PResetClose th))|].
  intros evs s' th' He Hg'.
  assert (Hinv : reset_inv (done (bar s)) (length (chans s)) s1
                   (goto PResetClose th)) by done.
  destruct (inv_exec (λ s0 th0, reset_inv (done (bar s)) (length (chans s))
                                  s0 th0 ∧ err th0 = err th) g) with
    (evs := evs) (s := s1) (s' := s') (th := goto PResetClose th)
    as (th2 & Hg2 & Hinv' & Herr); auto.
  { intros ev0 s0 s0' th0 Hwf0 Hg0 [Hi0 He0] Hs0.
    destruct (reset_inv_step _ _ _ _ _ _ _ Hwf0 Hg0 Hi0 Hs0)
      as (th3 & ? & ? & ?). exists th3. split_and!; auto. congruence. }
  assert (th2 = th') as -> by congruence. split; [done|].
  intros Hp c'. assert (Hwf' := wf_exec _ _ _ Hwf1 He).
  assert (Hmu' : mu (bar s') = true).
  { apply (wf_locked _ Hwf' _ _ Hg'). by rewrite Hp. }
  rewrite (step_run _ _ _ _ Hg'). unfold Await, reset. rewrite Hp, Hmu'.
  eexists. split; [done|]. unfold reset_inv in Hinv'. rewrite Hp in Hinv'.
  destruct Hinv' as (Hd & Hl & Hc1 & Hc2 & Hcn). unfold pc_of. simpl.
  rewrite list_lookup_insert_eq by (by eapply lookup_lt_Some). simpl.
  rewrite Herr, Hd. split_and!; try done.
  rewrite Hcn. revert He. apply (exec_preserves (λ s0, n (bar s0) = n (bar s))).
  - intros ev0 s0 s0' H0 Hs0. by rewrite (step_n _ _ _ Hs0).
  - done.
Qed.

Lemma reset_atomic_witness :
  ∃ s', exec (solo 0 4) reset_locked_state = Some s' ∧
        pc_of s' 0 = Some (PReturn None).
Proof.
  apply (reset_atomic 1 reset_state 0
           {| at_pc := PResetLock; cb := None; loc_count := 0;
              loc_done := 0%nat; err := None |} CaseDone reset_locked_state).
  - exists (GoAwait None :: solo 0 7). reflexivity.
  - reflexivity.
  - reflexivity.
  - reflexivity.
Defined.

(** ** The counter *)

Lemma arrived_range p : 0 ≤ arrived p ≤ 1.
Proof. destruct p; simpl; lia. Qed.

Lemma total_range l : 0 ≤ total l ≤ Z.of_nat (length l).
Proof.
  induction l as [|th l IH]; simpl; [lia|].
  pose proof (arrived_range (at_pc th)). lia.
Qed.

Lemma total_insert l : ∀ g th th',
  l !! g = Some th →
  total (<[g := th']> l) = total l - arrived (at_pc th) + arrived (at_pc th').
Proof.
  induction l as [|x l IH]; intros [|g] th th' Hg; simpl in *; simplify_eq.
  - lia.
  - rewrite (IH g th th' Hg). lia.
Qed.

Lemma total_snoc l th : total (l ++ [th]) = total l + arrived (at_pc th).
Proof. induction l as [|x l IH]; simpl; lia. Qed.

(** A goroutine that has not arrived leaves room for one more. *)
Lemma total_not_arrived l : ∀ g th,
  l !! g = Some th → arrived (at_pc th) = 0 →
  total l ≤ Z.of_nat (length l) - 1.
Proof.
  induction l as [|x l IH]; intros [|g] th Hg Ha; simpl in *; simplify_eq.
  - pose proof (total_range l). lia.
  - pose proof (IH g th Hg Ha). pose proof (arrived_range (at_pc x)). lia.
Qed.

Lemma step_length ev s s' :
  step ev s = Some s' → (length (gs s) ≤ length (gs s'))%nat.
Proof.
  intros H. step_inv H; simpl; rewrite ?length_app, ?length_insert; simpl; lia.
Qed.

Lemma exec_length evs : ∀ s s',
  exec evs s = Some s' → (length (gs s) ≤ length (gs s'))%nat.
Proof.
  induction evs as [|ev evs IH]; intros s s' He; simpl in He.
  - simplify_eq. lia.
  - destruct (step ev s) as [s1|] eqn:Hs; [|done].
    pose proof (step_length _ _ _ Hs). pose proof (IH _ _ He). lia.
Qed.

Lemma count_le_step ev s s' :
  0 ≤ n (bar s) ≤ MaxInt64 → count_le s → step ev s = Some s' → count_le s'.
Proof.
  intros Hn Hinv H Hlen. assert (Hl := step_length _ _ _ H).
  unfold count_le in Hinv. specialize (Hinv ltac:(lia)).
  pose proof (total_range (gs s)) as Htr.
  step_inv H; simpl in *; rewrite ?total_snoc; simpl; try lia.
  all: rewrite (total_insert _ _ _ _ Hg), Hpc; simpl; try lia.
  pose proof (total_not_arrived _ _ _ Hg) as Hna. rewrite Hpc in Hna.
  specialize (Hna eq_refl). rewrite length_insert in Hlen.
  rewrite wrap64_small; unfold MinInt64, MaxInt64 in *; lia.
Qed.

Lemma count_ge_step ev s s' :
  wf s → 0 ≤ n (bar s) → count_ge s → step ev s = Some s' → count_ge s'.
Proof.
  intros Hwf Hn Hinv H. unfold count_ge in *.
  destruct Hinv as [Hab|Hinv]; [left; eauto using step_aborted|].
  destruct (aborted s) eqn:Hab; [left; eauto using step_aborted|].
  assert (Hlen : (abort (bar s) < length (chans s))%nat).
  { rewrite (wf_abort _ Hwf). pose proof (wf_heap _ Hwf). lia. }
  destruct Hinv as [Hc|(g0 & th0 & Hg0 & Hov)].
  - step_inv H; simpl; auto.
    all: try (left; unfold aborted; simpl; eauto using closed_close_eq; fail).
    right. right. exists g, (goto PCopy th). split; [|by left].
    apply list_lookup_insert_eq. by eapply lookup_lt_Some.
  - destruct (event_cases ev g0) as [[c ->]|Hev].
    + assert (Hlt := lookup_lt_Some _ _ _ Hg0).
      assert (Hmu := wf_locked _ Hwf _ _ Hg0).
      assert (Hlc : at_pc th0 ≠ PCopy → loc_count th0 < 0).
      { unfold over_arriving in Hov. intuition. }
      rewrite (step_run _ _ _ _ Hg0) in H.
      unfold Await, wait, reset, Abort, make in H. unfold over_arriving in Hov.
      destruct (at_pc th0) eqn:Hpc; try (by intuition); repeat case_match;
        simplify_eq; simpl.
      all: try (specialize (Hmu eq_refl); congruence).
      all: try (specialize (Hlc ltac:(done))).
      all: rewrite ?Z.ltb_lt, ?Z.ltb_ge in *; try lia.
      all: try (left; unfold aborted in *; simpl; eauto using closed_close_eq;
                fail).
      all: try (left; unfold aborted in *; simpl; apply close_None; done).
      all: try (destruct (Z.le_gt_cases 0 (count (bar s))); [auto|]).
      all: right; right; eexists g0, _;
        (split; [apply list_lookup_insert_eq; done|]);
        unfold over_arriving; simpl; auto.
    + right. right. exists g0, th0. split; [|done]. eapply step_same; eauto.
Qed.

Lemma over_state_reachable : reachable 1 over_state.
Proof. exists over_schedule. vm_compute. reflexivity. Qed.

(** C7, counterexample: two concurrent calls on a barrier of one party;
    after the decrement of the second the counter is -1 and the abort signal
    is not set. *)
Lemma count_negative_unaborted : ¬ (∀ s, reachable 1 s → count_in_range s).
Proof.
  intros H. specialize (H over_state over_state_reachable eq_refl).
  vm_compute in H. destruct H as [H _]. by apply H.
Qed.

(** C7, amended.  In every state of a barrier made by [New(k)] with
    [0 ≤ k]: the counter is at most [b.n], as long as no more than [2^63]
    calls were made in all; and while the abort signal is not set the
    counter is negative only if some call of [Await] is over-arriving: it
    has decremented the counter and is on its way to [Abort]. *)
Theorem count_bounds k s :
  0 ≤ k ≤ MaxInt64 → reachable k s →
  (Z.of_nat (length (gs s)) ≤ 2 ^ 63 → count (bar s) ≤ n (bar s)) ∧
  (aborted s = false → count (bar s) < 0 →
   ∃ g th, gs s !! g = Some th ∧ over_arriving th).
Proof.
  intros Hk Hr.
  assert (Hn : ∀ s, reachable k s → n (bar s) = k).
  { intros. apply n_reachable; [unfold MinInt64; lia|done]. }
  assert (Hinv : count_le s ∧ count_ge s).
  { assert (Hall : reachable k s ∧ count_le s ∧ count_ge s);
      [|by destruct Hall].
    revert s Hr. apply reachable_preserves.
    - split; [apply reachable_New|]. unfold count_le, count_ge. simpl.
      rewrite wrap64_small by (unfold MinInt64; lia).
      split; [lia|right; left; lia].
    - intros ev s s' (Hr & Hle & Hge) Hs.
      assert (Hr' : reachable k s') by (eapply (reachable_exec _ s [ev]); eauto;
        simpl; by rewrite Hs).
      specialize (Hn s Hr). split_and!; [done|..].
      + apply (count_le_step ev s s'); [lia|done..].
      + apply (count_ge_step ev s s'); [by eapply wf_reachable|lia|done..]. }
  destruct Hinv as [Hle Hge]. split.
  - intros Hlen. apply Hle, Hlen.
  - intros Hab Hc. destruct Hge as [?|[?|?]]; [congruence|lia|done].
Qed.

Lemma count_bounds_witness :
  (Z.of_nat (length (gs over_state)) ≤ 2 ^ 63 →
   count (bar over_state) ≤ n (bar over_state)) ∧
  (aborted over_state = false → count (bar over_state) < 0 →
   ∃ g th, gs over_state !! g = Some th ∧ over_arriving th).
Proof.
  apply (count_bounds 1 over_state).
  - unfold MaxInt64. lia.
  - exists over_schedule. vm_compute. reflexivity.
Defined.

(** ** Barriers of non-positive party size *)

Lemma stuck_ok_mono s s' th :
  count (bar s') < 0 ∨ count (bar s') = count (bar s) →
  stuck_ok s th → stuck_ok s' th.
Proof. unfold stuck_ok. destruct (at_pc th); try done. lia. Qed.

Lemma never_round_step ev s s' :
  wf s → MinInt64 < n (bar s) ≤ 0 →
  never_round s → step ev s = Some s' → never_round s'.
Proof.
  intros Hwf Hn Hinv H Hlen. assert (Hl := step_length _ _ _ H).
  rewrite (step_n _ _ _ H) in *.
  unfold never_round in Hinv. specialize (Hinv ltac:(lia)).
  destruct Hinv as (Hc & Hst & Hcalls & Hdone & Hopen).
  pose proof (total_range (gs s)) as Htr.
  assert (Hab := wf_abort _ Hwf).
  assert (Hmu := wf_locked _ Hwf).
  unfold no_round.
  step_inv H; simpl in *; rewrite ?total_snoc; simpl.
  all: try (specialize (Hst _ _ Hg) as Hme; unfold stuck_ok in Hme;
            rewrite Hpc in Hme; try done).
  all: try (specialize (Hmu _ _ Hg); rewrite Hpc in Hmu;
            specialize (Hmu eq_refl); congruence).
  all: rewrite ?(total_insert _ _ _ _ Hg), ?Hpc; simpl.
  all: try match goal with
       | |- context [wrap64 (count (bar ?s0) - 1)] =>
           pose proof (total_not_arrived _ _ _ Hg) as Hna;
           rewrite Hpc in Hna; specialize (Hna eq_refl);
           rewrite length_insert in Hlen;
           rewrite (wrap64_small (count (bar s0) - 1))
             by (unfold MinInt64, MaxInt64 in *; lia)
       end.
  all: rewrite ?Z.ltb_lt, ?Z.ltb_ge in *.
  all: split_and!; try done; try lia.
  all: try match goal with
       | Hcl : close _ (abort _) = Some _ |- closed _ _ = false =>
           rewrite (closed_close_ne _ _ _ _ Hcl) by (rewrite Hab; done); done
       end.
  all: intros g' th' Hg'; lk.
  all: try (eapply stuck_ok_mono; [|eapply Hst; eassumption]; simpl; lia).
  all: unfold stuck_ok; simpl; try done; try lia.
Qed.

Lemma never_round_reachable k s :
  MinInt64 < k ≤ 0 → reachable k s → never_round s.
Proof.
  intros Hk Hr.
  assert (Hn : ∀ s, reachable k s → n (bar s) = k).
  { intros. apply n_reachable; [unfold MaxInt64, MinInt64 in *; lia|done]. }
  assert (Hall : reachable k s ∧ never_round s); [|by destruct Hall].
  revert s Hr. apply reachable_preserves.
  - split; [apply reachable_New|]. unfold never_round, no_round. simpl.
    rewrite wrap64_small by (unfold MaxInt64, MinInt64 in *; lia).
    intros _. split_and!; try done; lia.
  - intros ev s s' (Hr & Hinv) Hs.
    assert (Hr' : reachable k s').
    { eapply (reachable_exec _ s [ev]); eauto. simpl. by rewrite Hs. }
    split; [done|]. specialize (Hn s Hr).
    apply (never_round_step ev s s'); [by eapply wf_reachable|lia|done..].
Qed.

(** The first call of [Await] on a barrier of non-positive party size, run
    alone: entry check, lock, decrement, copy, unlock, dispatch, [Abort]. *)
Lemma first_await k f :
  MinInt64 < k ≤ 0 →
  exec (GoAwait f :: solo 0 7) (New k) =
  Some {| bar := {| mu := false; n := k; count := k - 1;
                    done := 0%nat; abort := 1%nat |};
          chans := [false; true];
          gs := [ {| at_pc := PReturn (Some ErrBarrierMisused); cb := f;
                     loc_count := k - 1; loc_done := 0%nat; err := None |} ];
          calls := [] |}.
Proof.
  intros Hk. unfold New.
  rewrite (wrap64_small k) by (unfold MaxInt64, MinInt64 in *; lia).
  assert (Hw : wrap64 (k - 1) = k - 1)
    by (apply wrap64_small; unfold MaxInt64, MinInt64 in *; lia).
  assert (Hlt : (k - 1 <? 0) = true) by (apply Z.ltb_lt; lia).
  unfold solo. cbn -[wrap64 Z.ltb Z.sub]. rewrite Hw. 
  cbn -[wrap64 Z.ltb Z.sub]. rewrite Hlt. reflexivity.
Qed.

(** [New(math.MinInt64)]: the decrement wraps around to [math.MaxInt64],
    and the first call waits, with the barrier not aborted. *)
Lemma min_int_waits :
  ∃ s, exec (GoAwait None :: solo 0 6) (New MinInt64) = Some s ∧
       gs s !! 0%nat = Some {| at_pc := PWait; cb := None;
                               loc_count := MaxInt64; loc_done := 0%nat;
                               err := None |} ∧
       aborted s = false ∧
       step (Run 0 CaseDone) s = None ∧ step (Run 0 CaseAbort) s = None.
Proof. eexists. split; [vm_compute; reflexivity|]. split_and!; reflexivity. Qed.

(** C10, counterexample: the party size [math.MinInt64]. *)
Lemma min_int_not_misused :
  ¬ (∀ k, MinInt64 ≤ k ≤ 0 → first_await_misused k).
Proof.
  intros H. destruct (H MinInt64) as (s & He & _).
  - unfold MinInt64. lia.
  - vm_compute in He. discriminate He.
Qed.

(** ** More about the code: the mutex and the channels *)

(** The mutex is held exactly while one goroutine is between [b.Lock()] and
    [b.Unlock()], in [Await] or in [reset], and never by two: the accesses
    of [b.count] and [b.done] exclude each other. *)
Theorem mutex_exclusive k s :
  reachable k s →
  (∀ g1 g2 th1 th2,
     gs s !! g1 = Some th1 → gs s !! g2 = Some th2 →
     in_cs (at_pc th1) = true → in_cs (at_pc th2) = true → g1 = g2) ∧
  (mu (bar s) = true ↔
   ∃ g th, gs s !! g = Some th ∧ in_cs (at_pc th) = true).
Proof.
  intros Hr. assert (Hwf := wf_reachable _ _ Hr). split.
  - apply (wf_mutex _ Hwf).
  - split; [apply (wf_holder _ Hwf)|].
    intros (g & th & Hg & Hcs). by apply (wf_locked _ Hwf g th).
Qed.

Lemma mutex_exclusive_witness :
  (∀ g1 g2 th1 th2,
     gs reset_locked_state !! g1 = Some th1 →
     gs reset_locked_state !! g2 = Some th2 →
     in_cs (at_pc th1) = true → in_cs (at_pc th2) = true → g1 = g2) ∧
  (mu (bar reset_locked_state) = true ↔
   ∃ g th, gs reset_locked_state !! g = Some th ∧ in_cs (at_pc th) = true).
Proof.
  apply (mutex_exclusive 1 reset_locked_state).
  exists (GoAwait None :: solo 0 8). reflexivity.
Defined.

(** [b.abort] is the channel [New] made, for ever; [b.done] is another
    channel, it is open whenever the mutex is free, and [close(b.done)] in
    [reset] never panics. *)
Theorem round_signal_open k s :
  reachable k s →
  abort (bar s) = abort (bar (New k)) ∧
  done (bar s) ≠ abort (bar s) ∧
  (done (bar s) < length (chans s))%nat ∧
  (abort (bar s) < length (chans s))%nat ∧
  (mu (bar s) = false → closed (chans s) (done (bar s)) = false) ∧
  (∀ g th, gs s !! g = Some th → at_pc th = PResetClose →
     ∃ h, close (chans s) (done (bar s)) = Some h).
Proof.
  intros Hr. assert (Hwf := wf_reachable _ _ Hr).
  destruct (wf_done _ Hwf) as [Hd1 Hd2]. rewrite (wf_abort _ Hwf).
  pose proof (wf_heap _ Hwf). split_and!; try done; try lia.
  - intros Hmu. destruct (closed (chans s) (done (bar s))) eqn:Hc; [|done].
    destruct (wf_open _ Hwf Hc) as (g & th & Hg & Hpc).
    assert (Hl := wf_locked _ Hwf _ _ Hg). rewrite Hpc in Hl.
    specialize (Hl eq_refl). congruence.
  - intros g th Hg Hpc. by apply (reset_close_ok s g th).
Qed.

Lemma round_signal_open_witness :
  abort (bar round_state) = abort (bar (New 3)) ∧
  done (bar round_state) ≠ abort (bar round_state) ∧
  (done (bar round_state) < length (chans round_state))%nat ∧
  (abort (bar round_state) < length (chans round_state))%nat ∧
  (mu (bar round_state) = false →
   closed (chans round_state) (done (bar round_state)) = false) ∧
  (∀ g th, gs round_state !! g = Some th → at_pc th = PResetClose →
     ∃ h, close (chans round_state) (done (bar round_state)) = Some h).
Proof.
  apply (round_signal_open 3 round_state).
  exists round_schedule. vm_compute. reflexivity.
Defined.

(** The mutex is never held for good: from every state, at most four
    actions of the goroutine that holds it free it, and nobody else has to
    move. *)
Theorem mutex_released k s :
  reachable k s →
  ∃ evs s', exec evs s = Some s' ∧ mu (bar s') = false ∧
    (length evs ≤ 4)%nat ∧
    ∀ g th, gs s !! g = Some th → in_cs (at_pc th) = false →
            gs s' !! g = Some th.
Proof.
  intros Hr. assert (Hwf := wf_reachable _ _ Hr).
  assert (Haux : ∀ m s h th, wf s → gs s !! h = Some th →
    in_cs (at_pc th) = true → (cs_left (at_pc th) ≤ m)%nat →
    ∃ evs s', exec evs s = Some s' ∧ mu (bar s') = false ∧
      (length evs ≤ m)%nat ∧ ∀ g, g ≠ h → gs s' !! g = gs s !! g).
  { clear. induction m as [|m IH]; intros s h th Hwf Hg Hcs Hm.
    { destruct (at_pc th); simpl in *; done || lia. }
    destruct (cs_step _ _ _ Hwf Hg Hcs) as (s1 & th1 & Hs & Hg1 & Hcase).
    assert (Hwf1 := wf_step _ _ _ Hwf Hs).
    destruct Hcase as [[Hcs1 Hlt]|Hmu].
    - destruct (IH s1 h th1) as (evs & s' & He & Hmu & Hlen & Hfr);
        auto; [lia|].
      exists (Run h CaseDone :: evs), s'. cbn [exec]. rewrite Hs.
      split_and!; [done..|simpl; lia|]. intros g Hne. rewrite Hfr by done.
      eapply step_other; eauto.
    - exists [Run h CaseDone], s1. cbn [exec]. rewrite Hs.
      split_and!; [done..|simpl; lia|].
      intros g Hne. eapply step_other; eauto. }
  destruct (mu (bar s)) eqn:Hmu.
  - destruct (wf_holder _ Hwf Hmu) as (h & th & Hg & Hcs).
    destruct (Haux 4%nat s h th Hwf Hg Hcs) as (evs & s' & He & Hmu' & Hl & Hfr).
    { destruct (at_pc th); simpl; lia. }
    exists evs, s'. split_and!; [done..|]. intros g th' Hg' Hcs'.
    rewrite Hfr; [done|]. intros ->. congruence.
  - exists [], s. split_and!; auto; simpl; lia.
Qed.

Lemma mutex_released_witness :
  ∃ evs s', exec evs reset_locked_state = Some s' ∧ mu (bar s') = false ∧
    (length evs ≤ 4)%nat ∧
    ∀ g th, gs reset_locked_state !! g = Some th →
            in_cs (at_pc th) = false → gs s' !! g = Some th.
Proof.
  apply (mutex_released 1 reset_locked_state).
  exists (GoAwait None :: solo 0 8). reflexivity.
Defined.

(** ** More about the code: what [Await] returns *)

Lemma step_run_none g c s : gs s !! g = None → step (Run g c) s = None.
Proof. intros Hg. unfold step. by rewrite Hg. Qed.

Lemma tax_mono s s' g th :
  runs s' g = runs s g → (aborted s = true → aborted s' = true) →
  tax s g th → tax s' g th.
Proof.
  unfold tax. intros -> Hab. destruct (at_pc th); try done.
  intros [(? & ? & ? & ?)|[(? & [?|[? ?]] & ?)|(? & [(? & ? & ?)|?])]];
    auto 10.
Qed.

Lemma tax_step ev s s' :
  wf s → (∀ g th, gs s !! g = Some th → tax s g th) →
  step ev s = Some s' → ∀ g th, gs s' !! g = Some th → tax s' g th.
Proof.
  intros Hwf Htax H g' th' Hg'.
  assert (Hab := step_aborted _ _ _ H).
  assert (Hruns := λ Hev, step_runs_other _ _ _ g' H Hev).
  destruct (event_cases ev g') as [[c ->]|Hev].
  2:{ specialize (Hruns Hev). destruct ev as [f| |g0 c].
      - simpl in H. simplify_eq. simpl in Hg'. lk; [done|].
        eapply tax_mono; eauto.
      - simpl in H. simplify_eq. simpl in Hg'. lk; [done|].
        eapply tax_mono; eauto.
      - rewrite (step_other _ _ _ _ g' H) in Hg' by (intros ->; by apply (Hev c)).
        eapply tax_mono; eauto. }
  clear Hruns.
  destruct (gs s !! g') as [th|] eqn:Hg; [|by rewrite step_run_none in H].
  assert (Hlt := lookup_lt_Some _ _ _ Hg).
  assert (Ht := Htax _ _ Hg). assert (Herr := wf_err _ Hwf _ _ Hg).
  assert (Hbr := wf_branch _ Hwf _ _ Hg). assert (Hmu := wf_locked _ Hwf _ _ Hg).
  assert (Hcl := reset_close_ok _ _ _ Hwf Hg).
  rewrite (step_run _ _ _ _ Hg) in H.
  unfold Await, wait, reset, Abort, make in H.
  unfold tax, branch_ok in Ht, Hbr.
  destruct (at_pc th) eqn:Hpc; try done; repeat case_match; simplify_eq;
    simpl in Hg'; rewrite list_lookup_insert_eq in Hg' by done; simplify_eq.
  all: unfold tax, runs, aborted, cb_result, cb_runs in *; simpl in *;
    rewrite ?Z.ltb_lt, ?Z.ltb_ge in *.
  all: try (specialize (Hmu eq_refl); congruence).
  all: try (destruct Hcl as [? ?]; [done|congruence]).
  all: try (destruct Herr as [He1 He2]; [done|]).
  all: try done.
  all: try destruct (Nat.eq_dec g' g') as [_|?]; try done.
  all: rewrite ?He1, ?He2.
  all: try (split; done).
  all: try lia.
  all: try match goal with H : cb _ = _ |- _ => rewrite H end.
  all: try done.
  all: try (left; split_and!; eauto using closed_close_eq; fail).
  all: try (right; left; split_and!; auto; fail).
  all: right; right; (split; [done|]);
    first [left; split_and!; done | right; done].
Qed.

Lemma tax_reachable k s g th :
  reachable k s → gs s !! g = Some th → tax s g th.
Proof.
  intros Hr.
  assert (Hall : reachable k s ∧ ∀ g th, gs s !! g = Some th → tax s g th);
    [|destruct Hall as [_ Hall]; apply Hall].
  revert s Hr. apply reachable_preserves.
  - split; [apply reachable_New|]. intros g0 th0 Hg0. done.
  - intros ev s s' [Hr Hinv] Hs. split.
    + eapply (reachable_exec _ s [ev]); eauto. simpl. by rewrite Hs.
    + eapply tax_step; eauto using wf_reachable.
Qed.

Lemma trace_snoc g evs : ∀ s s1 ev s',
  exec evs s = Some s1 → step ev s1 = Some s' →
  trace g (evs ++ [ev]) s = trace g evs s ++ own g ev s1.
Proof.
  induction evs as [|e0 evs IH]; intros s s1 ev s' He Hs.
  - simpl in He. simplify_eq. simpl. rewrite Hs. unfold own.
    destruct ev as [f| |g0 c]; try done.
    all: try (destruct (pc_of s1 g); [|done]; by case_decide).
  - simpl in He. destruct (step e0 s) as [s0|] eqn:Hs0; [|done].
    cbn [app trace]. rewrite Hs0, (IH _ _ _ _ He Hs).
    destruct e0 as [f| |g0 c]; try done.
    all: try (destruct (pc_of s g); [|done]; by case_decide).
Qed.

(** A goroutine that is not there has not acted. *)
Lemma trace_absent g evs : ∀ s s',
  exec evs s = Some s' → (length (gs s') ≤ g)%nat → trace g evs s = [].
Proof.
  induction evs as [|ev evs IH]; intros s s' He Hlen; [done|].
  simpl in He. destruct (step ev s) as [s1|] eqn:Hs; [|done].
  pose proof (step_length _ _ _ Hs). pose proof (exec_length _ _ _ He).
  cbn [trace]. rewrite Hs, (IH _ _ He Hlen).
  assert (Hn : pc_of s g = None).
  { unfold pc_of. rewrite lookup_ge_None_2; [done|lia]. }
  rewrite Hn. by destruct ev.
Qed.

Lemma way_mono s s' g tr th :
  runs s' g = runs s g → (aborted s = true → aborted s' = true) →
  (∀ c, closed (chans s) c = true → closed (chans s') c = true) →
  way s g tr th → way s' g tr th.
Proof.
  unfold way. intros -> Hab Hcl. destruct (at_pc th); try done.
  - intros [? ?]. auto.
  - intros [?|[?|[?|[?|?]]]]; destruct_and?; auto 10.
    right. right. right. left. split_and!; auto.
    match goal with H : _ ∨ _ |- _ => destruct H as [?|[? ?]] end; auto.
Qed.

Lemma own_run g c s th : gs s !! g = Some th → own g (Run g c) s = [at_pc th].
Proof. intros Hg. unfold own, pc_of. rewrite Hg. simpl. by rewrite decide_True. Qed.

Lemma own_other g ev s : (∀ c, ev ≠ Run g c) → own g ev s = [].
Proof.
  intros Hev. unfold own. destruct ev as [f| |g0 c]; try done.
  destruct (pc_of s g); [|done]. rewrite decide_False; [done|].
  intros ->. by apply (Hev c).
Qed.

Lemma way_step g ev s s' tr :
  wf s → (∀ th, gs s !! g = Some th → tax s g th) →
  (∀ th, gs s !! g = Some th → way s g tr th) →
  ((length (gs s) ≤ g)%nat → tr = []) →
  step ev s = Some s' →
  ∀ th', gs s' !! g = Some th' → way s' g (tr ++ own g ev s) th'.
Proof.
  intros Hwf Htax Hway Hnew H th' Hg'.
  assert (Hab := step_aborted _ _ _ H).
  assert (Hcl := λ c, step_closed_mono _ _ _ c H).
  destruct (event_cases ev g) as [[c ->]|Hev].
  - destruct (gs s !! g) as [th|] eqn:Hg; [|by rewrite step_run_none in H].
    rewrite (own_run _ _ _ _ Hg).
    assert (Hlt := lookup_lt_Some _ _ _ Hg).
    specialize (Htax _ eq_refl). specialize (Hway _ eq_refl).
    assert (Herr := wf_err _ Hwf _ _ Hg).
    assert (Hbr := wf_branch _ Hwf _ _ Hg).
    rewrite (step_run _ _ _ _ Hg) in H.
    unfold Await, wait, reset, Abort, make in H.
    unfold way, tax, branch_ok in *.
    destruct (at_pc th) eqn:Hpc; try done; repeat case_match; simplify_eq;
      simpl in Hg'; rewrite list_lookup_insert_eq in Hg' by done; simplify_eq;
      unfold aborted, runs in *; simpl in *; try done.
    all: try (destruct Herr as [_ Hru]; [done|]).
    all: destruct_and?; simplify_eq; simpl.
    all: try (by left).
    all: try (right; left; split_and!; eauto using closed_close_eq; done).
    all: try (right; right; left; split_and!; auto; done).
    all: try (right; right; right; left; split_and!; auto; done).
    all: try (right; right; right; right; split_and!; auto; done).
  - rewrite (own_other _ _ _ Hev), app_nil_r.
    assert (Hruns := step_runs_other _ _ _ g H Hev).
    destruct (gs s !! g) as [th|] eqn:Hg.
    + rewrite (step_same _ _ _ _ _ H Hev Hg) in Hg'. simplify_eq.
      eapply way_mono; eauto.
    + apply lookup_ge_None in Hg. rewrite (Hnew Hg).
      destruct ev as [f| |g0 c0]; simpl in H; simplify_eq; simpl in Hg'.
      * lk; [done|lia].
      * lk; [done|lia].
      * rewrite (step_other _ _ _ _ g H) in Hg'
          by (intros ->; by apply (Hev c0)).
        apply lookup_lt_Some in Hg'. lia.
Qed.

(** Every goroutine is on one of the ways through [Await]. *)
Lemma way_reachable k evs : ∀ s,
  exec evs (New k) = Some s →
  ∀ g th, gs s !! g = Some th → way s g (trace g evs (New k)) th.
Proof.
  induction evs as [|ev evs IH] using rev_ind; intros s He g th Hg.
  - simpl in He. simplify_eq.
  - rewrite exec_app in He.
    destruct (exec evs (New k)) as [s1|] eqn:He1; [|done]. simpl in He.
    destruct (step ev s1) as [s'|] eqn:Hs; [|done]. simplify_eq.
    assert (Hr : reachable k s1) by (by exists evs).
    rewrite (trace_snoc g evs _ _ _ _ He1 Hs).
    eapply (way_step g ev s1 s); eauto using wf_reachable.
    + intros th1 Hg1. eapply tax_reachable; eauto.
    + intros Hlen. eapply trace_absent; eauto.
Qed.

(** The ways out of [Await].  A call that has returned [e] took one of
    five ways, and these were all its actions: it returned
    [ErrBarrierAborted] from its entry check, on an aborted barrier; or it
    decremented the counter, found it negative, called [Abort] and returned
    [ErrBarrierMisused]; or found it positive, waited and was woken by the
    abort signal to return [ErrBarrierAborted]; or was woken by its round
    signal, checked the abort signal again and returned [nil], or
    [ErrBarrierAborted] on an aborted barrier; or found zero, ran its
    callback, went through reset and returned what the callback returned
    ([nil] without a callback).  Only on the last way did it run its
    callback, once.  So a call that decremented the counter and found zero
    returned the result of its callback. *)
Theorem Await_results k evs s g th e :
  exec evs (New k) = Some s → gs s !! g = Some th → at_pc th = PReturn e →
  ((trace g evs (New k) = [PAwait] ∧ e = Some ErrBarrierAborted ∧
    aborted s = true ∧ runs s g = 0%nat) ∨
   (trace g evs (New k) = arriving ++ [PMisuse] ∧ loc_count th < 0 ∧
    e = Some ErrBarrierMisused ∧ aborted s = true ∧ runs s g = 0%nat) ∨
   (trace g evs (New k) = arriving ++ [PWait] ∧ 0 < loc_count th ∧
    e = Some ErrBarrierAborted ∧ aborted s = true ∧ runs s g = 0%nat) ∨
   (trace g evs (New k) = arriving ++ [PWait; PRecheck] ∧
    0 < loc_count th ∧ closed (chans s) (loc_done th) = true ∧
    (e = None ∨ (e = Some ErrBarrierAborted ∧ aborted s = true)) ∧
    runs s g = 0%nat) ∨
   (trace g evs (New k) =
      arriving ++ [PCallback; PResetLock; PResetClose; PResetMake;
                   PResetCount; PResetUnlock] ∧
    loc_count th = 0 ∧ e = cb_result (cb th) ∧
    runs s g = cb_runs (cb th))) ∧
  (In PDec (trace g evs (New k)) → loc_count th = 0 →
   e = cb_result (cb th) ∧ runs s g = cb_runs (cb th) ∧
   In PCallback (trace g evs (New k))).
Proof.
  intros He Hg Hpc. pose proof (way_reachable k evs s He g th Hg) as Hw.
  unfold way in Hw. rewrite Hpc in Hw. split; [done|].
  intros Hdec Hz.
  destruct Hw as [(Ht & _)|[(_ & ? & _)|[(_ & ? & _)|[(_ & ? & _)|Hw]]]];
    try lia.
  - rewrite Ht in Hdec. by destruct Hdec as [?|[]].
  - destruct Hw as (-> & _ & ? & ?). split_and!; [done..|]. simpl. auto 10.
Qed.

Lemma Await_results_witness :
  ((trace 0 (GoAwait (Some (Some (ErrCallback "some error"))) :: solo 0 12)
      (New 1) = [PAwait] ∧
    Some (ErrCallback "some error") = Some ErrBarrierAborted ∧
    aborted called_state = true ∧ runs called_state 0 = 0%nat) ∨
   (trace 0 (GoAwait (Some (Some (ErrCallback "some error"))) :: solo 0 12)
      (New 1) = arriving ++ [PMisuse] ∧ 0 < 0 ∧
    Some (ErrCallback "some error") = Some ErrBarrierMisused ∧
    aborted called_state = true ∧ runs called_state 0 = 0%nat) ∨
   (trace 0 (GoAwait (Some (Some (ErrCallback "some error"))) :: solo 0 12)
      (New 1) = arriving ++ [PWait] ∧ 0 < 0 ∧
    Some (ErrCallback "some error") = Some ErrBarrierAborted ∧
    aborted called_state = true ∧ runs called_state 0 = 0%nat) ∨
   (trace 0 (GoAwait (Some (Some (ErrCallback "some error"))) :: solo 0 12)
      (New 1) = arriving ++ [PWait; PRecheck] ∧ 0 < 0 ∧
    closed (chans called_state) 0 = true ∧
    (Some (ErrCallback "some error") = None ∨
     (Some (ErrCallback "some error") = Some ErrBarrierAborted ∧
      aborted called_state = true)) ∧
    runs called_state 0 = 0%nat) ∨
   (trace 0 (GoAwait (Some (Some (ErrCallback "some error"))) :: solo 0 12)
      (New 1) =
      arriving ++ [PCallback; PResetLock; PResetClose; PResetMake;
                   PResetCount; PResetUnlock] ∧
    0 = 0 ∧
    Some (ErrCallback "some error") =
      cb_result (Some (Some (ErrCallback "some error"))) ∧
    runs called_state 0 =
      cb_runs (Some (Some (ErrCallback "some error"))))) ∧
  (In PDec
     (trace 0 (GoAwait (Some (Some (ErrCallback "some error"))) :: solo 0 12)
        (New 1)) → 0 = 0 →
   Some (ErrCallback "some error") =
     cb_result (Some (Some (ErrCallback "some error"))) ∧
   runs called_state 0 = cb_runs (Some (Some (ErrCallback "some error"))) ∧
   In PCallback
     (trace 0 (GoAwait (Some (Some (ErrCallback "some error"))) :: solo 0 12)
        (New 1))).
Proof.
  apply (Await_results 1
           (GoAwait (Some (Some (ErrCallback "some error"))) :: solo 0 12)
           called_state 0
           {| at_pc := PReturn (Some (ErrCallback "some error"));
              cb := Some (Some (ErrCallback "some error"));
              loc_count := 0; loc_done := 0%nat;
              err := Some (ErrCallback "some error") |}
           (Some (ErrCallback "some error"))).
  - vm_compute. reflexivity.
  - vm_compute. reflexivity.
  - reflexivity.
Defined.

(** ** Barriers of non-positive party size: the claim *)

Lemma first_step k ev s s' th :
  wf s → MinInt64 < k ≤ 0 → gs s !! 0%nat = Some th → first_inv k s th →
  only 0 ev = true → step ev s = Some s' →
  ∃ th', gs s' !! 0%nat = Some th' ∧ first_inv k s' th'.
Proof.
  intros Hwf Hk Hg Hinv Hev H.
  assert (Hlt := lookup_lt_Some _ _ _ Hg).
  assert (Hmu := wf_locked _ Hwf _ _ Hg).
  destruct ev as [f| |g c]; simpl in *.
  - simplify_eq. exists th. split; [by apply lookup_app_l_Some|done].
  - simplify_eq. exists th. split; [by apply lookup_app_l_Some|done].
  - apply bool_decide_eq_true in Hev as ->.
    destruct (at_pc th) eqn:Hpc;
      try (unfold first_inv in Hinv; rewrite Hpc in Hinv; done).
    all: try (rewrite Hg in H; unfold Await, wait, reset in H;
              rewrite Hpc in H; unfold first_inv in Hinv; rewrite Hpc in Hinv;
              repeat case_match; simplify_eq;
              (eexists; split; [apply list_lookup_insert_eq; done|]);
              unfold first_inv, aborted in *; simpl in *;
              rewrite ?Z.ltb_lt, ?Z.ltb_ge in *; destruct_and?;
              try done; try lia).
    + split; [done|]. rewrite wrap64_small; unfold MinInt64, MaxInt64 in *; lia.
    + rewrite Hg in H. unfold Await, Abort in H. rewrite Hpc in H.
      unfold first_inv in Hinv. rewrite Hpc in Hinv. destruct Hinv as [Hab Hlc].
      destruct (close_open (chans s) (abort (bar s))) as [h Hh]; [|done|].
      { rewrite (wf_abort _ Hwf). pose proof (wf_heap _ Hwf). lia. }
      rewrite Hh in H. simplify_eq.
      eexists; split; [apply list_lookup_insert_eq; done|].
      unfold first_inv, aborted. simpl. split_and!; try done.
      by eapply closed_close_eq.
Qed.

Lemma first_exec k evs : ∀ s s' th,
  reachable k s → MinInt64 < k ≤ 0 → gs s !! 0%nat = Some th →
  first_inv k s th → forallb (only 0) evs = true → exec evs s = Some s' →
  ∃ th', gs s' !! 0%nat = Some th' ∧ first_inv k s' th'.
Proof.
  induction evs as [|ev evs IH]; intros s s' th Hr Hk Hg Hinv Hev He;
    simpl in *.
  - simplify_eq. eauto.
  - apply andb_prop in Hev as [Hev1 Hev].
    destruct (step ev s) as [s1|] eqn:Hs; [|done].
    destruct (first_step k ev s s1 th) as (th1 & Hg1 & Hinv1);
      eauto using wf_reachable.
    eapply (IH s1); eauto.
    eapply (reachable_exec _ s [ev]); eauto. simpl. by rewrite Hs.
Qed.

(** Two concurrent calls on a barrier of party size 0: the call that
    decrements first is overtaken on the misuse path and panics. *)
Lemma overtaken_panics :
  ∃ s, exec overtaken_schedule (New 0) = Some s ∧
       pc_of s 0 = Some PPanic ∧
       pc_of s 1 = Some (PReturn (Some ErrBarrierMisused)).
Proof. eexists. split; [vm_compute; reflexivity|]. split; reflexivity. Qed.


(** C10, amended.  On a barrier made by [New(k)] with
    [math.MinInt64 < k ≤ 0]: the first call of [Await], as long as no other
    call acts before it has returned (others may have been started), does
    not panic, and when it has returned it has found the counter at
    [k - 1], aborted the barrier and returned [ErrBarrierMisused]; run on
    its own it does return.  In every interleaving, as long as no more than
    [k + 2^63] calls were made in all, no round is ever completed: every
    decrement gives a negative value, no call waits, runs its callback,
    resets or returns [nil], [b.done] stays the unopened first round
    signal, and a call that has returned returned [ErrBarrierMisused] after
    a negative counter or [ErrBarrierAborted], on an aborted barrier. *)
Theorem nonpositive_party k :
  MinInt64 < k ≤ 0 →
  (∀ f, ∃ s th, exec (GoAwait f :: solo 0 7) (New k) = Some s ∧
     gs s !! 0%nat = Some th ∧
     at_pc th = PReturn (Some ErrBarrierMisused) ∧
     loc_count th = k - 1 ∧ aborted s = true) ∧
  (∀ f evs s, forallb (only 0) evs = true →
     exec (GoAwait f :: evs) (New k) = Some s →
     ∃ th, gs s !! 0%nat = Some th ∧ at_pc th ≠ PPanic ∧
       ∀ e, at_pc th = PReturn e →
         e = Some ErrBarrierMisused ∧ loc_count th = k - 1 ∧
         aborted s = true) ∧
  (∀ s, reachable k s → Z.of_nat (length (gs s)) ≤ k + 2 ^ 63 →
     no_round s ∧ (∀ g, pc_of s g ≠ Some (PReturn None)) ∧
     ∀ g th e, gs s !! g = Some th → at_pc th = PReturn e →
       aborted s = true ∧ runs s g = 0%nat ∧
       ((loc_count th < 0 ∧ e = Some ErrBarrierMisused) ∨
        e = Some ErrBarrierAborted)).
Proof.
  intros Hk. split_and!.
  - intros f. eexists _, _. split; [by apply first_await|]. done.
  - intros f evs s Hev He. cbn [exec step] in He.
    assert (Hw : wrap64 k = k)
      by (apply wrap64_small; unfold MinInt64, MaxInt64 in *; lia).
    assert (Hr : reachable k (spawn PAwait f (New k)))
      by (by exists [GoAwait f]).
    assert (H0 : first_inv k (spawn PAwait f (New k))
                   {| at_pc := PAwait; cb := f; loc_count := 0;
                      loc_done := 0%nat; err := None |}).
    { unfold first_inv. simpl. by rewrite Hw. }
    destruct (first_exec k evs _ s _ Hr Hk eq_refl H0 Hev He)
      as (th & Hg & Hinv).
    exists th. split; [done|]. unfold first_inv in Hinv. split.
    + intros Hp. by rewrite Hp in Hinv.
    + intros e Hp. by rewrite Hp in Hinv.
  - intros s Hr Hlen.
    assert (Hn : n (bar s) = k).
    { apply n_reachable; [unfold MaxInt64, MinInt64 in *; lia|done]. }
    destruct (never_round_reachable k s Hk Hr) as [_ Hnr]; [lia|].
    split; [done|]. destruct Hnr as (Hst & Hcalls & _). split.
    + intros g Hp. unfold pc_of in Hp.
      destruct (gs s !! g) as [th|] eqn:Hg; [|done]. simpl in Hp.
      specialize (Hst _ _ Hg). unfold stuck_ok in Hst.
      simplify_eq. by rewrite Hp in Hst.
    + intros g th e Hg Hp. specialize (Hst _ _ Hg). unfold stuck_ok in Hst.
      rewrite Hp in Hst. pose proof (tax_reachable k s g th Hr Hg) as Ht.
      unfold tax in Ht. rewrite Hp in Ht.
      assert (Hru : runs s g = 0%nat) by (unfold runs; by rewrite Hcalls).
      rewrite Hru in Ht. unfold cb_result, cb_runs in Ht.
      destruct Ht as [(? & ? & ? & _)|[(_ & [?|[? ?]] & _)|
                      (_ & [(? & ? & _)|[? ?]])]]; auto; try done.
      destruct (cb th); simpl in *; done.
Qed.

Lemma nonpositive_party_witness :
  (∀ f, ∃ s th, exec (GoAwait f :: solo 0 7) (New 0) = Some s ∧
     gs s !! 0%nat = Some th ∧
     at_pc th = PReturn (Some ErrBarrierMisused) ∧
     loc_count th = 0 - 1 ∧ aborted s = true) ∧
  (∀ f evs s, forallb (only 0) evs = true →
     exec (GoAwait f :: evs) (New 0) = Some s →
     ∃ th, gs s !! 0%nat = Some th ∧ at_pc th ≠ PPanic ∧
       ∀ e, at_pc th = PReturn e →
         e = Some ErrBarrierMisused ∧ loc_count th = 0 - 1 ∧
         aborted s = true) ∧
  (∀ s, reachable 0 s → Z.of_nat (length (gs s)) ≤ 0 + 2 ^ 63 →
     no_round s ∧ (∀ g, pc_of s g ≠ Some (PReturn None)) ∧
     ∀ g th e, gs s !! g = Some th → at_pc th = PReturn e →
       aborted s = true ∧ runs s g = 0%nat ∧
       ((loc_count th < 0 ∧ e = Some ErrBarrierMisused) ∨
        e = Some ErrBarrierAborted)).
Proof.
  apply (nonpositive_party 0). unfold MinInt64. lia.
Defined.

(** ** More about the code: the callback *)



(** ** More about the code: the round signal a waiter holds *)

Lemma sig_ok_frame s s' th :
  (∀ c, closed (chans s) c = true → closed (chans s') c = true) →
  done (bar s') = done (bar s) ∨
  (closed (chans s) (done (bar s)) = true ∧ at_pc th ≠ PResetMake) →
  sig_ok s th → sig_ok s' th.
Proof.
  unfold sig_ok. intros Hcl Hd.
  destruct (at_pc th); try done.
  all: try (intros [Heq|Hc]; [|by auto];
            destruct Hd as [->|[Hc _]]; [by left|right; apply Hcl; congruence]).
  destruct Hd as [->|[_ ?]]; [auto|done].
Qed.

Lemma sig_ok_step ev s s' :
  wf s → (∀ g th, gs s !! g = Some th → sig_ok s th) →
  step ev s = Some s' → ∀ g th, gs s' !! g = Some th → sig_ok s' th.
Proof.
  intros Hwf Hsig H g' th' Hg'.
  assert (Hcl := λ c, step_closed_mono _ _ _ c H).
  destruct (event_cases ev g') as [[c ->]|Hev].
  - destruct (gs s !! g') as [th|] eqn:Hg; [|by rewrite step_run_none in H].
    assert (Hlt := lookup_lt_Some _ _ _ Hg).
    assert (Ht := Hsig _ _ Hg).
    rewrite (step_run _ _ _ _ Hg) in H.
    unfold Await, wait, reset, Abort, make in H. unfold sig_ok in Ht.
    destruct (at_pc th) eqn:Hpc; try done; repeat case_match; simplify_eq;
      simpl in Hg'; rewrite list_lookup_insert_eq in Hg' by done; simplify_eq;
      unfold sig_ok; simpl; auto.
    all: try (destruct Ht; eauto using closed_close; fail).
    by eapply closed_close_eq.
  - assert (Hd : done (bar s') = done (bar s) ∨
                 (closed (chans s) (done (bar s)) = true ∧
                  at_pc th' ≠ PResetMake)).
    { destruct ev as [f| |g0 c0]; [simpl in H; simplify_eq; by left..|].
      destruct (gs s !! g0) as [th0|] eqn:Hg0; [|by rewrite step_run_none in H].
      destruct (decide (at_pc th0 = PResetMake)) as [Hp|Hp].
      - right. split.
        + specialize (Hsig _ _ Hg0). unfold sig_ok in Hsig. by rewrite Hp in Hsig.
        + intros Hp'.
          rewrite (step_other _ _ _ _ g' H) in Hg'
            by (intros ->; by apply (Hev c0)).
          apply (Hev c0). f_equal.
          eapply (wf_mutex _ Hwf); eauto; by rewrite ?Hp, ?Hp'.
      - left. rewrite (step_run _ _ _ _ Hg0) in H.
        unfold Await, wait, reset, Abort, make in H.
        destruct (at_pc th0) eqn:Hpc; try done; repeat case_match;
          simplify_eq; done. }
    assert (Hg : gs s !! g' = Some th' ∨
                 (at_pc th' = PAwait ∨ at_pc th' = PAbort)).
    { destruct (gs s !! g') as [th|] eqn:Hg.
      - left. pose proof (step_same _ _ _ _ _ H Hev Hg). congruence.
      - right. eapply step_new; eauto. }
    destruct Hg as [Hg|[Hp|Hp]].
    + eapply sig_ok_frame; eauto.
    + unfold sig_ok. by rewrite Hp.
    + unfold sig_ok. by rewrite Hp.
Qed.

Lemma sig_ok_reachable k s g th :
  reachable k s → gs s !! g = Some th → sig_ok s th.
Proof.
  intros Hr.
  assert (Hall : reachable k s ∧ ∀ g th, gs s !! g = Some th → sig_ok s th);
    [|destruct Hall as [_ Hall]; apply Hall].
  revert s Hr. apply reachable_preserves.
  - split; [apply reachable_New|]. intros g0 th0 Hg0. done.
  - intros ev s s' [Hr Hinv] Hs. split.
    + eapply (reachable_exec _ s [ev]); eauto. simpl. by rewrite Hs.
    + eapply sig_ok_step; eauto using wf_reachable.
Qed.

(** A waiter cannot miss its round: the round signal it copied under the
    mutex is [b.done] itself or a signal that has been opened since.  So a
    call blocked in the [select] of [wait] on a barrier that is not aborted
    holds the current [b.done], and a call whose round is over is not
    blocked. *)
Theorem waiter_holds_round_signal k s g th :
  reachable k s → gs s !! g = Some th → at_pc th = PWait →
  (loc_done th = done (bar s) ∨ closed (chans s) (loc_done th) = true) ∧
  (step (Run g CaseDone) s = None →
   loc_done th = done (bar s) ∧ aborted s = false) ∧
  (loc_done th ≠ done (bar s) → ∃ s', step (Run g CaseDone) s = Some s').
Proof.
  intros Hr Hg Hpc. pose proof (sig_ok_reachable k s g th Hr Hg) as Hs.
  unfold sig_ok in Hs. rewrite Hpc in Hs. split; [done|].
  rewrite (step_run _ _ _ _ Hg). unfold Await, wait. rewrite Hpc.
  split.
  - destruct (closed (chans s) (loc_done th)) eqn:Hc, (aborted s) eqn:Ha;
      try done.
    intros _. destruct Hs; [done|congruence].
  - intros Hne. destruct Hs as [?|Hc]; [done|]. rewrite Hc.
    destruct (aborted s); eauto.
Qed.

Lemma waiter_holds_round_signal_witness :
  (0%nat = done (bar waiter_wait_state) ∨
   closed (chans waiter_wait_state) 0 = true) ∧
  (step (Run 0 CaseDone) waiter_wait_state = None →
   0%nat = done (bar waiter_wait_state) ∧ aborted waiter_wait_state = false) ∧
  (0%nat ≠ done (bar waiter_wait_state) →
   ∃ s', step (Run 0 CaseDone) waiter_wait_state = Some s').
Proof.
  apply (waiter_holds_round_signal 2 waiter_wait_state 0
           {| at_pc := PWait; cb := None; loc_count := 1;
              loc_done := 0%nat; err := None |}).
  - exists (GoAwait None :: solo 0 6). reflexivity.
  - reflexivity.
  - reflexivity.
Defined.

(** ** The last arriver: its reset *)

(** A step leaves [b.done] as it is, or it is the [make] of a reset: the
    old signal is opened and the new one is the newest channel. *)
Lemma step_done ev s s' :
  wf s → (∀ g th, gs s !! g = Some th → sig_ok s th) →
  step ev s = Some s' →
  (length (chans s) ≤ length (chans s'))%nat ∧
  (done (bar s') = done (bar s) ∨
   (closed (chans s) (done (bar s)) = true ∧
    done (bar s') = length (chans s))).
Proof.
  intros Hwf Hsig H.
  step_inv H; simpl; rewrite ?length_app; simpl;
    try match goal with
        | Hc : close _ _ = Some _ |- _ => rewrite (close_length _ _ _ Hc)
        end;
    (split; [lia|]); auto.
  right. split; [|done]. specialize (Hsig _ _ Hg). unfold sig_ok in Hsig.
  by rewrite Hpc in Hsig.
Qed.

Lemma renewed_step f d len g ev s s' th :
  wf s → (∀ g th, gs s !! g = Some th → sig_ok s th) →
  gs s !! g = Some th → last_inv f g s th → renewed d len s th →
  step ev s = Some s' →
  ∃ th', gs s' !! g = Some th' ∧ renewed d len s' th'.
Proof.
  intros Hwf Hsig Hg [_ Hlast] (Hd & Hlen & Hpast & Hinv) H.
  destruct (wf_done _ Hwf) as [_ Hdl].
  assert (Hcl := λ c, step_closed_mono _ _ _ c H).
  destruct (step_done _ _ _ Hwf Hsig H) as [Hl' Hd'].
  assert (Hstate : (d ≤ done (bar s'))%nat ∧ (len ≤ length (chans s'))%nat ∧
    ((d < done (bar s'))%nat →
     closed (chans s') d = true ∧ (len ≤ done (bar s'))%nat)).
  { destruct Hd' as [->|[Hc ->]].
    - split_and!; [done|lia|]. intros Hlt. destruct (Hpast Hlt). auto.
    - split_and!; [lia..|]. intros _. split; [|lia]. apply Hcl.
      destruct (decide (d = done (bar s))) as [->|Hne]; [done|].
      apply Hpast. lia. }
  destruct Hstate as (Hs1 & Hs2 & Hs3).
  destruct (event_cases ev g) as [[c ->]|Hev].
  - assert (Hlt := lookup_lt_Some _ _ _ Hg).
    assert (Hmu := wf_locked _ Hwf _ _ Hg).
    assert (Hclose := reset_close_ok _ _ _ Hwf Hg).
    rewrite (step_run _ _ _ _ Hg) in H.
    unfold Await, wait, reset, Abort, make in H. unfold renewed.
    destruct (at_pc th) eqn:Hpc; try done; repeat case_match; simplify_eq;
      (eexists; split; [apply list_lookup_insert_eq; done|]);
      simpl in *; split_and!; try done.
    all: try (specialize (Hmu eq_refl); congruence).
    all: try (destruct Hclose as [? ?]; [done|congruence]).
    all: rewrite ?Z.ltb_lt, ?Z.ltb_ge in *; try lia.
    all: try (by destruct_and?).
    all: try apply closed_fresh.
    destruct (decide (d = done (bar s))) as [->|Hne];
      [by eapply closed_close_eq|apply Hs3; lia].
  - exists th. split; [eapply step_same; eauto|].
    unfold renewed. split_and!; try done.
    destruct (at_pc th) eqn:Hpc; try done.
    + apply Hcl, Hinv.
    + destruct (step_outside_cs ev s s' g th) as (_ & -> & _ & _ & ->);
        auto. by rewrite Hpc.
    + destruct (step_outside_cs ev s s' g th) as (-> & -> & _ & _ & ->);
        auto. { by rewrite Hpc. } by rewrite (step_n _ _ _ H).
    + destruct Hd' as [->|[_ ->]]; lia.
Qed.

(** Along every interleaving from the copy of the last arriver. *)
Lemma renewed_exec k f d len g evs : ∀ s s' th,
  reachable k s → gs s !! g = Some th → last_inv f g s th →
  renewed d len s th → exec evs s = Some s' →
  ∃ th', gs s' !! g = Some th' ∧ renewed d len s' th'.
Proof.
  induction evs as [|ev evs IH]; intros s s' th Hr Hg Hlast Hinv He.
  - simpl in He. simplify_eq. eauto.
  - simpl in He. destruct (step ev s) as [s1|] eqn:Hs; [|done].
    assert (Hwf := wf_reachable _ _ Hr).
    assert (Hr1 : reachable k s1).
    { eapply (reachable_exec _ s [ev]); eauto. simpl. by rewrite Hs. }
    destruct (renewed_step f d len g ev s s1 th) as (th1 & Hg1 & Hinv1);
      eauto using sig_ok_reachable.
    destruct (last_inv_exec f g [ev] s s1 th Hwf Hg Hlast)
      as (th2 & Hg2 & Hlast1 & _); [simpl; by rewrite Hs|].
    assert (th2 = th1) as -> by congruence.
    eapply IH; eauto.
Qed.


(** ** The last arriver, the claim *)

(** C1. A call of [Await] whose decrement left the counter at zero (it is
    at [PCopy], under the mutex, and [b.count] is 0) never panics in any
    interleaving; whenever it has returned, it returned the callback's own
    result ([nil] for a nil callback) whatever was aborted meanwhile, the
    callback ran as often as there is one (once, or not at all when it is
    nil), and the call's own actions were, in this order, the copy, the
    unlock, the dispatch, the callback and the five actions of reset.  Its
    reset resets the barrier: when the call is at the unlock of reset the
    counter is [b.n] again, the round signal the call found at its copy is
    opened, and [b.done] is an unopened channel that was made after the
    copy; the round signal stays opened and [b.done] a later channel when
    the call has returned.  Some schedule makes it return. *)
Theorem Await_last_arriver k s g th :
  reachable k s → gs s !! g = Some th →
  at_pc th = PCopy → count (bar s) = 0 →
  (∀ evs s' th', exec evs s = Some s' → gs s' !! g = Some th' →
     at_pc th' ≠ PPanic ∧
     (at_pc th' = PResetUnlock →
        count (bar s') = n (bar s') ∧
        closed (chans s') (done (bar s)) = true ∧
        closed (chans s') (done (bar s')) = false ∧
        (done (bar s) < done (bar s'))%nat ∧
        (length (chans s) ≤ done (bar s'))%nat) ∧
     ∀ e, at_pc th' = PReturn e →
       e = cb_result (cb th) ∧ runs s' g = cb_runs (cb th) ∧
       trace g evs s = [PCopy; PUnlock; PDispatch; PCallback; PResetLock;
                        PResetClose; PResetMake; PResetCount; PResetUnlock] ∧
       closed (chans s') (done (bar s)) = true ∧
       (done (bar s) < done (bar s'))%nat ∧
       (length (chans s) ≤ done (bar s'))%nat) ∧
  (∃ evs s', exec evs s = Some s' ∧
             pc_of s' g = Some (PReturn (cb_result (cb th)))).
Proof.
  intros Hr Hg Hpc Hc. assert (Hwf := wf_reachable _ _ Hr).
  assert (Hinv : last_inv (cb th) g s th).
  { split; [done|]. by rewrite Hpc. }
  assert (Hren : renewed (done (bar s)) (length (chans s)) s th).
  { unfold renewed. rewrite Hpc. split_and!; try done; lia. }
  split.
  - intros evs s' th' He Hg'.
    destruct (last_inv_exec _ _ _ _ _ _ Hwf Hg Hinv He)
      as (th2 & Hg2 & [Hcb Hinv2] & Htr).
    assert (th2 = th') as -> by congruence.
    destruct (renewed_exec k _ _ _ g evs s s' th Hr Hg Hinv Hren He)
      as (th3 & Hg3 & Hd & Hlen & Hpast & Hren').
    assert (th3 = th') as -> by congruence.
    split_and!.
    + intros Hp. by rewrite Hp in Hinv2.
    + intros Hp. rewrite Hp in Hren'. destruct Hren' as (Hlt & Hopen & Hcn).
      destruct (Hpast Hlt). done.
    + intros e He'. rewrite He' in Hinv2, Hren'. destruct Hinv2 as [-> ->].
      destruct (Hpast Hren').
      split_and!; try done. rewrite (Htr _ He'), Hpc. done.
  - eapply last_progress; eauto.
Qed.

Lemma Await_last_arriver_witness :
  (∀ evs s' th', exec evs last_arriver_state = Some s' →
     gs s' !! 0%nat = Some th' →
     at_pc th' ≠ PPanic ∧
     (at_pc th' = PResetUnlock →
        count (bar s') = n (bar s') ∧
        closed (chans s') (done (bar last_arriver_state)) = true ∧
        closed (chans s') (done (bar s')) = false ∧
        (done (bar last_arriver_state) < done (bar s'))%nat ∧
        (length (chans last_arriver_state) ≤ done (bar s'))%nat) ∧
     ∀ e, at_pc th' = PReturn e →
       e = cb_result (cb last_arriver_goroutine) ∧
       runs s' 0 = cb_runs (cb last_arriver_goroutine) ∧
       trace 0 evs last_arriver_state =
         [PCopy; PUnlock; PDispatch; PCallback; PResetLock;
          PResetClose; PResetMake; PResetCount; PResetUnlock] ∧
       closed (chans s') (done (bar last_arriver_state)) = true ∧
       (done (bar last_arriver_state) < done (bar s'))%nat ∧
       (length (chans last_arriver_state) ≤ done (bar s'))%nat) ∧
  (∃ evs s', exec evs last_arriver_state = Some s' ∧
     pc_of s' 0 = Some (PReturn (Some (ErrCallback "some error")))).
Proof.
  apply (Await_last_arriver 1 last_arriver_state 0 last_arriver_goroutine).
  - exists last_arriver_trace. reflexivity.
  - reflexivity.
  - reflexivity.
  - reflexivity.
Defined.

(** ** More about the code: [Abort] and the waiters *)

Lemma released_step g ev s s' th :
  wf s → gs s !! g = Some th → released s th → step ev s = Some s' →
  ∃ th', gs s' !! g = Some th' ∧ released s' th'.
Proof.
  intros Hwf Hg [Hab Hinv] H. assert (Hab' := step_aborted _ _ _ H Hab).
  destruct (event_cases ev g) as [[c ->]|Hev].
  - assert (Hlt := lookup_lt_Some _ _ _ Hg).
    rewrite (step_run _ _ _ _ Hg) in H. unfold Await, wait in H.
    destruct (at_pc th) eqn:Hpc; try done; repeat case_match; simplify_eq;
      (eexists; split; [apply list_lookup_insert_eq; done|]);
      (split; [done|]); simpl; done.
  - exists th. split; [eapply step_same; eauto|]. by split.
Qed.

(** [Abort] on a barrier that is not aborted sets the abort signal and
    returns; from then on no call blocked in the [select] of [wait] is
    blocked any more, and each of them returns [ErrBarrierAborted],
    whatever the scheduler does. *)
Theorem Abort_releases_waiters k s a tha c :
  reachable k s → gs s !! a = Some tha → at_pc tha = PAbort →
  aborted s = false →
  ∃ s1, step (Run a c) s = Some s1 ∧ pc_of s1 a = Some PAbortReturn ∧
    aborted s1 = true ∧
    ∀ g th, gs s1 !! g = Some th → at_pc th = PWait →
      (∀ c', ∃ s2, step (Run g c') s1 = Some s2) ∧
      ∀ evs s2 th2, exec evs s1 = Some s2 → gs s2 !! g = Some th2 →
        (at_pc th2 = PWait ∨ at_pc th2 = PRecheck ∨
         at_pc th2 = PReturn (Some ErrBarrierAborted)) ∧
        (∀ c', ∃ s3, at_pc th2 = PReturn (Some ErrBarrierAborted) ∨
                     step (Run g c') s2 = Some s3).
Proof.
  intros Hr Ha Hpa Hab. assert (Hwf := wf_reachable _ _ Hr).
  destruct (Abort_fresh s a tha c Hwf Ha (or_introl Hpa) Hab)
    as (s1 & Hs1 & Hab1 & Hp1).
  rewrite decide_True in Hp1 by done.
  exists s1. split_and!; [done..|].
  assert (Hwf1 := wf_step _ _ _ Hwf Hs1).
  intros g th Hg Hpc. split.
  - intros c'. rewrite (step_run _ _ _ _ Hg). unfold Await, wait.
    rewrite Hpc, Hab1. destruct (closed _ _), c'; eauto.
  - intros evs s2 th2 He Hg2.
    assert (Hrel : released s1 th) by (split; [done|by rewrite Hpc]).
    destruct (inv_exec released g (released_step g) evs s1 s2 th Hwf1 Hg Hrel He)
      as (th3 & Hg3 & Hab2 & Hrel2).
    assert (th3 = th2) as -> by congruence. split.
    + destruct (at_pc th2); try done; auto. subst. auto.
    + intros c'. rewrite (step_run _ _ _ _ Hg2). unfold Await, wait.
      destruct (at_pc th2) eqn:Hp2; try done.
      * rewrite Hab2. destruct (closed _ _), c'; eauto.
      * rewrite Hab2. eauto.
      * subst. exists s2. by left.
Qed.

Lemma Abort_releases_waiters_witness :
  ∃ s1, step (Run 1 CaseDone) abort_pending_state = Some s1 ∧
        pc_of s1 1 = Some PAbortReturn ∧ aborted s1 = true ∧
        ∀ c', ∃ s2, step (Run 0 c') s1 = Some s2.
Proof.
  destruct (Abort_releases_waiters 2 abort_pending_state 1
              {| at_pc := PAbort; cb := None; loc_count := 0;
                 loc_done := 0%nat; err := None |} CaseDone)
    as (s1 & Hs & Hp & Ha & Hw).
  - exists ([GoAwait None] ++ solo 0 6 ++ [GoAbort]). vm_compute. reflexivity.
  - reflexivity.
  - reflexivity.
  - reflexivity.
  - exists s1. split_and!; [done..|].
    vm_compute in Hs. injection Hs as <-.
    apply (Hw 0%nat {| at_pc := PWait; cb := None; loc_count := 1;
                       loc_done := 0%nat; err := None |}); reflexivity.
Defined.

(** ** More about the code: the barrier used as intended *)

Lemma sumw_insert w l : ∀ g th th',
  l !! g = Some th → sumw w (<[g := th']> l) = sumw w l - w th + w th'.
Proof.
  induction l as [|x l IH]; intros [|g] th th' Hg; simpl in *; simplify_eq.
  - lia.
  - rewrite (IH g th th' Hg). lia.
Qed.

Lemma sumw_snoc w l th : sumw w (l ++ [th]) = sumw w l + w th.
Proof. induction l as [|x l IH]; simpl; lia. Qed.

Lemma sumw_le w1 w2 l :
  (∀ th, w1 th ≤ w2 th) → sumw w1 l ≤ sumw w2 l.
Proof.
  intros Hw. induction l as [|x l IH]; simpl; [lia|].
  specialize (Hw x). lia.
Qed.

Lemma sumw_lt w1 w2 l : ∀ g th,
  (∀ th, w1 th ≤ w2 th) → l !! g = Some th → w1 th < w2 th →
  sumw w1 l < sumw w2 l.
Proof.
  induction l as [|x l IH]; intros [|g] th Hw Hg Hlt; simpl in *; simplify_eq.
  - pose proof (sumw_le w1 w2 l Hw). lia.
  - pose proof (IH g th Hw Hg Hlt). specialize (Hw x). lia.
Qed.

Lemma sumw_nonneg w l : (∀ th, 0 ≤ w th) → 0 ≤ sumw w l.
Proof.
  intros Hw. induction l as [|x l IH]; simpl; [lia|].
  specialize (Hw x). lia.
Qed.

Lemma sumw_elem w l : ∀ g th,
  (∀ th, 0 ≤ w th) → l !! g = Some th → w th ≤ sumw w l.
Proof.
  induction l as [|x l IH]; intros [|g] th Hw Hg; simpl in *; simplify_eq.
  - pose proof (sumw_nonneg w l Hw). lia.
  - pose proof (IH g th Hw Hg). specialize (Hw x). lia.
Qed.

Lemma cur_in_flight d th : cur d th ≤ in_flight th.
Proof.
  unfold cur, in_flight. destruct (at_pc th); try case_decide; lia.
Qed.

Lemma cur_nonneg d th : 0 ≤ cur d th.
Proof. unfold cur. destruct (at_pc th); try case_decide; lia. Qed.

Lemma proper_open ev s s' :
  wf s → proper_inv s → allowed s ev = true → step ev s = Some s' →
  aborted s' = false.
Proof.
  intros Hwf Hinv Hal H. assert (Hab := pi_open _ Hinv).
  assert (Hgood := pi_good _ Hinv).
  destruct (wf_done _ Hwf) as [Hd1 Hd2]. assert (Ha := wf_abort _ Hwf).
  unfold aborted in *.
  step_inv H; simpl in *; try done.
  all: try (specialize (Hgood _ _ Hg); unfold good in Hgood;
            rewrite Hpc in Hgood; done).
  - match goal with Hc : close _ _ = Some _ |- _ =>
      rewrite (closed_close_ne _ _ _ _ Hc) by congruence end. done.
  - rewrite closed_snoc; [done|]. pose proof (wf_heap _ Hwf). lia.
Qed.

Lemma proper_flying ev s s' :
  proper_inv s → allowed s ev = true → step ev s = Some s' →
  flying s' ≤ n (bar s').
Proof.
  intros Hinv Hal H. assert (Hf := pi_flying _ Hinv).
  rewrite (step_n _ _ _ H). unfold flying in *.
  step_inv H; simpl in *; rewrite ?sumw_snoc; try done.
  { apply Z.ltb_lt in Hal. unfold flying, in_flight in *. simpl. lia. }
  all: rewrite (sumw_insert _ _ _ _ _ Hg);
    remember (sumw in_flight (gs s)) as F; unfold in_flight; simpl;
    rewrite ?Hpc; simpl; lia.
Qed.

(** No goroutine is inside reset while another is inside the critical
    section of [Await]. *)
Lemma no_resetting s g th :
  wf s → gs s !! g = Some th → in_cs (at_pc th) = true →
  resetting (at_pc th) = false →
  ∀ g' th', gs s !! g' = Some th' → resetting (at_pc th') = false.
Proof.
  intros Hwf Hg Hcs Hr g' th' Hg'.
  destruct (resetting (at_pc th')) eqn:Hr'; [|done].
  assert (g' = g) as ->.
  { eapply (wf_mutex _ Hwf); eauto. by destruct (at_pc th'). }
  congruence.
Qed.

(** The decrement finds the counter positive. *)
Lemma proper_dec s g th :
  wf s → proper_inv s → gs s !! g = Some th → at_pc th = PDec →
  1 ≤ count (bar s).
Proof.
  intros Hwf Hinv Hg Hpc.
  assert (Ha := pi_arrivals _ Hinv). assert (Hf := pi_flying _ Hinv).
  assert (arrivals s < flying s).
  { unfold arrivals, flying. eapply sumw_lt; eauto using cur_in_flight.
    unfold cur, in_flight. rewrite Hpc. lia. }
  specialize (Ha (no_resetting s g th Hwf Hg ltac:(by rewrite Hpc)
                    ltac:(by rewrite Hpc))). lia.
Qed.

Lemma proper_count ev s s' :
  wf s → 0 ≤ n (bar s) ≤ MaxInt64 → proper_inv s →
  step ev s = Some s' → 0 ≤ count (bar s') ≤ n (bar s').
Proof.
  intros Hwf Hn Hinv H. assert (Hc := pi_count _ Hinv).
  assert (Hdec := proper_dec s). rewrite (step_n _ _ _ H).
  step_inv H; simpl in *; try done; try lia.
  specialize (Hdec _ _ Hwf Hinv Hg Hpc).
  rewrite wrap64_small; unfold MinInt64, MaxInt64 in *; lia.
Qed.

Lemma good_mono s s' th :
  (∀ c, closed (chans s) c = true → closed (chans s') c = true) →
  (at_pc th = PResetUnlock → count (bar s') = count (bar s)) →
  n (bar s') = n (bar s) →
  good s th → good s' th.
Proof.
  unfold good. intros Hcl Hc Hn. destruct (at_pc th); auto.
  intros Hx. rewrite Hn, Hc; auto.
Qed.

Lemma proper_good ev s s' :
  wf s → 0 ≤ n (bar s) ≤ MaxInt64 → proper_inv s → allowed s ev = true →
  step ev s = Some s' → ∀ g th, gs s' !! g = Some th → good s' th.
Proof.
  intros Hwf Hn Hinv Hal H g' th' Hg'.
  assert (Hgood := pi_good _ Hinv). assert (Hc := pi_count _ Hinv).
  assert (Hab := pi_open _ Hinv).
  assert (Hcl := λ c, step_closed_mono _ _ _ c H).
  assert (Hnn := step_n _ _ _ H).
  destruct (event_cases ev g') as [[c ->]|Hev].
  - destruct (gs s !! g') as [th|] eqn:Hg; [|by rewrite step_run_none in H].
    assert (Hlt := lookup_lt_Some _ _ _ Hg).
    assert (Ht := Hgood _ _ Hg).
    assert (Hmu := wf_locked _ Hwf _ _ Hg).
    assert (Hclose := reset_close_ok _ _ _ Hwf Hg).
    rewrite (step_run _ _ _ _ Hg) in H.
    unfold Await, wait, reset, Abort, make in H. unfold good in Ht.
    destruct (at_pc th) eqn:Hpc; try done; repeat case_match; simplify_eq;
      simpl in Hg'; rewrite list_lookup_insert_eq in Hg' by done; simplify_eq;
      unfold good, aborted in *; simpl in *;
      rewrite ?Z.ltb_lt, ?Z.ltb_ge in *; try done; try lia.
    all: try (specialize (Hmu eq_refl); congruence).
    all: try (destruct Hclose as [? ?]; [done|congruence]).
  - assert (Hold : gs s !! g' = Some th' → good s' th').
    { intros Hg. eapply good_mono; eauto. intros Hp.
      eapply (step_outside_cs ev s s' g' th'); eauto. by rewrite Hp. }
    destruct ev as [f| |g0 c0]; simpl in Hal; try done.
    + simpl in H. simplify_eq. simpl in Hg'. lk; [done|auto].
    + rewrite (step_other _ _ _ _ g' H) in Hg'
        by (intros ->; by apply (Hev c0)).
      auto.
Qed.

Lemma resetting_back (l : list Goroutine) g th th' :
  l !! g = Some th → resetting (at_pc th) = false →
  (∀ g0 th0, <[g := th']> l !! g0 = Some th0 → resetting (at_pc th0) = false) →
  ∀ g0 th0, l !! g0 = Some th0 → resetting (at_pc th0) = false.
Proof.
  intros Hg Hr Hall g0 th0 Hg0. destruct (decide (g0 = g)) as [->|Hne].
  - congruence.
  - apply (Hall g0). by rewrite list_lookup_insert_ne.
Qed.

Lemma resetting_here (l : list Goroutine) g th th' :
  l !! g = Some th → resetting (at_pc th') = true →
  (∀ g0 th0, <[g := th']> l !! g0 = Some th0 → resetting (at_pc th0) = false) →
  False.
Proof.
  intros Hg Hr Hall. specialize (Hall g th'). rewrite Hall in Hr; [done|].
  apply list_lookup_insert_eq. by eapply lookup_lt_Some.
Qed.

Lemma proper_arrivals ev s s' :
  wf s → 0 ≤ n (bar s) ≤ MaxInt64 → proper_inv s → allowed s ev = true →
  step ev s = Some s' →
  (∀ g th, gs s' !! g = Some th → resetting (at_pc th) = false) →
  n (bar s') - arrivals s' ≤ count (bar s').
Proof.
  intros Hwf Hn Hinv Hal H Hnr.
  assert (Hgood := pi_good _ Hinv). assert (Hc := pi_count _ Hinv).
  assert (Hab := pi_open _ Hinv). assert (Harr := pi_arrivals _ Hinv).
  assert (Hdec := proper_dec s).
  rewrite (step_n _ _ _ H). unfold arrivals in *.
  step_inv H; simpl in *; rewrite ?sumw_snoc; try done.
  { unfold cur at 2. simpl. rewrite Z.add_0_r. apply Harr.
    intros g th Hg. apply (Hnr g). by apply lookup_app_l_Some. }
  all: try (exfalso; eapply (resetting_here _ _ _ _ Hg); [|exact Hnr]; done).
  all: try (specialize (Hgood _ _ Hg) as Hme; unfold good in Hme;
            rewrite Hpc in Hme; try done).
  all: try congruence.
  all: try (pose proof (wf_locked _ Hwf _ _ Hg) as Hmu; rewrite Hpc in Hmu;
            specialize (Hmu eq_refl); congruence).
  all: try (destruct (reset_close_ok _ _ _ Hwf Hg Hpc); congruence).
  all: rewrite (sumw_insert _ _ _ _ _ Hg).
  all: pose proof (sumw_elem (cur (done (bar s))) (gs s) g th
                     (cur_nonneg _) Hg) as Hel.
  all: try (assert (Hnrs := resetting_back _ _ _ _ Hg
                               ltac:(by rewrite Hpc) Hnr);
            assert (Hs := Harr Hnrs)).
  all: try (specialize (Hdec _ _ Hwf Hinv Hg Hpc);
            rewrite wrap64_small by (unfold MinInt64, MaxInt64 in *; lia)).
  all: remember (sumw (cur (done (bar s))) (gs s)) as A.
  all: rewrite ?Z.ltb_lt, ?Z.ltb_ge in *.
  all: unfold cur in *; simpl in *; rewrite ?Hpc in *; simpl in *.
  all: try case_decide; try lia.
  exfalso. destruct (wf_open _ Hwf) as (g2 & th2 & Hg2 & Hp2); [congruence|].
  specialize (Hnrs g2 th2 Hg2). by rewrite Hp2 in Hnrs.
Qed.

Lemma proper_step ev s s' :
  wf s → 0 ≤ n (bar s) ≤ MaxInt64 → proper_inv s → allowed s ev = true →
  step ev s = Some s' → proper_inv s'.
Proof.
  intros Hwf Hn Hinv Hal H. split.
  - eapply proper_open; eauto.
  - eapply proper_flying; eauto.
  - eapply proper_count; eauto.
  - eapply proper_arrivals; eauto.
  - eapply proper_good; eauto.
Qed.

Lemma proper_New k : 0 ≤ k ≤ MaxInt64 → proper_inv (New k).
Proof.
  intros Hk. assert (Hw : wrap64 k = k)
    by (apply wrap64_small; unfold MinInt64; lia).
  split; unfold flying, arrivals; simpl; rewrite ?Hw; try done; try lia.
Qed.

(** What holds along every proper execution. *)
Lemma proper_exec (P : State → Prop) :
  (∀ ev s s', P s → allowed s ev = true → step ev s = Some s' → P s') →
  ∀ evs s s', P s → proper evs s = true → exec evs s = Some s' → P s'.
Proof.
  intros Hstep. induction evs as [|ev evs IH]; intros s s' HP Hp He;
    simpl in *.
  - by simplify_eq.
  - apply andb_prop in Hp as [Hal Hp].
    destruct (step ev s) as [s1|] eqn:Hs; [|done]. eauto.
Qed.

Lemma proper_reachable k evs s :
  0 ≤ k ≤ MaxInt64 → proper evs (New k) = true → exec evs (New k) = Some s →
  reachable k s ∧ proper_inv s.
Proof.
  intros Hk Hp He. revert Hp He.
  apply (proper_exec (λ s, reachable k s ∧ proper_inv s)).
  - intros ev s0 s0' [Hr Hinv] Hal Hs. split.
    + eapply (reachable_exec _ s0 [ev]); eauto. simpl. by rewrite Hs.
    + eapply proper_step; eauto using wf_reachable.
      rewrite (n_reachable k s0); [lia| |done].
      unfold MinInt64, MaxInt64 in *. lia.
  - split; [apply reachable_New|by apply proper_New].
Qed.

(** With at most [b.n] calls of [Await] in flight at any time and no call
    of [Abort] (the use the tests make of the barrier, for any party size up
    to [math.MaxInt64]): the barrier is never aborted, the counter stays
    between 0 and [b.n], no call panics or takes the misuse path, and every
    call that has returned was a waiter and got [nil], or the last arriver
    of its round and got the result of its callback, which it ran once. *)
Theorem proper_use k evs s :
  0 ≤ k ≤ MaxInt64 → proper evs (New k) = true → exec evs (New k) = Some s →
  aborted s = false ∧ 0 ≤ count (bar s) ≤ n (bar s) ∧
  ∀ g th, gs s !! g = Some th →
    at_pc th ≠ PPanic ∧ at_pc th ≠ PMisuse ∧
    ∀ e, at_pc th = PReturn e →
      (0 < loc_count th ∧ e = None ∧ runs s g = 0%nat) ∨
      (loc_count th = 0 ∧ e = cb_result (cb th) ∧
       runs s g = cb_runs (cb th)).
Proof.
  intros Hk Hp He.
  destruct (proper_reachable k evs s Hk Hp He) as [Hr Hinv].
  assert (Hab := pi_open _ Hinv). split_and!; [done|apply Hinv..|].
  intros g th Hg. pose proof (pi_good _ Hinv _ _ Hg) as Hgood.
  unfold good in Hgood. split_and!.
  - intros Hpc. by rewrite Hpc in Hgood.
  - intros Hpc. by rewrite Hpc in Hgood.
  - intros e Hpc. pose proof (tax_reachable k s g th Hr Hg) as Ht.
    unfold tax in Ht. rewrite Hpc in Ht.
    destruct Ht as [(_ & _ & ? & _)|[(? & [?|[_ ?]] & ?)|(? & [(_ & ? & _)|[? ?]])]];
      try congruence; auto.
Qed.

Lemma proper_use_witness :
  aborted round_state = false ∧
  0 ≤ count (bar round_state) ≤ n (bar round_state) ∧
  ∀ g th, gs round_state !! g = Some th →
    at_pc th ≠ PPanic ∧ at_pc th ≠ PMisuse ∧
    ∀ e, at_pc th = PReturn e →
      (0 < loc_count th ∧ e = None ∧ runs round_state g = 0%nat) ∨
      (loc_count th = 0 ∧ e = cb_result (cb th) ∧
       runs round_state g = cb_runs (cb th)).
Proof.
  apply (proper_use 3 round_schedule round_state).
  - unfold MaxInt64. lia.
  - vm_compute. reflexivity.
  - vm_compute. reflexivity.
Defined.

(** ** More about the code: the callback runs in isolation *)

(** What one action of a goroutine does to its being the last arriver. *)
Lemma zero_own g c s s' th th' :
  wf s → gs s !! g = Some th → step (Run g c) s = Some s' →
  gs s' !! g = Some th' →
  (zero0 th' = true →
   count (bar s') = count (bar s) ∧
   (zero0 th = true ∨ (at_pc th = PCopy ∧ count (bar s) = 0))) ∧
  (zero1 th' = true →
   zero1 th = true ∨ (at_pc th = PCopy ∧ count (bar s) = 0)) ∧
  (at_pc th' = PCopy → at_pc th = PDec).
Proof.
  intros Hwf Hg H Hg'. assert (Hlt := lookup_lt_Some _ _ _ Hg).
  rewrite (step_run _ _ _ _ Hg) in H.
  unfold Await, wait, reset, Abort, make in H.
  unfold zero1, zero0.
  destruct (at_pc th) eqn:Hpc; try done; repeat case_match; simplify_eq;
    simpl in Hg'; rewrite list_lookup_insert_eq in Hg' by done; simplify_eq;
    simpl; rewrite ?Z.ltb_lt, ?Z.ltb_ge, ?Z.eqb_eq in *.
  all: split_and!; try done; auto; try (intros; split; auto; fail).
  all: try (rewrite orb_false_r).
  all: try (rewrite Z.eqb_eq; intros; auto; fail).
  all: try (intros _; left; apply Z.eqb_eq; lia).
  all: try (intros _; split; [done|]; left; apply Z.eqb_eq; lia).
Qed.

Lemma count_change ev s s' :
  step ev s = Some s' →
  count (bar s') = count (bar s) ∨
  ∃ g th c, ev = Run g c ∧ gs s !! g = Some th ∧
            (at_pc th = PDec ∨ at_pc th = PResetCount).
Proof.
  intros H. step_inv H; simpl; auto; right; eauto 10.
Qed.

(** Another goroutine's event, and what is known of [g] afterwards. *)
Lemma other_cases ev s s' g th' :
  allowed s ev = true → step ev s = Some s' → (∀ c, ev ≠ Run g c) →
  gs s' !! g = Some th' →
  gs s !! g = Some th' ∨ at_pc th' = PAwait.
Proof.
  intros Hal H Hev Hg'. destruct ev as [f| |g0 c0]; simpl in Hal; try done.
  - simpl in H. simplify_eq. simpl in Hg'. lk; auto.
  - rewrite (step_other _ _ _ _ g H) in Hg' by (intros ->; by apply (Hev c0)).
    auto.
Qed.

Lemma zero1_cases th :
  zero1 th = true → zero0 th = true ∨ at_pc th = PResetUnlock.
Proof.
  unfold zero1. intros [?|?%bool_decide_eq_true]%orb_prop; auto.
Qed.

Lemma zero1_not_new th : at_pc th = PAwait → zero1 th = false.
Proof. unfold zero1, zero0. by intros ->. Qed.

Lemma iso_step ev s s' :
  wf s → proper_inv s → iso_inv s → allowed s ev = true →
  step ev s = Some s' → iso_inv s'.
Proof.
  intros Hwf Hinv [Hcount Huniq Hcopy] Hal H.
  assert (Hdec := proper_dec s).
  (* a goroutine that is the last arriver after the event was it before,
     or was at its copy of a counter of zero *)
  assert (Hz1 : ∀ g th', gs s' !! g = Some th' → zero1 th' = true →
    ∃ th, gs s !! g = Some th ∧
      (zero1 th = true ∨ (at_pc th = PCopy ∧ count (bar s) = 0 ∧
                          ∃ c, ev = Run g c))).
  { intros g th' Hg' Hz. destruct (event_cases ev g) as [[c ->]|Hev].
    - destruct (gs s !! g) as [th|] eqn:Hg; [|by rewrite step_run_none in H].
      exists th. split; [done|].
      destruct (zero_own g c s s' th th' Hwf Hg H Hg') as (_ & Hb & _).
      destruct (Hb Hz) as [?|[? ?]]; eauto 6.
    - destruct (other_cases ev s s' g th' Hal H Hev Hg') as [Hg|Hp].
      + eauto.
      + by rewrite zero1_not_new in Hz. }
  split.
  - intros g th' Hg' Hz. destruct (event_cases ev g) as [[c ->]|Hev].
    + destruct (gs s !! g) as [th|] eqn:Hg; [|by rewrite step_run_none in H].
      destruct (zero_own g c s s' th th' Hwf Hg H Hg') as (Ha & _ & _).
      destruct (Ha Hz) as [-> [Hz0|[_ ?]]]; eauto.
    + destruct (other_cases ev s s' g th' Hal H Hev Hg') as [Hg|Hp].
      2:{ unfold zero0 in Hz. by rewrite Hp in Hz. }
      specialize (Hcount _ _ Hg Hz).
      destruct (count_change _ _ _ H) as [->|(g0 & th0 & c0 & -> & Hg0 & Hp0)];
        [done|].
      destruct Hp0 as [Hp0|Hp0].
      * specialize (Hdec _ _ Hwf Hinv Hg0 Hp0). lia.
      * exfalso. apply (Hev c0). f_equal.
        apply (Huniq g0 g th0 th' Hg0 Hg).
        -- unfold zero1, zero0. by rewrite Hp0.
        -- unfold zero1. by rewrite Hz.
  - intros g1 g2 th1 th2 Hg1 Hg2 Hz1' Hz2'.
    destruct (Hz1 _ _ Hg1 Hz1') as (t1 & Ht1 & [Ho1|(Hp1 & Hc1 & c1 & He1)]);
    destruct (Hz1 _ _ Hg2 Hz2') as (t2 & Ht2 & [Ho2|(Hp2 & Hc2 & c2 & He2)]).
    + eauto.
    + by destruct (Hcopy g1 g2 t1 t2 Ht1 Ht2 Ho1).
    + by destruct (Hcopy g2 g1 t2 t1 Ht2 Ht1 Ho2).
    + congruence.
  - intros g1 g2 th1 th2 Hg1 Hg2 Hz Hp2.
    destruct (Hz1 _ _ Hg1 Hz) as (t1 & Ht1 & [Ho1|(Hp1 & Hc1 & c1 & He1)]).
    + destruct (event_cases ev g2) as [[c ->]|Hev].
      * destruct (gs s !! g2) as [t2|] eqn:Ht2; [|by rewrite step_run_none in H].
        destruct (zero_own g2 c s s' t2 th2 Hwf Ht2 H Hg2) as (_ & _ & Hd).
        specialize (Hd Hp2).
        destruct (zero1_cases _ Ho1) as [Hz0|Hru].
        -- specialize (Hcount _ _ Ht1 Hz0).
           specialize (Hdec _ _ Hwf Hinv Ht2 Hd). lia.
        -- assert (g1 = g2) as ->.
           { eapply (wf_mutex _ Hwf); eauto; by rewrite ?Hru, ?Hd. }
           congruence.
      * destruct (other_cases ev s s' g2 th2 Hal H Hev Hg2) as [Hg|Hp];
          [|congruence].
        by destruct (Hcopy g1 g2 t1 th2 Ht1 Hg Ho1).
    + subst ev.
      assert (g2 ≠ g1).
      { intros ->. destruct (zero_own g1 c1 s s' t1 th2 Hwf Ht1 H Hg2)
          as (_ & _ & Hd). specialize (Hd Hp2). congruence. }
      rewrite (step_other _ _ _ _ g2 H) in Hg2 by done.
      assert (g2 = g1); [|done].
      eapply (wf_mutex _ Hwf); eauto; by rewrite ?Hp1, ?Hp2.
Qed.

Lemma sumw_eq_pointwise w1 w2 l g th :
  (∀ th, w1 th ≤ w2 th) → sumw w2 l ≤ sumw w1 l →
  l !! g = Some th → w1 th = w2 th.
Proof.
  intros Hw Hs Hg. destruct (Z.eq_dec (w1 th) (w2 th)) as [?|Hne]; [done|].
  pose proof (Hw th). pose proof (sumw_lt w1 w2 l g th Hw Hg). lia.
Qed.

Lemma iso_reachable k evs s :
  0 ≤ k ≤ MaxInt64 → proper evs (New k) = true → exec evs (New k) = Some s →
  reachable k s ∧ proper_inv s ∧ iso_inv s.
Proof.
  intros Hk Hp He. revert Hp He.
  apply (proper_exec (λ s, reachable k s ∧ proper_inv s ∧ iso_inv s)).
  - intros ev s0 s0' (Hr & Hinv & Hiso) Hal Hs.
    assert (Hwf := wf_reachable _ _ Hr). split_and!.
    + eapply (reachable_exec _ s0 [ev]); eauto. simpl. by rewrite Hs.
    + eapply proper_step; eauto.
      rewrite (n_reachable k s0); [lia| |done].
      unfold MinInt64, MaxInt64 in *. lia.
    + eapply iso_step; eauto.
  - split_and!; [apply reachable_New|by apply proper_New|].
    split; intros *; simpl; rewrite lookup_nil; done.
Qed.

(** The callback runs in isolation.  In a proper use of the barrier, while
    a call is at its callback or between the callback and
    [close(b.done)]: the counter is 0, exactly [b.n] calls are in flight,
    the round signal is unopened, and every other call has returned from an
    earlier round or is a waiter of this round, holding the current round
    signal, at the [select] of [wait] or on its way there from the unlock.
    So no other call can run a callback, decrement the counter or return
    before this call opens the round signal. *)
Theorem callback_isolated k evs s g th :
  0 ≤ k ≤ MaxInt64 → proper evs (New k) = true → exec evs (New k) = Some s →
  gs s !! g = Some th →
  at_pc th = PCallback ∨ at_pc th = PResetLock ∨ at_pc th = PResetClose →
  count (bar s) = 0 ∧ flying s = n (bar s) ∧
  closed (chans s) (done (bar s)) = false ∧
  ∀ g' th', gs s !! g' = Some th' → g' ≠ g →
    (∃ e, at_pc th' = PReturn e) ∨
    ((at_pc th' = PUnlock ∨ at_pc th' = PDispatch ∨ at_pc th' = PWait) ∧
     0 < loc_count th' ∧ loc_done th' = done (bar s)).
Proof.
  intros Hk Hp He Hg Hpc.
  destruct (iso_reachable k evs s Hk Hp He) as (Hr & Hinv & Hiso).
  assert (Hwf := wf_reachable _ _ Hr).
  assert (Hz0 : zero0 th = true).
  { unfold zero0. by destruct Hpc as [->|[->| ->]]. }
  assert (Hz1 : zero1 th = true) by (unfold zero1; by rewrite Hz0).
  assert (Hc := iso_count _ Hiso _ _ Hg Hz0).
  assert (Hnr : ∀ g' th', gs s !! g' = Some th' →
                          resetting (at_pc th') = false).
  { intros g' th' Hg'. destruct (resetting (at_pc th')) eqn:Hr'; [|done].
    assert (g' = g) as ->.
    { apply (iso_unique _ Hiso g' g th' th Hg' Hg); [|done].
      unfold zero1, zero0. by destruct (at_pc th'). }
    assert (th' = th) as -> by congruence.
    by destruct Hpc as [Hq|[Hq|Hq]]; rewrite Hq in Hr'. }
  assert (Ha := pi_arrivals _ Hinv Hnr). assert (Hf := pi_flying _ Hinv).
  assert (Hle : arrivals s ≤ flying s).
  { apply sumw_le. apply cur_in_flight. }
  assert (Hopen : closed (chans s) (done (bar s)) = false).
  { destruct (closed (chans s) (done (bar s))) eqn:Hcl; [|done].
    destruct (wf_open _ Hwf Hcl) as (g2 & th2 & Hg2 & Hp2).
    specialize (Hnr _ _ Hg2). by rewrite Hp2 in Hnr. }
  split_and!; [done|lia|done|].
  intros g' th' Hg' Hne.
  assert (Heq : cur (done (bar s)) th' = in_flight th').
  { eapply (sumw_eq_pointwise _ _ (gs s) g'); eauto using cur_in_flight.
    unfold arrivals, flying in *. lia. }
  assert (Hgood := pi_good _ Hinv _ _ Hg').
  assert (Hbr := wf_branch _ Hwf _ _ Hg').
  assert (Hu : zero1 th' = true → False).
  { intros Hz. apply Hne. apply (iso_unique _ Hiso g' g th' th); auto. }
  assert (Hcp := iso_copy _ Hiso g g' th th' Hg Hg' Hz1).
  unfold cur, in_flight, good, branch_ok, zero1, zero0 in *.
  destruct (at_pc th') eqn:Hp'; try done; try (by destruct Hu);
    try (left; eauto; fail); try case_decide; try done; right.
  - split_and!; auto. destruct (Z.eqb_spec (loc_count th') 0); [|lia].
    by destruct Hu.
  - split_and!; auto. destruct (Z.eqb_spec (loc_count th') 0); [|lia].
    by destruct Hu.
  - split_and!; auto.
  - congruence.
Qed.

Lemma callback_isolated_witness :
  count (bar isolated_state) = 0 ∧
  flying isolated_state = n (bar isolated_state) ∧
  closed (chans isolated_state) (done (bar isolated_state)) = false ∧
  ∀ g' th', gs isolated_state !! g' = Some th' → g' ≠ 1%nat →
    (∃ e, at_pc th' = PReturn e) ∨
    ((at_pc th' = PUnlock ∨ at_pc th' = PDispatch ∨ at_pc th' = PWait) ∧
     0 < loc_count th' ∧ loc_done th' = done (bar isolated_state)).
Proof.
  apply (callback_isolated 2 isolated_schedule isolated_state 1
           {| at_pc := PCallback; cb := Some None; loc_count := 0;
              loc_done := 0%nat; err := None |}).
  - unfold MaxInt64. lia.
  - vm_compute. reflexivity.
  - vm_compute. reflexivity.
  - reflexivity.
  - by left.
Defined.

(** ** More about the code: a round completes, and the barrier is reusable *)

Lemma run_mid b h (l1 l2 : list Goroutine) th cs c :
  step (Run (length l1) c) (mkState b h (l1 ++ th :: l2) cs) =
  Await (length l1) c th (mkState b h (l1 ++ th :: l2) cs).
Proof. apply step_run. simpl. apply list_lookup_middle. done. Qed.

Lemma insert_mid (l1 l2 : list Goroutine) th th' :
  <[length l1 := th']> (l1 ++ th :: l2) = l1 ++ th' :: l2.
Proof. induction l1 as [|x l1 IH]; simpl; [done|]. by rewrite IH. Qed.

Lemma close_eq (h : list bool) d :
  (d < length h)%nat → closed h d = false →
  close h d = Some (<[d := true]> h).
Proof.
  unfold close, closed. intros Hlt Hc.
  destruct (lookup_lt_is_Some_2 h d Hlt) as [x Hx]. rewrite Hx in *.
  simpl in Hc. by subst.
Qed.

(** One call arrives at a counter above 1 and waits. *)
Lemma arrive b h l cs f :
  mu b = false → closed h (abort b) = false → 1 < count b ≤ MaxInt64 →
  exec (GoAwait f :: solo (length l) 6) (mkState b h l cs) =
  Some (mkState (set_count (count b - 1) b) h
          (l ++ [ {| at_pc := PWait; cb := f; loc_count := count b - 1;
                     loc_done := done b; err := None |} ]) cs).
Proof.
  intros Hmu Hab Hc.
  assert (Hw : wrap64 (count b - 1) = count b - 1)
    by (apply wrap64_small; unfold MinInt64, MaxInt64 in *; lia).
  assert (H1 : (count b - 1 <? 0) = false) by (apply Z.ltb_ge; lia).
  assert (H2 : (0 <? count b - 1) = true) by (apply Z.ltb_lt; lia).
  unfold solo. cbn [replicate exec].
  change (step (GoAwait f) (mkState b h l cs))
    with (Some (mkState b h (l ++ [ {| at_pc := PAwait; cb := f;
                                      loc_count := 0; loc_done := 0%nat;
                                      err := None |} ]) cs)).
  cbn match. rewrite run_mid. unfold Await at 1, aborted. cbn [at_pc bar chans].
  rewrite Hab. unfold set_g. cbn [bar chans gs calls]. rewrite insert_mid.
  rewrite run_mid. unfold Await at 1. cbn [at_pc goto bar]. rewrite Hmu.
  unfold set_g, set_bar. cbn [bar chans gs calls]. rewrite insert_mid.
  rewrite run_mid. unfold Await at 1. cbn [at_pc goto bar].
  unfold set_g, set_bar. cbn [bar chans gs calls]. rewrite insert_mid.
  rewrite run_mid. unfold Await at 1. cbn [at_pc goto bar].
  unfold set_g, set_bar. cbn [bar chans gs calls]. rewrite insert_mid.
  rewrite run_mid. unfold Await at 1.
  cbn [at_pc goto bar set_count set_mu mu count done cb err loc_count loc_done].
  unfold set_g, set_bar. cbn [bar chans gs calls]. rewrite insert_mid.
  rewrite run_mid. unfold Await at 1.
  cbn [at_pc goto bar set_count set_mu mu count done cb err loc_count loc_done].
  rewrite Hw, H1, H2.
  unfold set_g, set_bar. cbn [bar chans gs calls]. rewrite insert_mid.
  unfold set_mu, set_count, goto. destruct b; simpl in *. by subst.
Qed.

Lemma arrive_all_exec fs : ∀ b h l cs,
  mu b = false → closed h (abort b) = false →
  Z.of_nat (length fs) < count b ≤ MaxInt64 →
  exec (arrive_all (length l) fs) (mkState b h l cs) =
  Some (mkState (set_count (count b - Z.of_nat (length fs)) b) h
          (l ++ waiters PWait (count b) (done b) fs) cs).
Proof.
  induction fs as [|f fs IH]; intros b h l cs Hmu Hab Hc.
  - simpl. rewrite Z.sub_0_r, app_nil_r. by destruct b.
  - cbn [arrive_all]. rewrite exec_app, arrive; [|done|done|simpl in Hc; lia].
    cbn [mbind option_bind].
    replace (S (length l)) with
      (length (l ++ [ {| at_pc := PWait; cb := f; loc_count := count b - 1;
                         loc_done := done b; err := None |} ]))
      by (rewrite length_app; simpl; lia).
    rewrite IH; [|done|done|simpl in *; lia].
    simpl. rewrite <- app_assoc. simpl. f_equal. f_equal.
    unfold set_count. simpl. f_equal. lia.
Qed.

Ltac proj :=
  unfold set_g, set_bar, set_chans, set_mu, set_count, set_done, goto;
  cbn [at_pc cb loc_count loc_done err bar chans gs calls mu n count
       done abort].

(** One action of the goroutine in the middle of the pool; [tac] settles
    the tests the source makes. *)
Ltac one tac :=
  rewrite run_mid; unfold Await at 1; proj;
  try (unfold reset at 1, make; proj);
  try (unfold wait at 1; proj);
  unfold aborted; proj; tac; proj; rewrite ?insert_mid.

(** The last call of a round arrives at a counter of 1, runs its callback
    and resets the barrier. *)
Lemma arrive_last b h l cs f :
  mu b = false → closed h (abort b) = false → count b = 1 →
  (done b < length h)%nat → closed h (done b) = false →
  exec (GoAwait f :: solo (length l) 12) (mkState b h l cs) =
  Some (mkState {| mu := false; n := n b; count := n b;
                   done := length h; abort := abort b |}
          (<[done b := true]> h ++ [false])
          (l ++ [ {| at_pc := PReturn (cb_result f); cb := f; loc_count := 0;
                     loc_done := done b; err := cb_result f |} ])
          (match f with Some _ => length l :: cs | None => cs end)).
Proof.
  intros Hmu Hab Hc Hlt Hcl.
  assert (Hw : wrap64 (1 - 1) = 0) by reflexivity.
  assert (Hclose := close_eq h (done b) Hlt Hcl).
  unfold solo. cbn [replicate exec].
  change (step (GoAwait f) (mkState b h l cs))
    with (Some (mkState b h (l ++ [ {| at_pc := PAwait; cb := f;
                                      loc_count := 0; loc_done := 0%nat;
                                      err := None |} ]) cs)).
  cbn match.
  one ltac:(rewrite Hab). one ltac:(rewrite Hmu). one idtac.
  one ltac:(rewrite Hc, Hw). one idtac.
  one ltac:(cbn [Z.ltb Z.compare]).
  destruct f as [r|].
  - one idtac. one idtac. one ltac:(rewrite Hclose). one idtac. one idtac.
    one idtac. rewrite length_insert. done.
  - one idtac. one idtac. one ltac:(rewrite Hclose). one idtac. one idtac.
    one idtac. rewrite length_insert. done.
Qed.

Lemma closed_fresh_insert (h : list bool) d :
  closed (<[d := true]> h ++ [false]) (length h) = false.
Proof.
  rewrite <- (length_insert h d true). apply closed_fresh.
Qed.

(** A waiter whose round signal is open wakes up and returns [nil]. *)
Lemma wake b h (l1 l2 : list Goroutine) cs f c d :
  closed h (abort b) = false → closed h d = true →
  exec (solo (length l1) 2)
    (mkState b h (l1 ++ {| at_pc := PWait; cb := f; loc_count := c;
                           loc_done := d; err := None |} :: l2) cs) =
  Some (mkState b h (l1 ++ {| at_pc := PReturn None; cb := f; loc_count := c;
                              loc_done := d; err := None |} :: l2) cs).
Proof.
  intros Hab Hd. unfold solo. cbn [replicate exec].
  one ltac:(rewrite Hab, Hd). one ltac:(rewrite Hab). done.
Qed.

Lemma wake_all_exec b h cs d fs : ∀ c (l1 l2 : list Goroutine),
  closed h (abort b) = false → closed h d = true →
  exec (wake_all (length l1) (length fs))
    (mkState b h (l1 ++ waiters PWait c d fs ++ l2) cs) =
  Some (mkState b h (l1 ++ waiters (PReturn None) c d fs ++ l2) cs).
Proof.
  induction fs as [|f fs IH]; intros c l1 l2 Hab Hd; [done|].
  cbn [wake_all waiters length app]. rewrite exec_app, wake by done.
  cbn [mbind option_bind].
  set (w := {| at_pc := PReturn None; cb := f; loc_count := c - 1;
               loc_done := d; err := None |}).
  replace (S (length l1)) with (length (l1 ++ [w]))
    by (rewrite length_app; simpl; lia).
  replace (l1 ++ w :: waiters PWait (c - 1) d fs ++ l2)
    with ((l1 ++ [w]) ++ waiters PWait (c - 1) d fs ++ l2)
    by (by rewrite <- app_assoc).
  rewrite IH by done. by rewrite <- app_assoc.
Qed.

Lemma waiters_length p c d fs : length (waiters p c d fs) = length fs.
Proof. revert c. induction fs as [|f fs IH]; intros c; simpl; auto. Qed.

Lemma waiters_lookup p d fs : ∀ c i f,
  fs !! i = Some f →
  waiters p c d fs !! i =
  Some {| at_pc := p; cb := f; loc_count := c - 1 - Z.of_nat i;
          loc_done := d; err := None |}.
Proof.
  induction fs as [|f0 fs IH]; intros c [|i] f Hi; simpl in *; simplify_eq.
  - do 2 f_equal. lia.
  - rewrite (IH _ _ _ Hi). do 2 f_equal. lia.
Qed.

(** The schedule [round] from a barrier between two rounds. *)
Lemma round_exec s fs f :
  quiet s → n (bar s) = Z.of_nat (length fs) + 1 → n (bar s) ≤ MaxInt64 →
  ∃ s', exec (round (length (gs s)) fs f) s = Some s' ∧
    quiet s' ∧ n (bar s') = n (bar s) ∧
    done (bar s') = length (chans s) ∧
    gs s' = gs s ++ waiters (PReturn None) (n (bar s)) (done (bar s)) fs
                 ++ [ {| at_pc := PReturn (cb_result f); cb := f;
                         loc_count := 0; loc_done := done (bar s);
                         err := cb_result f |} ] ∧
    calls s' = match f with
               | Some _ => (length (gs s) + length fs)%nat :: calls s
               | None => calls s
               end.
Proof.
  intros (Hmu & Hab & Hc & Hcl & Hd & Ha & Hne) Hn Hmax.
  destruct s as [b h l cs]. unfold aborted in *. simpl in *.
  unfold round. rewrite exec_app, arrive_all_exec; [|done|done|lia].
  cbn [mbind option_bind]. rewrite exec_app.
  replace (length l + length fs)%nat
    with (length (l ++ waiters PWait (count b) (done b) fs))
    by (rewrite length_app, waiters_length; done).
  rewrite arrive_last; simpl; [|done|done|lia|done|done].
  cbn [mbind option_bind].
  rewrite <- app_assoc.
  rewrite wake_all_exec.
  - eexists. split; [done|]. unfold quiet, aborted. simpl.
    rewrite length_app, length_insert, length_app, waiters_length. simpl.
    rewrite Hc. split_and!; try done; try lia.
    all: try apply closed_fresh_insert.
    all: try (destruct f; done).
    rewrite closed_snoc by (rewrite length_insert; done).
    unfold closed. rewrite list_lookup_insert_ne by done. apply Hab.
  - simpl. rewrite closed_snoc by (rewrite length_insert; done).
    unfold closed. rewrite list_lookup_insert_ne by done. apply Hab.
  - simpl. rewrite closed_snoc by (rewrite length_insert; done).
    unfold closed. by rewrite list_lookup_insert_eq.
Qed.

(** A round completes.  From a barrier between two rounds, with [b.n] the
    number of calls: if the calls with the callbacks [fs] arrive, then the
    call with callback [f], and the scheduler lets them run as in [round],
    then every call returns: the first ones [nil], the last one the result
    of its callback, which is the only one that ran; and the barrier is
    between two rounds again, with a new round signal. *)
Theorem round_completes s fs f :
  quiet s → n (bar s) = Z.of_nat (length fs) + 1 → n (bar s) ≤ MaxInt64 →
  ∃ s', exec (round (length (gs s)) fs f) s = Some s' ∧
    quiet s' ∧ n (bar s') = n (bar s) ∧
    done (bar s') = length (chans s) ∧
    gs s' = gs s ++ waiters (PReturn None) (n (bar s)) (done (bar s)) fs
                 ++ [ {| at_pc := PReturn (cb_result f); cb := f;
                         loc_count := 0; loc_done := done (bar s);
                         err := cb_result f |} ] ∧
    calls s' = match f with
               | Some _ => (length (gs s) + length fs)%nat :: calls s
               | None => calls s
               end.
Proof. apply round_exec. Qed.

Lemma round_completes_witness :
  ∃ s', exec (round (length (gs (New 3))) [None; None] (Some None)) (New 3)
        = Some s' ∧
    quiet s' ∧ n (bar s') = n (bar (New 3)) ∧
    done (bar s') = length (chans (New 3)) ∧
    gs s' = gs (New 3)
            ++ waiters (PReturn None) (n (bar (New 3))) (done (bar (New 3)))
                 [None; None]
            ++ [ {| at_pc := PReturn (cb_result (Some None)); cb := Some None;
                    loc_count := 0; loc_done := done (bar (New 3));
                    err := cb_result (Some None) |} ] ∧
    calls s' = (length (gs (New 3)) + length [@None goerror; None])%nat
               :: calls (New 3).
Proof.
  apply (round_completes (New 3) [None; None] (Some None)).
  - unfold quiet. split_and!; try reflexivity; simpl; lia.
  - reflexivity.
  - vm_compute. discriminate.
Defined.

Lemma waiters_returned f c d fs :
  Forall (returned f) (waiters (PReturn None) c d fs).
Proof.
  revert c. induction fs as [|f0 fs IH]; intros c; simpl; constructor; auto.
  by left.
Qed.

Lemma rounds_exec w f m : ∀ s,
  quiet s → n (bar s) = Z.of_nat w + 1 → n (bar s) ≤ MaxInt64 →
  ∃ s' l, exec (rounds w f m (length (gs s))) s = Some s' ∧
    quiet s' ∧ n (bar s') = n (bar s) ∧
    gs s' = gs s ++ l ∧ Forall (returned f) l ∧
    length l = (m * S w)%nat ∧
    length (calls s') =
      (length (calls s) + match f with Some _ => m | None => 0 end)%nat.
Proof.
  induction m as [|m IH]; intros s Hq Hn Hmax.
  - exists s, []. simpl. rewrite app_nil_r.
    split_and!; auto. destruct f; lia.
  - destruct (round_exec s (replicate w f) f Hq)
      as (s1 & He1 & Hq1 & Hn1 & _ & Hg1 & Hc1);
      [by rewrite length_replicate|done|].
    destruct (IH s1 Hq1) as (s2 & l2 & He2 & Hq2 & Hn2 & Hg2 & Hr2 & Hl2 & Hc2);
      [congruence..|].
    assert (Hlen : length (gs s1) = (length (gs s) + S w)%nat).
    { rewrite Hg1, !length_app, waiters_length, length_replicate. simpl. lia. }
    eexists s2, _. cbn [rounds]. rewrite exec_app, He1. cbn [mbind option_bind].
    rewrite <- Hlen, He2. split_and!; [done|done|congruence| | | |].
    + rewrite Hg2, Hg1, <- !app_assoc. reflexivity.
    + apply Forall_app. split; [apply waiters_returned|].
      simpl. constructor; [by right|done].
    + rewrite !length_app, waiters_length, length_replicate, Hl2. simpl. lia.
    + rewrite Hc2, Hc1. destruct f; simpl; lia.
Qed.

(** The barrier is reusable.  For every number of waiters [w], callback [f]
    and number of rounds [m], the schedule [rounds] makes [m] rounds of
    [w + 1] calls of [Await(f)] on [New(w + 1)]: all the calls return [nil]
    or the result of [f], the callback runs once per round, and the barrier
    is between two rounds again. *)
Theorem rounds_complete w f m :
  Z.of_nat w + 1 ≤ MaxInt64 →
  ∃ s, exec (rounds w f m 0) (New (Z.of_nat w + 1)) = Some s ∧
    quiet s ∧
    length (gs s) = (m * S w)%nat ∧
    Forall (returned f) (gs s) ∧
    length (calls s) = match f with Some _ => m | None => 0%nat end.
Proof.
  intros Hw.
  assert (Hwr : wrap64 (Z.of_nat w + 1) = Z.of_nat w + 1)
    by (apply wrap64_small; unfold MinInt64; lia).
  destruct (rounds_exec w f m (New (Z.of_nat w + 1)))
    as (s & l & He & Hq & Hn & Hg & Hr & Hl & Hc).
  - unfold quiet. simpl. split_and!; try done; lia.
  - simpl. done.
  - simpl. lia.
  - exists s. simpl in *. subst. split_and!; done.
Qed.

Lemma rounds_complete_witness :
  ∃ s, exec (rounds 2 (Some None) 3 0) (New (Z.of_nat 2 + 1)) = Some s ∧
    quiet s ∧
    length (gs s) = (3 * 3)%nat ∧
    Forall (returned (Some None)) (gs s) ∧
    length (calls s) = 3%nat.
Proof.
  apply (rounds_complete 2 (Some None) 3). vm_compute. discriminate.
Defined.

(** ** One call too many *)

Lemma total_all l :
  total l = Z.of_nat (length l) →
  ∀ g th, l !! g = Some th → arrived (at_pc th) = 1.
Proof.
  intros Ht g th Hg. pose proof (arrived_range (at_pc th)).
  destruct (decide (arrived (at_pc th) = 0)) as [H0|]; [|lia].
  pose proof (total_not_arrived _ _ _ Hg H0). lia.
Qed.

Lemma over_New k : 0 ≤ k ≤ MaxInt64 → over_inv (New k).
Proof.
  intros Hk. assert (Hw : wrap64 k = k)
    by (apply wrap64_small; unfold MinInt64; lia).
  split; simpl; rewrite ?Hw; try done; try lia.
Qed.

(** The call on the misuse path is the first to close the abort signal. *)
Lemma misuse_first s g th :
  wf s → over_inv s → gs s !! g = Some th → at_pc th = PMisuse →
  is_Some (close (chans s) (abort (bar s))).
Proof.
  intros Hwf Hinv Hg Hpc. apply close_open.
  { rewrite (wf_abort _ Hwf). pose proof (wf_heap _ Hwf). lia. }
  destruct (closed (chans s) (abort (bar s))) eqn:Hc; [|done].
  destruct (ov_abort _ Hinv Hc) as (g0 & th0 & Hg0 & Hn0 & Hp0).
  assert (Hb := wf_branch _ Hwf _ _ Hg). unfold branch_ok in Hb.
  rewrite Hpc in Hb.
  assert (g0 = g) as -> by (eapply (ov_one _ Hinv); eauto).
  congruence.
Qed.

Lemma over_pc ev s s' :
  wf s → over_inv s → await_only ev = true → step ev s = Some s' →
  ∀ g th, gs s' !! g = Some th → calling (at_pc th) = true.
Proof.
  intros Hwf Hinv Hev H g' th' Hg'. assert (Hold := ov_pc _ Hinv).
  assert (Hmis := misuse_first s).
  step_inv H; simpl in *; try done; lk; simpl; eauto.
  all: try (pose proof (wf_locked _ Hwf _ _ Hg) as Hmu; rewrite Hpc in Hmu;
            specialize (Hmu eq_refl); congruence).
  all: try (destruct (reset_close_ok _ _ _ Hwf Hg Hpc); congruence).
  all: try (destruct (Hmis _ _ Hwf Hinv Hg Hpc); congruence).
  all: specialize (Hold _ _ Hg); by rewrite Hpc in Hold.
Qed.

Lemma over_count ev s s' :
  0 ≤ n (bar s) ≤ MaxInt64 → over_inv s → step ev s = Some s' →
  Z.of_nat (length (gs s')) ≤ n (bar s) + 1 →
  n (bar s') - total (gs s') ≤ count (bar s') ≤ n (bar s').
Proof.
  intros Hn Hinv H Hlen.
  apply (count_le_step ev s s'); [done| |done|].
  - intros _. apply (ov_count _ Hinv).
  - unfold MaxInt64 in Hn. lia.
Qed.

Lemma over_low ev s s' :
  over_inv s → step ev s = Some s' →
  Z.of_nat (length (gs s)) ≤ n (bar s) + 1 →
  ∀ g th, gs s' !! g = Some th → -1 ≤ loc_count th.
Proof.
  intros Hinv H Hlen g' th' Hg'. assert (Hold := ov_low _ Hinv).
  assert (Hc := ov_count _ Hinv). pose proof (total_range (gs s)).
  step_inv H; simpl in *; lk; simpl; eauto; lia.
Qed.


Lemma over_neg ev s s' :
  wf s → over_inv s → step ev s = Some s' →
  Z.of_nat (length (gs s')) ≤ n (bar s) + 1 →
  ∀ g th, gs s' !! g = Some th → loc_count th < 0 →
    Z.of_nat (length (gs s')) = n (bar s') + 1 ∧
    ∀ g' th', gs s' !! g' = Some th' → past_copy (at_pc th') = true.
Proof.
  intros Hwf Hinv H Hlen g1 th1 Hg1 Hneg.
  assert (Hold := ov_neg _ Hinv). assert (Hc := ov_count _ Hinv).
  pose proof (total_range (gs s)) as Htr.
  pose proof (step_length _ _ _ H) as Hsl.
  rewrite (step_n _ _ _ H).
  assert (Hcase :
    (∃ g0 th0, gs s !! g0 = Some th0 ∧ loc_count th0 < 0) ∨
    (∃ g th c, ev = Run g c ∧ gs s !! g = Some th ∧ at_pc th = PCopy ∧
               count (bar s) < 0)).
  { step_inv H; simpl in *; lk; simpl in *; try lia; eauto 10. }
  destruct Hcase as [(g0 & th0 & Hg0 & Hn0)|(g & th & c & -> & Hg & Hpc & Hcn)].
  - destruct (Hold _ _ Hg0 Hn0) as [Hl Hall].
    step_inv H; simpl in *; rewrite ?length_app, ?length_insert in *;
      simpl in *; try lia.
    all: split; [lia|]; intros g' th' Hg'; lk; simpl; eauto.
    all: specialize (Hall _ _ Hg); rewrite Hpc in Hall; done.
  - assert (Ht : total (gs s) = Z.of_nat (length (gs s))) by lia.
    clear Hg1 Hneg. rewrite (step_run _ _ _ _ Hg) in H. unfold Await in H. rewrite Hpc in H.
    simplify_eq. simpl in *. rewrite length_insert in *. split; [lia|].
    intros g' th' Hg'. lk; [done|].
    assert (Ha := total_all _ Ht _ _ Hg').
    assert (Hp : at_pc th' ≠ PCopy).
    { intros Hp. match goal with Hne : g' ≠ g |- _ => apply Hne end.
      eapply (wf_mutex _ Hwf); eauto; by rewrite ?Hp, ?Hpc. }
    destruct (at_pc th'); simpl in *; done.
Qed.

Lemma over_one ev s s' :
  over_inv s → step ev s = Some s' →
  ∀ g1 g2 th1 th2,
    gs s' !! g1 = Some th1 → gs s' !! g2 = Some th2 →
    loc_count th1 < 0 → loc_count th2 < 0 → g1 = g2.
Proof.
  intros Hinv H g1 g2 th1 th2 Hg1 Hg2 Hn1 Hn2.
  assert (Hold := ov_one _ Hinv).
  assert (Hall : ∀ g0 th0 g th, gs s !! g0 = Some th0 → loc_count th0 < 0 →
    gs s !! g = Some th → past_copy (at_pc th) = true).
  { intros g0 th0 g th Hg0 Hn0 Hg.
    destruct (ov_neg _ Hinv _ _ Hg0 Hn0) as [_ Hall]. eauto. }
  step_inv H; simpl in *; lk; simpl in *; try done; try lia; eauto.
  all: try (exfalso;
            match goal with
            | Ho : gs _ !! ?g0 = Some ?th0, Hn : loc_count ?th0 < 0 |- _ =>
                specialize (Hall _ _ _ _ Ho Hn Hg); rewrite Hpc in Hall; done
            end).
Qed.

(** A call that has returned stays where it is. *)
Lemma returned_stays ev s s' g th e :
  step ev s = Some s' → gs s !! g = Some th → at_pc th = PReturn e →
  gs s' !! g = Some th.
Proof.
  intros H Hg Hpc. destruct (event_cases ev g) as [[c ->]|Hev].
  - rewrite (step_run _ _ _ _ Hg) in H. unfold Await in H.
    by rewrite Hpc in H.
  - eapply step_same; eauto.
Qed.

Lemma over_abort ev s s' :
  wf s → over_inv s → step ev s = Some s' → aborted s' = true →
  ∃ g th, gs s' !! g = Some th ∧ loc_count th < 0 ∧
          at_pc th = PReturn (Some ErrBarrierMisused).
Proof.
  intros Hwf Hinv H Hab'.
  destruct (aborted s) eqn:Hab.
  { destruct (ov_abort _ Hinv Hab) as (g0 & th0 & Hg0 & Hn0 & Hp0).
    exists g0, th0. split; [eapply returned_stays; eauto|done]. }
  assert (Hpcs := ov_pc _ Hinv). assert (Hb := wf_branch _ Hwf).
  destruct (wf_done _ Hwf) as [Hd1 Hd2]. assert (Ha := wf_abort _ Hwf).
  unfold aborted in *.
  step_inv H; simpl in *; try congruence.
  all: try (specialize (Hpcs _ _ Hg); rewrite Hpc in Hpcs; done).
  - specialize (Hb _ _ Hg). unfold branch_ok in Hb. rewrite Hpc in Hb.
    eapply exists_here; eauto.
  - match goal with Hc : close _ _ = Some _ |- _ =>
      rewrite (closed_close_ne _ _ _ _ Hc) in Hab' by congruence end.
    congruence.
  - rewrite closed_snoc in Hab'; [congruence|]. pose proof (wf_heap _ Hwf). lia.
Qed.

Lemma over_step ev s s' :
  wf s → 0 ≤ n (bar s) ≤ MaxInt64 → over_inv s → await_only ev = true →
  step ev s = Some s' → Z.of_nat (length (gs s')) ≤ n (bar s) + 1 →
  over_inv s'.
Proof.
  intros Hwf Hn Hinv Hev H Hlen. pose proof (step_length _ _ _ H). split.
  - eapply over_pc; eauto.
  - eapply over_count; eauto.
  - eapply over_low; eauto. lia.
  - eapply over_neg; eauto.
  - eapply over_one; eauto.
  - eapply over_abort; eauto.
Qed.

Lemma over_exec k : ∀ evs s s',
  0 ≤ k ≤ MaxInt64 → reachable k s → over_inv s →
  forallb await_only evs = true → exec evs s = Some s' →
  Z.of_nat (length (gs s')) ≤ k + 1 → over_inv s'.
Proof.
  induction evs as [|ev evs IH]; intros s s' Hk Hr Hinv Hev He Hlen;
    simpl in *.
  - by simplify_eq.
  - apply andb_prop in Hev as [Hev1 Hev].
    destruct (step ev s) as [s1|] eqn:Hs; [|done].
    assert (Hn : n (bar s) = k).
    { apply n_reachable; [unfold MinInt64; lia|done]. }
    pose proof (exec_length _ _ _ He).
    apply (IH s1 s'); try done.
    + eapply (reachable_exec _ s [ev]); eauto. simpl. by rewrite Hs.
    + eapply over_step; eauto using wf_reachable; lia.
Qed.

(** One call too many.  With at most [b.n + 1] calls of [Await] in all and
    no other call of [Abort], in every interleaving: no call panics; the
    counter is at least -1; at most one call finds the counter negative, it
    finds -1, and there are [b.n + 1] calls when it does; and the abort
    signal is set only once that call has returned [ErrBarrierMisused]. *)
Theorem one_call_too_many k evs s :
  0 ≤ k ≤ MaxInt64 → forallb await_only evs = true →
  exec evs (New k) = Some s →
  Z.of_nat (length (gs s)) ≤ k + 1 →
  -1 ≤ count (bar s) ∧
  (∀ g th, gs s !! g = Some th → at_pc th ≠ PPanic) ∧
  (∀ g th, gs s !! g = Some th → loc_count th < 0 →
     loc_count th = -1 ∧ Z.of_nat (length (gs s)) = k + 1 ∧
     ∀ g' th', gs s !! g' = Some th' → loc_count th' < 0 → g' = g) ∧
  (aborted s = true →
   ∃ g th, gs s !! g = Some th ∧ loc_count th < 0 ∧
           at_pc th = PReturn (Some ErrBarrierMisused)).
Proof.
  intros Hk Hev He Hlen.
  assert (Hr : reachable k s) by (by exists evs).
  assert (Hn : n (bar s) = k).
  { apply n_reachable; [unfold MinInt64; lia|done]. }
  assert (Hinv : over_inv s).
  { eapply (over_exec k evs (New k)); eauto using reachable_New, over_New. }
  split_and!.
  - pose proof (ov_count _ Hinv). pose proof (total_range (gs s)). lia.
  - intros g th Hg Hp. pose proof (ov_pc _ Hinv _ _ Hg) as Hc.
    by rewrite Hp in Hc.
  - intros g th Hg Hneg. split_and!.
    + pose proof (ov_low _ Hinv _ _ Hg). lia.
    + rewrite <- Hn. by apply (ov_neg _ Hinv _ _ Hg).
    + intros g' th' Hg' Hneg'. eapply (ov_one _ Hinv); eauto.
  - apply (ov_abort _ Hinv).
Qed.

Lemma one_call_too_many_witness :
  -1 ≤ count (bar toomany_state) ∧
  (∀ g th, gs toomany_state !! g = Some th → at_pc th ≠ PPanic) ∧
  (∀ g th, gs toomany_state !! g = Some th → loc_count th < 0 →
     loc_count th = -1 ∧ Z.of_nat (length (gs toomany_state)) = 1 + 1 ∧
     ∀ g' th', gs toomany_state !! g' = Some th' → loc_count th' < 0 →
               g' = g) ∧
  (aborted toomany_state = true →
   ∃ g th, gs toomany_state !! g = Some th ∧ loc_count th < 0 ∧
           at_pc th = PReturn (Some ErrBarrierMisused)).
Proof.
  apply (one_call_too_many 1 toomany_schedule toomany_state).
  - unfold MaxInt64. lia.
  - reflexivity.
  - vm_compute. reflexivity.
  - vm_compute. discriminate.
Defined.

(** ** More about the code: the barrier blocks only while parties are missing *)

Lemma sumw_ext w1 w2 l :
  (∀ g th, l !! g = Some th → w1 th = w2 th) → sumw w1 l = sumw w2 l.
Proof.
  induction l as [|x l IH]; intros Hw; simpl; [done|].
  rewrite (Hw 0%nat x eq_refl), IH; [done|].
  intros g th Hg. apply (Hw (S g)). done.
Qed.

Lemma round_New k : 0 ≤ k ≤ MaxInt64 → round_inv (New k).
Proof.
  intros Hk. assert (Hw : wrap64 k = k)
    by (apply wrap64_small; unfold MinInt64; lia).
  split; unfold members; simpl; rewrite ?Hw; try done; try lia.
Qed.

Lemma round_heap ev s s' :
  wf s → round_inv s → step ev s = Some s' →
  ∀ g th, gs s' !! g = Some th → (loc_done th < length (chans s'))%nat.
Proof.
  intros Hwf Hinv H g' th' Hg'. assert (Hold := ri_heap _ Hinv).
  destruct (wf_done _ Hwf) as [_ Hd]. pose proof (wf_heap _ Hwf).
  step_inv H; simpl in *; lk; simpl;
    rewrite ?length_app, ?length_insert; simpl;
    try (erewrite close_length by eauto); eauto; try lia.
  all: specialize (Hold _ _ ltac:(eassumption)); lia.
Qed.

Lemma round_fresh ev s s' :
  wf s → round_inv s → step ev s = Some s' →
  ∀ g th, gs s' !! g = Some th → at_pc th = PResetCount →
  ∀ g' th', gs s' !! g' = Some th' → member (done (bar s')) th' = 0.
Proof.
  intros Hwf Hinv H g1 th1 Hg1 Hp1 g' th' Hg'.
  assert (Hold := ri_fresh _ Hinv). assert (Hheap := ri_heap _ Hinv).
  assert (Hmx := wf_mutex _ Hwf).
  step_inv H; simpl in *; lk; simpl in *; try done; eauto.
  all: try (exfalso;
            match goal with
            | Hne : ?a ≠ ?b, Ha : gs _ !! ?a = Some ?ta, Hb : gs _ !! ?b = Some ?tb
              |- _ => apply Hne; apply (Hmx a b ta tb Ha Hb);
                      by rewrite ?Hpc, ?Hp1
            end).
  all: try (match goal with
            | Ho : gs _ !! ?a = Some ?ta, Hp : at_pc ?ta = PResetCount |- _ =>
                specialize (Hold _ _ Ho Hp _ _ Hg)
            end;
            unfold member in *; simpl; rewrite Hpc in Hold; done).
  specialize (Hheap _ _ Hg'). specialize (Hmx g' g th' th Hg' Hg).
  rewrite Hpc in Hmx. unfold member.
  destruct (at_pc th'); simpl in *; try done; try case_decide; try lia.
Qed.

Lemma round_zero ev s s' :
  wf s → 0 ≤ n (bar s) ≤ MaxInt64 → proper_inv s → round_inv s →
  step ev s = Some s' →
  count (bar s') = 0 → 0 < n (bar s') →
  ∃ g th, gs s' !! g = Some th ∧ (at_pc th = PCopy ∨ zero0 th = true).
Proof.
  intros Hwf Hn Hp Hinv H Hc Hn'. assert (Hold := ri_zero _ Hinv).
  rewrite (step_n _ _ _ H) in Hn'.
  destruct (count_change _ _ _ H) as [Heq|(g & th & c & -> & Hg & [Hpc|Hpc])].
  - rewrite Heq in Hc. destruct (Hold Hc Hn') as (g0 & th0 & Hg0 & Hz).
    destruct (event_cases ev g0) as [[c ->]|Hev].
    + assert (Hlt := lookup_lt_Some _ _ _ Hg0).
      assert (Hmu := wf_locked _ Hwf _ _ Hg0).
      assert (Hclose := reset_close_ok _ _ _ Hwf Hg0).
      rewrite (step_run _ _ _ _ Hg0) in H.
      unfold Await, wait, reset, Abort, make in H. unfold zero0 in Hz.
      destruct (at_pc th0) eqn:Hpc; try (by destruct Hz);
        repeat case_match; simplify_eq; simpl in *;
        (eexists g0, _; split; [apply list_lookup_insert_eq; done|]);
        unfold zero0; simpl; rewrite ?Z.eqb_eq, ?Z.ltb_lt, ?Z.ltb_ge in *;
        auto; try lia.
      all: try (specialize (Hmu eq_refl); congruence).
      all: try (destruct Hclose as [? ?]; [done|congruence]).
      all: destruct Hz as [?|Hz]; try done; try (apply Z.eqb_eq in Hz); try lia.
    + exists g0, th0. split; [eapply step_same; eauto|done].
  - exists g. rewrite (step_run _ _ _ _ Hg) in H. unfold Await in H.
    rewrite Hpc in H. simplify_eq. simpl. exists (goto PCopy th).
    split; [|left; reflexivity].
    apply list_lookup_insert_eq. by eapply lookup_lt_Some.
  - rewrite (step_run _ _ _ _ Hg) in H. unfold Await, reset in H.
    rewrite Hpc in H. simplify_eq. simpl in *. lia.
Qed.


Lemma sumw_zero w l :
  (∀ g th, l !! g = Some th → w th = 0) → sumw w l = 0.
Proof.
  induction l as [|x l IH]; intros Hw; simpl; [done|].
  rewrite (Hw 0%nat x eq_refl), IH; [done|].
  intros g th Hg. apply (Hw (S g)). done.
Qed.

Lemma renewing_back (l : list Goroutine) g th th' :
  l !! g = Some th → renewing (at_pc th) = false →
  (∀ g0 th0, <[g := th']> l !! g0 = Some th0 → renewing (at_pc th0) = false) →
  ∀ g0 th0, l !! g0 = Some th0 → renewing (at_pc th0) = false.
Proof.
  intros Hg Hr Hall g0 th0 Hg0. destruct (decide (g0 = g)) as [->|Hne].
  - congruence.
  - apply (Hall g0). by rewrite list_lookup_insert_ne.
Qed.

Lemma renewing_here (l : list Goroutine) g th th' :
  l !! g = Some th → renewing (at_pc th') = true →
  (∀ g0 th0, <[g := th']> l !! g0 = Some th0 → renewing (at_pc th0) = false) →
  False.
Proof.
  intros Hg Hr Hall. specialize (Hall g th'). rewrite Hall in Hr; [done|].
  apply list_lookup_insert_eq. by eapply lookup_lt_Some.
Qed.

Lemma round_count ev s s' :
  wf s → 0 ≤ n (bar s) ≤ MaxInt64 → proper_inv s → round_inv s →
  allowed s ev = true → step ev s = Some s' →
  (∀ g th, gs s' !! g = Some th → renewing (at_pc th) = false) →
  count (bar s') + members s' = n (bar s').
Proof.
  intros Hwf Hn Hp Hinv Hal H Hnr.
  assert (Hgood := pi_good _ Hp). assert (Hab := pi_open _ Hp).
  assert (Hcount := ri_count _ Hinv). assert (Hfresh := ri_fresh _ Hinv).
  assert (Hdec := proper_dec s). assert (Hc := pi_count _ Hp).
  rewrite (step_n _ _ _ H). unfold members in *.
  step_inv H; simpl in *; rewrite ?sumw_snoc; try done.
  { unfold member at 2. simpl. rewrite Z.add_0_r. apply Hcount.
    intros g th Hg. apply (Hnr g). by apply lookup_app_l_Some. }
  all: try (exfalso; eapply (renewing_here _ _ _ _ Hg); [|exact Hnr]; done).
  all: try (specialize (Hgood _ _ Hg) as Hme; unfold good in Hme;
            rewrite Hpc in Hme; try done).
  all: try congruence.
  all: try (pose proof (wf_locked _ Hwf _ _ Hg) as Hmu; rewrite Hpc in Hmu;
            specialize (Hmu eq_refl); congruence).
  all: try (destruct (reset_close_ok _ _ _ Hwf Hg Hpc); congruence).
  all: rewrite (sumw_insert _ _ _ _ _ Hg).
  all: try (assert (Hnrs := renewing_back _ _ _ _ Hg
                               ltac:(by rewrite Hpc) Hnr);
            assert (Hs := Hcount Hnrs)).
  all: try (specialize (Hdec _ _ Hwf Hp Hg Hpc);
            rewrite wrap64_small by (unfold MinInt64, MaxInt64 in *; lia)).
  all: try (rewrite (sumw_zero _ _ (Hfresh _ _ Hg Hpc)) in *;
            rewrite (Hfresh _ _ Hg Hpc _ _ Hg)).
  all: remember (sumw (member (done (bar s))) (gs s)) as A.
  all: rewrite ?Z.ltb_lt, ?Z.ltb_ge in *.
  all: unfold member in *; simpl in *; rewrite ?Hpc in *; simpl in *.
  all: try case_decide; try lia.
  exfalso. destruct (wf_open _ Hwf) as (g2 & th2 & Hg2 & Hp2); [congruence|].
  specialize (Hnrs g2 th2 Hg2). by rewrite Hp2 in Hnrs.
Qed.

Lemma round_step ev s s' :
  wf s → 0 ≤ n (bar s) ≤ MaxInt64 → proper_inv s → round_inv s →
  allowed s ev = true → step ev s = Some s' → round_inv s'.
Proof.
  intros Hwf Hn Hp Hinv Hal H. split.
  - eapply round_heap; eauto.
  - eapply round_count; eauto.
  - eapply round_fresh; eauto.
  - eapply round_zero; eauto.
Qed.

Lemma round_reachable k evs s :
  0 ≤ k ≤ MaxInt64 → proper evs (New k) = true → exec evs (New k) = Some s →
  reachable k s ∧ proper_inv s ∧ round_inv s.
Proof.
  intros Hk Hp He. revert Hp He.
  apply (proper_exec (λ s, reachable k s ∧ proper_inv s ∧ round_inv s)).
  - intros ev s0 s0' (Hr & Hinv & Hri) Hal Hs.
    assert (Hwf := wf_reachable _ _ Hr).
    assert (Hn : 0 ≤ n (bar s0) ≤ MaxInt64).
    { rewrite (n_reachable k s0); [lia| |done].
      unfold MinInt64, MaxInt64 in *. lia. }
    split_and!.
    + eapply (reachable_exec _ s0 [ev]); eauto. simpl. by rewrite Hs.
    + eapply proper_step; eauto.
    + eapply round_step; eauto.
  - split_and!; [apply reachable_New|by apply proper_New|by apply round_New].
Qed.


(** Whether a goroutine can act does not depend on the case a [select]
    would take. *)
Lemma step_case g c c' s :
  step (Run g c) s = None → step (Run g c') s = None.
Proof.
  unfold step. destruct (gs s !! g) as [th|]; [|done].
  unfold Await, wait, reset, Abort, make.
  destruct (at_pc th); try done; repeat case_match; done.
Qed.

(** Some goroutine can act, or none can. *)
Lemma enabled_or_blocked s :
  (∃ g s', step (Run g CaseDone) s = Some s') ∨
  (∀ g c, step (Run g c) s = None).
Proof.
  assert (Hm : ∀ m,
    (∃ g s', step (Run g CaseDone) s = Some s') ∨
    (∀ g, (g < m)%nat → step (Run g CaseDone) s = None)).
  { induction m as [|m [?|IH]]; auto.
    - right. intros g Hg. lia.
    - destruct (step (Run m CaseDone) s) as [s'|] eqn:Hs; [left; eauto|].
      right. intros g Hg. destruct (decide (g = m)) as [->|]; [done|].
      apply IH. lia. }
  destruct (Hm (length (gs s))) as [?|Hall]; [by left|right].
  intros g c. apply (step_case g CaseDone).
  destruct (decide (g < length (gs s))%nat); [by apply Hall|].
  apply step_run_none, lookup_ge_None_2. lia.
Qed.

(** Where a call is that cannot act while the mutex is free. *)
Lemma blocked_at s g th :
  proper_inv s → mu (bar s) = false → gs s !! g = Some th →
  step (Run g CaseDone) s = None →
  (∃ e, at_pc th = PReturn e) ∨
  (at_pc th = PWait ∧ closed (chans s) (loc_done th) = false).
Proof.
  intros Hp Hmu Hg H. assert (Hgood := pi_good _ Hp _ _ Hg).
  rewrite (step_run _ _ _ _ Hg) in H.
  unfold Await, wait, reset, Abort, make in H. unfold good in Hgood.
  destruct (at_pc th) eqn:Hpc; try done; repeat case_match;
    simplify_eq; eauto.
Qed.

(** The barrier blocks only while parties are missing.  In a proper use,
    when no call can act: every call in flight is a waiter of the current
    round at the [select] of [wait], holding the unopened [b.done]; the
    mutex is free; the counter is the number of parties the round still
    misses, [b.n] less the calls in flight; and if [b.n] is positive that
    number is positive.  So whenever [b.n] calls are in flight, one of them
    can act. *)
Theorem blocked_for_parties k evs s :
  0 ≤ k ≤ MaxInt64 → proper evs (New k) = true → exec evs (New k) = Some s →
  ((∀ g c, step (Run g c) s = None) →
   mu (bar s) = false ∧ closed (chans s) (done (bar s)) = false ∧
   count (bar s) = n (bar s) - flying s ∧
   (0 < n (bar s) → 0 < count (bar s)) ∧
   ∀ g th, gs s !! g = Some th →
     (∃ e, at_pc th = PReturn e) ∨
     (at_pc th = PWait ∧ loc_done th = done (bar s) ∧ 0 < loc_count th)) ∧
  (0 < n (bar s) → flying s = n (bar s) →
   ∃ g c s', step (Run g c) s = Some s').
Proof.
  intros Hk Hpr He.
  destruct (round_reachable k evs s Hk Hpr He) as (Hr & Hp & Hri).
  assert (Hwf := wf_reachable _ _ Hr).
  assert (Hblocked : (∀ g c, step (Run g c) s = None) →
    mu (bar s) = false ∧ closed (chans s) (done (bar s)) = false ∧
    count (bar s) = n (bar s) - flying s ∧
    (0 < n (bar s) → 0 < count (bar s)) ∧
    ∀ g th, gs s !! g = Some th →
      (∃ e, at_pc th = PReturn e) ∨
      (at_pc th = PWait ∧ loc_done th = done (bar s) ∧ 0 < loc_count th)).
  { intros Hb.
    assert (Hmu : mu (bar s) = false).
    { destruct (mu (bar s)) eqn:Hmu; [|done].
      destruct (wf_holder _ Hwf Hmu) as (h & th & Hg & Hcs).
      destruct (cs_step _ _ _ Hwf Hg Hcs) as (s1 & th1 & Hs & _).
      by rewrite Hb in Hs. }
    assert (Hat : ∀ g th, gs s !! g = Some th →
      (∃ e, at_pc th = PReturn e) ∨
      (at_pc th = PWait ∧ loc_done th = done (bar s) ∧ 0 < loc_count th)).
    { intros g th Hg.
      destruct (blocked_at s g th Hp Hmu Hg (Hb _ _)) as [?|[Hpc Hc]];
        [by left|right].
      pose proof (sig_ok_reachable k s g th Hr Hg) as Hsig.
      pose proof (wf_branch _ Hwf _ _ Hg) as Hbr.
      unfold sig_ok in Hsig. unfold branch_ok in Hbr. rewrite Hpc in *.
      split_and!; [done| |done]. destruct Hsig; [done|congruence]. }
    assert (Hopen : closed (chans s) (done (bar s)) = false).
    { destruct (closed (chans s) (done (bar s))) eqn:Hc; [|done].
      destruct (wf_open _ Hwf Hc) as (g2 & th2 & Hg2 & Hp2).
      destruct (Hat _ _ Hg2) as [[e ?]|[? _]]; congruence. }
    assert (Hmem : members s = flying s).
    { unfold members, flying. apply sumw_ext. intros g th Hg.
      unfold member, in_flight.
      destruct (Hat _ _ Hg) as [[e ->]|(-> & Hd & _)]; [done|].
      by rewrite decide_True. }
    assert (Hcnt : count (bar s) + members s = n (bar s)).
    { apply (ri_count _ Hri). intros g th Hg.
      by destruct (Hat _ _ Hg) as [[e ->]|(-> & _)]. }
    split_and!; [done|done|lia| |done].
    intros Hn. pose proof (pi_count _ Hp) as Hc.
    destruct (decide (count (bar s) = 0)) as [H0|]; [|lia].
    destruct (ri_zero _ Hri H0 Hn) as (g & th & Hg & Hz).
    unfold zero0 in Hz.
    destruct (Hat _ _ Hg) as [[e Hpc]|(Hpc & _)]; rewrite Hpc in Hz;
      by destruct Hz. }
  split; [done|]. intros Hn Hfly.
  destruct (enabled_or_blocked s) as [(g & s' & Hs)|Hb]; [eauto|].
  destruct (Hblocked Hb) as (_ & _ & Hc & Hpos & _).
  specialize (Hpos Hn). lia.
Qed.

Lemma blocked_for_parties_witness :
  (∀ g c, step (Run g c) waiter_wait_state = None) ∧
  mu (bar waiter_wait_state) = false ∧
  closed (chans waiter_wait_state) (done (bar waiter_wait_state)) = false ∧
  count (bar waiter_wait_state) =
    n (bar waiter_wait_state) - flying waiter_wait_state ∧
  (0 < n (bar waiter_wait_state) → 0 < count (bar waiter_wait_state)) ∧
  ∀ g th, gs waiter_wait_state !! g = Some th →
    (∃ e, at_pc th = PReturn e) ∨
    (at_pc th = PWait ∧ loc_done th = done (bar waiter_wait_state) ∧
     0 < loc_count th).
Proof.
  assert (Hb : ∀ g c, step (Run g c) waiter_wait_state = None).
  { intros [|g] c; [by destruct c|done]. }
  split; [exact Hb|].
  apply (blocked_for_parties 2 (GoAwait None :: solo 0 6) waiter_wait_state).
  - unfold MaxInt64. lia.
  - vm_compute. reflexivity.
  - vm_compute. reflexivity.
  - exact Hb.
Defined.
